(** * Tabular preprocessing utilities of [utils/data_processing.py]

    A shallow embedding of the four table transformations of the
    repository ([feature_engineering], [data_preprocessing],
    [remove_extreme_values], [split_data]) together with the part of the
    pandas data model they rely on.

    Modelling conventions.
    - A cell of a [float64] column is [NaN] (the pandas marker of a missing
      value), an infinity, or a finite number.  Finite arithmetic is exact
      (rationals): rounding and signed zeros are outside the model, the
      IEEE special values are kept because the code depends on them
      (division by zero, [fillna], comparisons with a missing value).
    - A column is an [int64] or a [float64] series.  The integers of an
      [int64] column are kept as [Z] and read modulo [2^64] ([wrap]), and
      the difference, sum and product of two [int64] columns wrap around
      as numpy's do; the conversion of an integer to a float is exact.
    - A [DataFrame] is a Python object: the functions receive and return
      references into a store, so that aliasing between the caller's table
      and the table a function works on is visible. *)

From Stdlib Require Import QArith Qcanon DecimalString DecimalZ DecimalPos.
From stdpp Require Import base numbers list strings gmap sorting option.
Close Scope Q_scope.
Close Scope Qc_scope.

(** ** Floating-point cells *)

Inductive float64 : Type :=
  | NaN
  | NegInf
  | Fin (q : Qc)
  | PosInf.

Global Instance float64_eq_dec : EqDecision float64.
Proof. solve_decision. Defined.

Definition of_int (z : Z) : float64 := Fin (Qc_of_Z z).

Definition isnan (x : float64) : bool :=
  match x with NaN => true | _ => false end.

Definition isfinite (x : float64) : bool :=
  match x with Fin _ => true | _ => false end.

(** The infinity (or, for a zero, the invalid result) with the sign of a
    comparison against zero. *)
Definition signed_inf (s : comparison) : float64 :=
  match s with Gt => PosInf | Lt => NegInf | Eq => NaN end.

Definition flip_sign (s : comparison) : comparison :=
  match s with Gt => Lt | Lt => Gt | Eq => Eq end.

Definition fadd (x y : float64) : float64 :=
  match x, y with
  | NaN, _ | _, NaN => NaN
  | PosInf, NegInf | NegInf, PosInf => NaN
  | PosInf, _ | _, PosInf => PosInf
  | NegInf, _ | _, NegInf => NegInf
  | Fin a, Fin b => Fin (a + b)%Qc
  end.

Definition fsub (x y : float64) : float64 :=
  match x, y with
  | NaN, _ | _, NaN => NaN
  | PosInf, PosInf | NegInf, NegInf => NaN
  | PosInf, _ | _, NegInf => PosInf
  | NegInf, _ | _, PosInf => NegInf
  | Fin a, Fin b => Fin (a - b)%Qc
  end.

Definition fmul (x y : float64) : float64 :=
  match x, y with
  | NaN, _ | _, NaN => NaN
  | Fin a, Fin b => Fin (a * b)%Qc
  | PosInf, Fin b | Fin b, PosInf => signed_inf (b ?= 0)%Qc
  | NegInf, Fin b | Fin b, NegInf => signed_inf (flip_sign (b ?= 0)%Qc)
  | PosInf, PosInf | NegInf, NegInf => PosInf
  | PosInf, NegInf | NegInf, PosInf => NegInf
  end.

(** True division.  A finite non-zero numerator over zero is an infinity,
    zero over zero is [NaN]; neither raises. *)
Definition fdiv (x y : float64) : float64 :=
  match x, y with
  | NaN, _ | _, NaN => NaN
  | Fin a, Fin b =>
      if decide (b = 0%Qc) then signed_inf (a ?= 0)%Qc else Fin (a / b)%Qc
  | Fin _, (PosInf | NegInf) => Fin 0%Qc
  | (PosInf | NegInf), (PosInf | NegInf) => NaN
  | PosInf, Fin b => if decide (b < 0)%Qc then NegInf else PosInf
  | NegInf, Fin b => if decide (b < 0)%Qc then PosInf else NegInf
  end.

(** Comparisons: every comparison with [NaN] is false. *)
Definition fle (x y : float64) : bool :=
  match x, y with
  | NaN, _ | _, NaN => false
  | NegInf, _ | _, PosInf => true
  | Fin a, Fin b => bool_decide (a ≤ b)%Qc
  | _, _ => false
  end.

Definition flt (x y : float64) : bool :=
  match x, y with
  | NaN, _ | _, NaN => false
  | PosInf, _ | _, NegInf => false
  | Fin a, Fin b => bool_decide (a < b)%Qc
  | _, _ => true
  end.

Definition fge (x y : float64) : bool := fle y x.

(** ** Series: one typed column *)

(** The [int64] value of an integer: two's complement wrap-around into
    [[-2^63, 2^63)]. *)
Definition wrap (z : Z) : Z := ((z + 2 ^ 63) `mod` 2 ^ 64 - 2 ^ 63)%Z.

(** An [int64] column holds the integers [wrap z] of its list; a
    [float64] column holds its cells as they are. *)
Inductive Series : Type :=
  | IntS (xs : list Z)
  | FloatS (xs : list float64).

Global Instance Series_eq_dec : EqDecision Series.
Proof. solve_decision. Defined.

(** The integers of an [int64] column. *)
Definition ints (xs : list Z) : list Z := wrap <$> xs.

(** The cells of a series read as floats ([astype(float)]). *)
Definition values (s : Series) : list float64 :=
  match s with
  | IntS xs => of_int <$> ints xs
  | FloatS xs => xs
  end.

Definition series_len (s : Series) : nat :=
  match s with
  | IntS xs => length xs
  | FloatS xs => length xs
  end.

(** Element-wise arithmetic.  Two [int64] operands stay [int64] under
    [-], [+] and [*], the result wrapping around on overflow; any other
    combination, and every [/], is [float64]. *)
Definition series_sub (a b : Series) : Series :=
  match a, b with
  | IntS xs, IntS ys => IntS (zip_with (λ x y, wrap (x - y)) (ints xs) (ints ys))
  | _, _ => FloatS (zip_with fsub (values a) (values b))
  end.

Definition series_add (a b : Series) : Series :=
  match a, b with
  | IntS xs, IntS ys => IntS (zip_with (λ x y, wrap (x + y)) (ints xs) (ints ys))
  | _, _ => FloatS (zip_with fadd (values a) (values b))
  end.

Definition series_mul (a b : Series) : Series :=
  match a, b with
  | IntS xs, IntS ys => IntS (zip_with (λ x y, wrap (x * y)) (ints xs) (ints ys))
  | _, _ => FloatS (zip_with fmul (values a) (values b))
  end.

Definition series_div (a b : Series) : Series :=
  FloatS (zip_with fdiv (values a) (values b)).

(** [Series.isnull()] and [Series.fillna(v)].  An [int64] series holds no
    missing value and is returned as it is. *)
Definition series_isnull (s : Series) : list bool := isnan <$> values s.

Definition fill (v x : float64) : float64 := if isnan x then v else x.

Definition series_fillna (v : float64) (s : Series) : Series :=
  match s with
  | IntS xs => IntS xs
  | FloatS xs => FloatS (fill v <$> xs)
  end.

Definition has_missing (s : Series) : bool := existsb isnan (values s).

(** ** DataFrames *)

(** A table: the row labels and the columns in their order. *)
Record DataFrame : Type := mkDataFrame {
  index : list nat;
  columns : list (string * Series)
}.

Global Instance DataFrame_eq_dec : EqDecision DataFrame.
Proof. solve_decision. Defined.

Definition column_names (df : DataFrame) : list string := (columns df).*1.

(** Every column has one cell per row label. *)
Definition well_formed (df : DataFrame) : Prop :=
  Forall (λ cs, series_len cs.2 = length (index df)) (columns df).

Fixpoint lookup_col {A} (c : string) (cols : list (string * A)) : option A :=
  match cols with
  | [] => None
  | (k, s) :: cols' => if decide (k = c) then Some s else lookup_col c cols'
  end.

(** [df[c] = s]: an existing column is replaced where it stands, a new
    one is appended. *)
Fixpoint assign_col (c : string) (s : Series) (cols : list (string * Series))
    : list (string * Series) :=
  match cols with
  | [] => [(c, s)]
  | (k, v) :: cols' =>
      if decide (k = c) then (c, s) :: cols' else (k, v) :: assign_col c s cols'
  end.

Definition df_get (c : string) (df : DataFrame) : option Series :=
  lookup_col c (columns df).

Definition df_set (c : string) (s : Series) (df : DataFrame) : DataFrame :=
  mkDataFrame (index df) (assign_col c s (columns df)).

(** The cell of column [c] at row position [i], read as a float. *)
Definition cell (df : DataFrame) (c : string) (i : nat) : option float64 :=
  s ← df_get c df; values s !! i.

(** A cell together with the dtype of its column. *)
Inductive scalar : Type :=
  | IntV (z : Z)
  | FloatV (x : float64).

Definition as_float (v : scalar) : float64 :=
  match v with IntV z => of_int z | FloatV x => x end.

Definition item (s : Series) (i : nat) : option scalar :=
  match s with
  | IntS xs => IntV <$> ints xs !! i
  | FloatS xs => FloatV <$> xs !! i
  end.

Definition typed_cell (df : DataFrame) (c : string) (i : nat) : option scalar :=
  s ← df_get c df; item s i.

(** The element-wise operations, cell by cell. *)
Definition ssub (u v : scalar) : scalar :=
  match u, v with
  | IntV x, IntV y => IntV (wrap (x - y))
  | _, _ => FloatV (fsub (as_float u) (as_float v))
  end.

Definition sadd (u v : scalar) : scalar :=
  match u, v with
  | IntV x, IntV y => IntV (wrap (x + y))
  | _, _ => FloatV (fadd (as_float u) (as_float v))
  end.

Definition smul (u v : scalar) : scalar :=
  match u, v with
  | IntV x, IntV y => IntV (wrap (x * y))
  | _, _ => FloatV (fmul (as_float u) (as_float v))
  end.

Definition sdiv (u v : scalar) : scalar := FloatV (fdiv (as_float u) (as_float v)).

Definition sfill (w : float64) (u : scalar) : scalar :=
  match u with IntV z => IntV z | FloatV x => FloatV (fill w x) end.

(** The ratio [(u - v) / (u + v)] of two cells as the code computes it. *)
Definition typed_ratio (u v : scalar) : float64 :=
  fdiv (as_float (ssub u v)) (as_float (sadd u v)).

(** An [int64] cell lies in the range of the type. *)
Definition in_int64 (u : scalar) : Prop :=
  match u with IntV z => (- 2 ^ 63 ≤ z < 2 ^ 63)%Z | FloatV _ => True end.

(** Expressions accepted by [DataFrame.eval] (the fragment the code uses). *)
Inductive expr : Type :=
  | Col (c : string)
  | Sub (a b : expr)
  | Add (a b : expr)
  | Div (a b : expr).

Fixpoint eval_expr (df : DataFrame) (e : expr) : option Series :=
  match e with
  | Col c => df_get c df
  | Sub a b => x ← eval_expr df a; y ← eval_expr df b; Some (series_sub x y)
  | Add a b => x ← eval_expr df a; y ← eval_expr df b; Some (series_add x y)
  | Div a b => x ← eval_expr df a; y ← eval_expr df b; Some (series_div x y)
  end.

Definition df_fillna (v : float64) (df : DataFrame) : DataFrame :=
  mkDataFrame (index df) (prod_map id (series_fillna v) <$> columns df).

(** Boolean indexing [xs[mask]]. *)
Fixpoint mask_filter {A} (mask : list bool) (xs : list A) : list A :=
  match mask, xs with
  | b :: mask', x :: xs' =>
      if b then x :: mask_filter mask' xs' else mask_filter mask' xs'
  | _, _ => []
  end.

Definition series_select (mask : list bool) (s : Series) : Series :=
  match s with
  | IntS xs => IntS (mask_filter mask xs)
  | FloatS xs => FloatS (mask_filter mask xs)
  end.

Definition df_select (mask : list bool) (df : DataFrame) : DataFrame :=
  mkDataFrame (mask_filter mask (index df))
              (prod_map id (series_select mask) <$> columns df).

(** ** The object store *)

Definition loc : Type := nat.

(** Programs over the store of table objects; [None] is a raised
    exception (a [KeyError] for an absent column, a dangling reference). *)
Definition Py (A : Type) : Type := gmap loc DataFrame → option (A * gmap loc DataFrame).

Definition ret {A} (x : A) : Py A := λ h, Some (x, h).

Definition bind {A B} (m : Py A) (k : A → Py B) : Py B :=
  λ h, match m h with
       | Some (x, h') => k x h'
       | None => None
       end.

Notation "x <~ m ;; k" := (bind m (λ x, k))
  (at level 100, m at next level, right associativity).
Notation "m ;;; k" := (bind m (λ _, k))
  (at level 100, right associativity).

Definition lift {A} (o : option A) : Py A :=
  λ h, match o with Some x => Some (x, h) | None => None end.

Definition deref (r : loc) : Py DataFrame := λ h, df ← h !! r; Some (df, h).

Definition alloc (df : DataFrame) : Py loc :=
  λ h, let r := fresh (dom h) in Some (r, <[r := df]> h).

Definition update (r : loc) (f : DataFrame → DataFrame) : Py unit :=
  λ h, df ← h !! r; Some ((), <[r := f df]> h).

(** [X.copy()] *)
Definition copy (X : loc) : Py loc := df <~ deref X ;; alloc df.

(** [X[c]] *)
Definition getitem (X : loc) (c : string) : Py Series :=
  df <~ deref X ;; lift (df_get c df).

(** [X[c] = s] *)
Definition setitem (X : loc) (c : string) (s : Series) : Py unit :=
  update X (df_set c s).

(** [X.eval(e)] *)
Definition eval (X : loc) (e : expr) : Py Series :=
  df <~ deref X ;; lift (eval_expr df e).

(** [X.fillna(v, inplace=True)] *)
Definition fillna_inplace (X : loc) (v : float64) : Py unit :=
  update X (df_fillna v).

(** [X[mask]]: a new table. *)
Definition select (X : loc) (mask : list bool) : Py loc :=
  df <~ deref X ;; alloc (df_select mask df).

(** ** [feature_engineering] *)

Definition liquidity_imbalance_expr : expr :=
  Div (Sub (Col "bid_size") (Col "ask_size")) (Add (Col "bid_size") (Col "ask_size")).

Definition matched_imbalance_expr : expr :=
  Div (Sub (Col "imbalance_size") (Col "matched_size"))
      (Add (Col "matched_size") (Col "imbalance_size")).

Definition feature_engineering (X : loc) : Py loc :=
  _X <~ copy X ;;
  li <~ eval _X liquidity_imbalance_expr ;;
  setitem _X "liquidity_imbalance" li ;;;
  mi <~ eval _X matched_imbalance_expr ;;
  setitem _X "matched_imbalance" mi ;;;
  ask <~ getitem _X "ask_price" ;;
  bid <~ getitem _X "bid_price" ;;
  setitem _X "price_spread" (series_sub ask bid) ;;;
  ps <~ getitem _X "price_spread" ;;
  li' <~ getitem _X "liquidity_imbalance" ;;
  setitem _X "market_urgency" (series_mul ps li') ;;;
  fillna_inplace _X (Fin 0) ;;;
  ret _X.

(** ** Tables read row by row *)

(** A row: its label and its cells by column name, read as floats. *)
Definition Row : Type := nat * list (string * float64).

Fixpoint rows_of (idx : list nat) (cols : list (string * list float64)) : list Row :=
  match idx with
  | [] => []
  | l :: idx' =>
      (l, prod_map id (hd NaN) <$> cols) :: rows_of idx' (prod_map id tail <$> cols)
  end.

Definition rows (df : DataFrame) : list Row :=
  rows_of (index df) (prod_map id values <$> columns df).

Definition row_value (c : string) (r : Row) : float64 :=
  default NaN (lookup_col c r.2).

(** ** Library functions whose value the model leaves open

    Two pandas/numpy functions cannot be computed exactly on rationals:
    the text Python prints for a [float64] category level (used by
    [get_dummies] to name indicator columns) and the square root inside
    [Series.std].  Every result below holds for any choice of them. *)
Class Numerics : Type := {
  float_repr : float64 → string;
  sqrt_Qc : Qc → Qc
}.

(** ** Column statistics *)

Definition present (xs : list float64) : list float64 :=
  filter (λ x, isnan x = false) xs.

Definition fsum (xs : list float64) : float64 := foldr fadd (Fin 0%Qc) xs.

Definition of_nat (n : nat) : float64 := of_int (Z.of_nat n).

(** [Series.median()]: missing values are skipped; an even count averages
    the two middle values; no value at all gives [NaN]. *)
Definition median (xs : list float64) : float64 :=
  let ys := merge_sort fle (present xs) in
  let n := length ys in
  if decide (n = 0) then NaN
  else if Nat.odd n then default NaN (ys !! (n / 2))
  else fdiv (fadd (default NaN (ys !! (n / 2 - 1))) (default NaN (ys !! (n / 2))))
            (of_int 2).

Definition series_median (s : Series) : float64 := median (values s).

(** [Series.mean()], missing values skipped. *)
Definition mean (xs : list float64) : float64 :=
  let ys := present xs in fdiv (fsum ys) (of_nat (length ys)).

Definition series_mean (s : Series) : float64 := mean (values s).

Definition fsqrt `{Numerics} (x : float64) : float64 :=
  match x with
  | NaN | NegInf => NaN
  | PosInf => PosInf
  | Fin q => if decide (q < 0)%Qc then NaN else Fin (sqrt_Qc q)
  end.

(** [Series.std()]: the sample standard deviation ([ddof=1]) of the
    non-missing values; fewer than two of them give [NaN]. *)
Definition variance (xs : list float64) : float64 :=
  let ys := present xs in
  let n := length ys in
  if decide (n ≤ 1) then NaN
  else
    let avg := fdiv (fsum ys) (of_nat n) in
    fdiv (fsum ((λ y, fmul (fsub avg y) (fsub avg y)) <$> ys)) (of_nat (n - 1)).

Definition std `{Numerics} (xs : list float64) : float64 := fsqrt (variance xs).

Definition series_std `{Numerics} (s : Series) : float64 := std (values s).

(** ** [data_preprocessing] *)

(** [data.dropna()]: the rows without a missing value in any column. *)
Definition complete_rows (df : DataFrame) : list bool :=
  foldr (λ cs acc, zip_with andb (negb <$> series_isnull cs.2) acc)
        (replicate (length (index df)) true) (columns df).

Definition df_dropna (df : DataFrame) : DataFrame :=
  df_select (complete_rows df) df.

Definition dropna (X : loc) : Py loc :=
  df <~ deref X ;; alloc (df_dropna df).

(** [data.columns[data.isnull().any()]] *)
Definition df_columns_with_missing (df : DataFrame) : list string :=
  (filter (λ cs, has_missing cs.2 = true) (columns df)).*1.

Definition columns_with_missing_of (X : loc) : Py (list string) :=
  df <~ deref X ;; ret (df_columns_with_missing df).

Fixpoint for_each {A} (xs : list A) (body : A → Py unit) : Py unit :=
  match xs with
  | [] => ret ()
  | x :: xs' => body x ;;; for_each xs' body
  end.

(** Category levels of the encoded column: its distinct non-missing
    values in increasing order. *)
Definition int_levels (xs : list Z) : list Z :=
  merge_sort Z.le (remove_dups xs).

Definition float_levels (xs : list float64) : list float64 :=
  merge_sort fle (remove_dups (present xs)).

Definition str_int (z : Z) : string := NilZero.string_of_int (Z.to_int z).

(** An indicator column holds [1] where the cell equals the level and
    [0] elsewhere (whether pandas types it [uint8] or [bool] is not
    modelled). *)
Definition indicator {A} `{EqDecision A} (lv : A) (xs : list A) : Series :=
  IntS ((λ x, if decide (x = lv) then 1%Z else 0%Z) <$> xs).

(** The indicator columns [get_dummies] builds for one column: one per
    level, named [prefix_level] with the level printed as Python does. *)
Definition dummies `{Numerics} (prefix : string) (s : Series) : list (string * Series) :=
  match s with
  | IntS xs =>
      (λ lv, (prefix +:+ "_" +:+ str_int lv, indicator lv (ints xs)))
        <$> int_levels (ints xs)
  | FloatS xs =>
      (λ lv, (prefix +:+ "_" +:+ float_repr lv, indicator lv xs)) <$> float_levels xs
  end.

(** [pd.get_dummies(df, columns=[c], prefix=prefix)]: column [c] is
    dropped and its indicator columns are appended. *)
Definition df_get_dummies `{Numerics} (c prefix : string) (df : DataFrame)
    : option DataFrame :=
  s ← df_get c df;
  Some (mkDataFrame (index df)
          (filter (λ cs, cs.1 ≠ c) (columns df) ++ dummies prefix s)).

Definition get_dummies `{Numerics} (X : loc) (c prefix : string) : Py loc :=
  df <~ deref X ;;
  out <~ lift (df_get_dummies c prefix df) ;;
  alloc out.

(** [df.rename(columns={old: new})] *)
Definition rename_label (old new k : string) : string :=
  if decide (k = old) then new else k.

Definition df_rename (old new : string) (df : DataFrame) : DataFrame :=
  mkDataFrame (index df) (prod_map (rename_label old new) id <$> columns df).

Definition rename (X : loc) (old new : string) : Py loc :=
  df <~ deref X ;; alloc (df_rename old new df).

Definition impute_median (data : loc) (column : string) : Py unit :=
  s <~ getitem data column ;;
  let median_value := series_median s in
  s' <~ getitem data column ;;
  setitem data column (series_fillna median_value s').

Definition data_preprocessing `{Numerics} (data : loc) (remove_missing : bool) : Py loc :=
  data1 <~ (if remove_missing then dropna data
            else
              far <~ getitem data "far_price" ;;
              setitem data "far_price" (series_fillna (Fin 0%Qc) far) ;;;
              near <~ getitem data "near_price" ;;
              setitem data "near_price" (series_fillna (Fin 0%Qc) near) ;;;
              columns_with_missing <~ columns_with_missing_of data ;;
              for_each columns_with_missing (impute_median data) ;;;
              ret data) ;;
  data2 <~ get_dummies data1 "imbalance_buy_sell_flag" "imbalance_flag" ;;
  rename data2 "imbalance_flag_-1" "imbalance_flag_neg_1".

(** ** [remove_extreme_values] *)

(** The mask of the rows of [s] inside the closed band
    [[lower_bound, upper_bound]]:
    [(s >= lower_bound) & (s <= upper_bound)]. *)
Definition band_mask (lower_bound upper_bound : float64) (s : Series) : list bool :=
  zip_with andb ((λ x, fge x lower_bound) <$> values s)
                ((λ x, fle x upper_bound) <$> values s).

(** One iteration of the loop over [columns]. *)
Definition trim_column `{Numerics} (sigma : float64) (df_copy : loc) (column : string)
    : Py loc :=
  for_mean <~ getitem df_copy column ;;
  let mean_value := series_mean for_mean in
  for_std <~ getitem df_copy column ;;
  let std_value := series_std for_std in
  let lower_bound := fsub mean_value (fmul sigma std_value) in
  let upper_bound := fadd mean_value (fmul sigma std_value) in
  above <~ getitem df_copy column ;;
  below <~ getitem df_copy column ;;
  select df_copy
    (zip_with andb ((λ x, fge x lower_bound) <$> values above)
                   ((λ x, fle x upper_bound) <$> values below)).

Fixpoint trim_columns `{Numerics} (sigma : float64) (columns : list string) (df_copy : loc)
    : Py loc :=
  match columns with
  | [] => ret df_copy
  | column :: rest =>
      df_copy' <~ trim_column sigma df_copy column ;;
      trim_columns sigma rest df_copy'
  end.

(** ['_size' in column] *)
Definition mentions_size (column : string) : bool :=
  if String.index 0 "_size" column is Some _ then true else false.

(** The list [count_variables] is computed and, its transformation being
    commented out in the source, never used. *)
Definition remove_extreme_values `{Numerics} (dataframe : loc) (columns : list string)
    (sigma : float64) : Py loc :=
  df_copy <~ copy dataframe ;;
  let count_variables := filter (λ column, mentions_size column = true) columns in
  trim_columns sigma columns df_copy.

(** ** [split_data] *)

Definition split_data (data : loc) (n : float64) : Py (loc * loc) :=
  d <~ getitem data "date_id" ;;
  train <~ select data ((λ x, flt x n) <$> values d) ;;
  d' <~ getitem data "date_id" ;;
  test <~ select data ((λ x, fge x n) <$> values d') ;;
  ret (train, test).

(** ** A concrete choice of the open library functions, for examples *)

Definition demo_repr (x : float64) : string :=
  match x with
  | NaN => "nan"
  | PosInf => "inf"
  | NegInf => "-inf"
  | Fin q =>
      if decide (Zpos (Qden (this q)) = 1%Z)
      then str_int (Qnum (this q)) +:+ ".0"
      else str_int (Qnum (this q)) +:+ "/" +:+ str_int (Zpos (Qden (this q)))
  end.

(** Square root rounded down to a multiple of [2^-32]. *)
Definition demo_sqrt (q : Qc) : Qc :=
  let n := Qnum (this q) in
  let d := Zpos (Qden (this q)) in
  Q2Qc (Qmake (Z.sqrt (n * d * 2 ^ 64)) (Z.to_pos (d * 2 ^ 32))).

Definition demo : Numerics := {| float_repr := demo_repr; sqrt_Qc := demo_sqrt |}.

(** ** What the functions compute, as functions on table values

    The store programs above are characterised below by pure functions on
    [DataFrame] values; the lemmas [*_run] relate the two. *)

Definition feature_engineering_df (df : DataFrame) : option DataFrame :=
  li ← eval_expr df liquidity_imbalance_expr;
  let d1 := df_set "liquidity_imbalance" li df in
  mi ← eval_expr d1 matched_imbalance_expr;
  let d2 := df_set "matched_imbalance" mi d1 in
  ask ← df_get "ask_price" d2;
  bid ← df_get "bid_price" d2;
  let d3 := df_set "price_spread" (series_sub ask bid) d2 in
  ps ← df_get "price_spread" d3;
  li' ← df_get "liquidity_imbalance" d3;
  Some (df_fillna (Fin 0%Qc) (df_set "market_urgency" (series_mul ps li') d3)).

(** The [else] branch of [data_preprocessing]: what the caller's table
    holds once the missing values are filled. *)
Definition impute_column (df : DataFrame) (column : string) : option DataFrame :=
  s ← df_get column df;
  Some (df_set column (series_fillna (series_median s) s) df).

Fixpoint impute_columns (cs : list string) (df : DataFrame) : option DataFrame :=
  match cs with
  | [] => Some df
  | c :: cs' => d ← impute_column df c; impute_columns cs' d
  end.

Definition fill_missing_df (df : DataFrame) : option DataFrame :=
  far ← df_get "far_price" df;
  let d1 := df_set "far_price" (series_fillna (Fin 0%Qc) far) df in
  near ← df_get "near_price" d1;
  let d2 := df_set "near_price" (series_fillna (Fin 0%Qc) near) d1 in
  impute_columns (df_columns_with_missing d2) d2.

(** A column after the missing-value step: [far_price] and [near_price]
    are filled with [0], every other column with its own median. *)
Definition impute_series (s : Series) : Series :=
  series_fillna (series_median s) s.

Definition imputed (k : string) (s : Series) : Series :=
  if decide (k = "far_price" ∨ k = "near_price")
  then series_fillna (Fin 0%Qc) s else impute_series s.

(** The table handed to [get_dummies]. *)
Definition encoder_input (remove_missing : bool) (df : DataFrame) : option DataFrame :=
  if remove_missing then Some (df_dropna df) else fill_missing_df df.

Definition derived_columns : list string :=
  ["liquidity_imbalance"; "matched_imbalance"; "price_spread"; "market_urgency"].

(** The ratio [(x - y) / (x + y)] as the code computes it. *)
Definition ratio (x y : float64) : float64 := fdiv (fsub x y) (fadd x y).

(** The table before the final [fillna]. *)
Definition engineered (df : DataFrame) (B A I M P Q : Series) : DataFrame :=
  let li := series_div (series_sub B A) (series_add B A) in
  let mi := series_div (series_sub I M) (series_add M I) in
  let ps := series_sub P Q in
  df_set "market_urgency" (series_mul ps li)
    (df_set "price_spread" ps
       (df_set "matched_imbalance" mi (df_set "liquidity_imbalance" li df))).


Definition base_columns : list string :=
  ["bid_size"; "ask_size"; "imbalance_size"; "matched_size"; "ask_price"; "bid_price"].

Definition has_columns (cs : list string) (df : DataFrame) : Prop :=
  Forall (λ c, is_Some (df_get c df)) cs.

(** ** Statements about the derived columns *)

(** Two cells whose difference, or sum, is taken without wrap-around:
    always so unless both are [int64]. *)
Definition exact_sub (u v : scalar) : Prop :=
  ∀ x y, u = IntV x → v = IntV y → (- 2 ^ 63 ≤ x - y < 2 ^ 63)%Z.

Definition exact_add (u v : scalar) : Prop :=
  ∀ x y, u = IntV x → v = IntV y → (- 2 ^ 63 ≤ x + y < 2 ^ 63)%Z.



(** The consistency of the derived columns as the specification words
    it, for a row whose two prices are present: the spread is the
    difference of the prices and the urgency is the product of the
    spread and the imbalance. *)
Definition urgency_as_stated (ask bid spread imbalance urgency : float64) : Prop :=
  spread = fsub ask bid ∧ urgency = fmul spread imbalance.

(** ** Example tables *)

Definition num (z : Z) : float64 := of_int z.

(** A small order book with missing prices and an empty book row. *)
Definition book_df : DataFrame := mkDataFrame [0; 1; 2; 3]
  [("date_id", IntS [1; 1; 2; 3]%Z);
   ("bid_size", FloatS [num 3; num 0; num 5; num 2]);
   ("ask_size", FloatS [num 1; num 0; num 5; NaN]);
   ("imbalance_size", FloatS [num 10; num 0; NaN; num 4]);
   ("matched_size", FloatS [num 30; num 0; num 7; num 4]);
   ("ask_price", FloatS [num 11; num 10; NaN; num 12]);
   ("bid_price", FloatS [num 10; num 10; num 9; num 10]);
   ("far_price", FloatS [NaN; num 10; NaN; num 11]);
   ("near_price", FloatS [NaN; NaN; num 10; num 11]);
   ("imbalance_buy_sell_flag", IntS [1; 0; (-1); 1]%Z)].


(** Prices held as [int64] whose difference [2^63] does not fit. *)
Definition wide_df : DataFrame := mkDataFrame [0]
  [("bid_size", FloatS [num 3]);
   ("ask_size", FloatS [num 1]);
   ("imbalance_size", FloatS [num 1]);
   ("matched_size", FloatS [num 3]);
   ("ask_price", IntS [2 ^ 63 - 1]%Z);
   ("bid_price", IntS [(-1)]%Z)].

(** One row whose ask price is missing. *)
Definition no_ask_df : DataFrame := mkDataFrame [0]
  [("bid_size", FloatS [num 2]);
   ("ask_size", FloatS [num 1]);
   ("imbalance_size", FloatS [num 1]);
   ("matched_size", FloatS [num 1]);
   ("ask_price", FloatS [NaN]);
   ("bid_price", FloatS [num 10])].

(** A cell that is missing or finite (not an infinity). *)
Definition regular (x : float64) : Prop := x = NaN ∨ ∃ p, x = Fin p.

(** A size cell as the data model has it: missing, or finite and not
    negative. *)
Definition regular_size (x : float64) : Prop :=
  x = NaN ∨ ∃ p, x = Fin p ∧ (0 ≤ p)%Qc.

Definition price_columns : list string := ["far_price"; "near_price"].

Definition flag_column : string := "imbalance_buy_sell_flag".

(** Columns with a missing value (other than the two price columns) all
    have a median: at least one value is present and the present values
    are finite. *)
Definition medians_defined (df : DataFrame) : Prop :=
  ∀ c s, df_get c df = Some s → c ∉ price_columns → has_missing s = true →
         present (values s) ≠ [] ∧ Forall (λ x, isfinite x = true) (present (values s)).

(** A table with a column that holds no value at all. *)
Definition blank_df : DataFrame := mkDataFrame [0; 1]
  [("far_price", FloatS [num 10; NaN]);
   ("near_price", FloatS [num 10; num 11]);
   ("wap", FloatS [NaN; NaN]);
   ("imbalance_buy_sell_flag", IntS [1; 0]%Z)].

(** ** Statements about the one-hot encoding *)

(** The names the indicator columns end up with: [imbalance_flag_<value>]
    with the value as Python prints it, except that the name
    [imbalance_flag_-1] is replaced by [imbalance_flag_neg_1]. *)
Definition indicator_names `{Numerics} (fs : Series) : list string :=
  match fs with
  | IntS xs =>
      (λ z, if decide (z = (-1)%Z) then "imbalance_flag_neg_1"
            else "imbalance_flag_" +:+ str_int z) <$> int_levels (ints xs)
  | FloatS xs =>
      (λ x, rename_label "imbalance_flag_-1" "imbalance_flag_neg_1"
              ("imbalance_flag_" +:+ float_repr x)) <$> float_levels xs
  end.

(** The indicator of each level: [1] in the rows that hold the level. *)
Definition indicator_series (fs : Series) : list Series :=
  match fs with
  | IntS xs => (λ lv, indicator lv (ints xs)) <$> int_levels (ints xs)
  | FloatS xs => (λ lv, indicator lv xs) <$> float_levels xs
  end.

(** The number of distinct non-missing values of a column. *)
Definition distinct_count (fs : Series) : nat :=
  match fs with
  | IntS xs => length (remove_dups (ints xs))
  | FloatS xs => length (remove_dups (present xs))
  end.

(** The levels are the distinct non-missing values, each once. *)
Definition levels_exact (fs : Series) : Prop :=
  match fs with
  | IntS xs =>
      NoDup (int_levels (ints xs)) ∧ ∀ z, z ∈ int_levels (ints xs) ↔ z ∈ ints xs
  | FloatS xs =>
      NoDup (float_levels xs) ∧
      ∀ x, x ∈ float_levels xs ↔ x ∈ xs ∧ isnan x = false
  end.

(** Two flag values, one of them only in a row with a missing price. *)
Definition partial_df : DataFrame := mkDataFrame [0; 1]
  [("far_price", FloatS [NaN; num 10]);
   ("near_price", FloatS [num 10; num 11]);
   ("imbalance_buy_sell_flag", IntS [(-1); 1]%Z)].

(** ** The outlier filter, in the words of the specification

    For each column in the given order: the mean and the sample standard
    deviation are taken over the rows that are left, and the rows whose
    value lies in the closed band around the mean are kept. *)
Definition in_band (lower_bound upper_bound x : float64) : bool :=
  fge x lower_bound && fle x upper_bound.

Fixpoint trim_rows `{Numerics} (sigma : float64) (cs : list string) (rs : list Row)
    : list Row :=
  match cs with
  | [] => rs
  | c :: cs' =>
      let xs := row_value c <$> rs in
      let lower_bound := fsub (mean xs) (fmul sigma (std xs)) in
      let upper_bound := fadd (mean xs) (fmul sigma (std xs)) in
      trim_rows sigma cs'
        (filter (λ r, in_band lower_bound upper_bound (row_value c r) = true) rs)
  end.

(** The loop of [remove_extreme_values] on table values. *)
Fixpoint trim_df `{Numerics} (sigma : float64) (cs : list string) (df : DataFrame)
    : option DataFrame :=
  match cs with
  | [] => Some df
  | c :: cs' =>
      s ← df_get c df;
      let lower_bound := fsub (series_mean s) (fmul sigma (series_std s)) in
      let upper_bound := fadd (series_mean s) (fmul sigma (series_std s)) in
      trim_df sigma cs' (df_select (band_mask lower_bound upper_bound s) df)
  end.

(** Dates with one missing entry. *)
Definition undated_df : DataFrame := mkDataFrame [0; 1]
  [("date_id", FloatS [num 1; NaN]);
   ("wap", FloatS [num 1; num 1])].

(** Twenty zeros and one outlier. *)
Definition spike_df : DataFrame := mkDataFrame (seq 0 21)
  [("wap", FloatS (replicate 20 (num 0) ++ [num 100]))].

(** Dates 1 to 5. *)
Definition week_df : DataFrame := mkDataFrame [0; 1; 2; 3; 4]
  [("date_id", IntS [1; 2; 3; 4; 5]%Z);
   ("wap", FloatS [num 10; num 11; num 12; num 13; num 14])].


(** ** Rows and indicator counts *)

(** A row without a missing cell. *)
Definition row_complete (r : Row) : bool :=
  forallb (λ kv, negb (isnan kv.2)) r.2.

(** The number of series that hold [1] at row position [i]. *)
Definition hot_count (i : nat) (ss : list Series) : nat :=
  length (filter (λ s, values s !! i = Some (of_int 1)) ss).

(** A finite cell between two bounds. *)
Definition within (lo hi : Qc) (x : float64) : Prop :=
  ∃ q, x = Fin q ∧ (lo ≤ q)%Qc ∧ (q ≤ hi)%Qc.

(** ** The data drawn by the helpers of [utils/data_plotting.py]

    The plotting helpers select data from a table and hand it to
    matplotlib.  The embedding keeps the selection, that is the values
    passed to [ax.hist] or [ax.bar] and the file name passed to
    [plt.savefig]; the rendering (bins, colours, axes) is outside the
    model. *)

(** [data.dropna(subset=cols)]: the rows without a missing value in the
    listed columns; an absent column raises. *)
Definition df_dropna_subset (subset : list string) (df : DataFrame) : option DataFrame :=
  ss ← mapM (λ c, df_get c df) subset;
  Some (df_select
          (foldr (λ s acc, zip_with andb (negb <$> series_isnull s) acc)
                 (replicate (length (index df)) true) ss)
          df).

Definition dropna_subset (X : loc) (subset : list string) : Py loc :=
  df <~ deref X ;;
  out <~ lift (df_dropna_subset subset df) ;;
  alloc out.

(** What [plot_hist] draws: the values passed to [ax.hist] and the file
    the figure is saved to, if any. *)
Record Histogram : Type := mkHistogram {
  hist_values : Series;
  hist_file : option string
}.

(** [ax.hist(x)]: the range of the bins is taken from the smallest and
    the largest value of [x], and numpy raises [ValueError] when that
    range is not finite. *)
Definition ax_hist (x : Series) : Py Series :=
  if forallb isfinite (values x) then ret x else lift None.

(** A value within the closed interval of the limits, as the two
    comparisons of [plot_hist] decide it. *)
Definition within_limits (lims : float64 * float64) (x : float64) : bool :=
  fle x lims.2 && fge x lims.1.

Definition plot_hist (data : loc) (variable : string) (save : bool)
    (lims : float64 * float64) (output_dir : string) : Py Histogram :=
  data' <~ dropna_subset data [variable] ;;
  shown <~ getitem data' variable ;;
  below <~ getitem data' variable ;;
  above <~ getitem data' variable ;;
  let mask := zip_with andb ((λ x, fle x lims.2) <$> values below)
                            ((λ x, fge x lims.1) <$> values above) in
  drawn <~ ax_hist (series_select mask shown) ;;
  ret (mkHistogram drawn
         (if save then Some (output_dir +:+ variable +:+ "_histogram.pdf") else None)).

(** Prices with an infinite and a missing entry. *)
Definition open_df : DataFrame := mkDataFrame [0; 1; 2; 3]
  [("wap", FloatS [num 1; PosInf; NaN; num 3])].

(** [data.isnull().sum()]: the number of missing cells of each column. *)
Definition isnull_sum (df : DataFrame) : list (string * Z) :=
  prod_map id (λ s, Z.of_nat (length (filter (λ b, b = true) (series_isnull s))))
    <$> columns df.

(** The labelled heights [plot_missing_values] passes to [ax.bar]: the
    percentage of missing cells of each column, the columns without a
    positive percentage being left out. *)
Definition missing_percentage (df : DataFrame) : list (string * float64) :=
  let missing_values := isnull_sum df in
  let missing_percentage :=
    prod_map id (λ k, fmul (fdiv (of_int k) (of_nat (length (index df)))) (of_int 100))
      <$> missing_values in
  filter (λ kv, flt (Fin 0%Qc) kv.2 = true) missing_percentage.

(** The number of missing cells of a column. *)
Definition missing_count (s : Series) : nat :=
  length (filter (λ x, isnan x = true) (values s)).

(** The share of [k] cells among [n], in percent. *)
Definition percent (k n : nat) : float64 :=
  Fin (Qc_of_Z (Z.of_nat k) / Qc_of_Z (Z.of_nat n) * Qc_of_Z 100)%Qc.

Record BarChart : Type := mkBarChart {
  bar_labels : list string;
  bar_heights : list float64;
  bar_file : option string
}.

Definition plot_missing_values (data : loc) (save : bool) (output_dir : string)
    : Py BarChart :=
  df <~ deref data ;;
  let missing_percentage := missing_percentage df in
  ret (mkBarChart missing_percentage.*1 missing_percentage.*2
         (if save then Some (output_dir +:+ "missing_values.pdf") else None)).

(** * Properties *)

(** ** Running store programs *)

Lemma bind_run {A B} (m : Py A) (k : A → Py B) h x h' :
  m h = Some (x, h') → bind m k h = k x h'.
Proof. unfold bind. by intros ->. Qed.

Lemma deref_run r h df : h !! r = Some df → deref r h = Some (df, h).
Proof. unfold deref. by intros ->. Qed.

Lemma update_run r f h df :
  h !! r = Some df → update r f h = Some ((), <[r := f df]> h).
Proof. unfold update. by intros ->. Qed.

Lemma getitem_run r c h df :
  h !! r = Some df → getitem r c h = (s ← df_get c df; Some (s, h)).
Proof.
  intros Hr. unfold getitem. rewrite (bind_run _ _ _ _ _ (deref_run _ _ _ Hr)).
  unfold lift. by destruct (df_get c df).
Qed.

Lemma eval_run r e h df :
  h !! r = Some df → eval r e h = (s ← eval_expr df e; Some (s, h)).
Proof.
  intros Hr. unfold eval. rewrite (bind_run _ _ _ _ _ (deref_run _ _ _ Hr)).
  unfold lift. by destruct (eval_expr df e).
Qed.

Lemma setitem_run r c s h df :
  h !! r = Some df → setitem r c s h = Some ((), <[r := df_set c s df]> h).
Proof. apply update_run. Qed.

Lemma copy_run r h df :
  h !! r = Some df → copy r h = Some (fresh (dom h), <[fresh (dom h) := df]> h).
Proof.
  intros Hr. unfold copy. by rewrite (bind_run _ _ _ _ _ (deref_run _ _ _ Hr)).
Qed.

Lemma select_run r mask h df :
  h !! r = Some df →
  select r mask h = Some (fresh (dom h), <[fresh (dom h) := df_select mask df]> h).
Proof.
  intros Hr. unfold select. by rewrite (bind_run _ _ _ _ _ (deref_run _ _ _ Hr)).
Qed.

Lemma fresh_lookup (h : gmap loc DataFrame) : h !! fresh (dom h) = None.
Proof. apply not_elem_of_dom, is_fresh. Qed.

Lemma fresh_ne (h : gmap loc DataFrame) r df : h !! r = Some df → fresh (dom h) ≠ r.
Proof. intros Hr <-. by rewrite fresh_lookup in Hr. Qed.

Lemma lookup_alloc (h : gmap loc DataFrame) l v df :
  h !! l = Some v → <[fresh (dom h) := df]> h !! l = Some v.
Proof. intros Hl. rewrite lookup_insert_ne; [done|]. by eapply fresh_ne. Qed.

(** [feature_engineering] works on a copy: the result is a new object and
    the store is otherwise as before. *)
Lemma feature_engineering_run X h df :
  h !! X = Some df →
  feature_engineering X h =
    (out ← feature_engineering_df df;
     Some (fresh (dom h), <[fresh (dom h) := out]> h)).
Proof.
  intros HX. unfold feature_engineering, feature_engineering_df.
  rewrite (bind_run _ _ _ _ _ (copy_run _ _ _ HX)).
  set (r := fresh (dom h)).
  unfold bind at 1. rewrite (eval_run r _ _ df) by apply lookup_insert_eq.
  destruct (eval_expr df liquidity_imbalance_expr) as [li|]; cbn [mbind option_bind]; [|reflexivity].
  unfold bind at 1. rewrite (setitem_run r _ _ _ df) by apply lookup_insert_eq.
  rewrite insert_insert_eq.
  unfold bind at 1. rewrite (eval_run r _ _ _ (lookup_insert_eq _ _ _)).
  destruct (eval_expr _ matched_imbalance_expr) as [mi|]; cbn [mbind option_bind]; [|reflexivity].
  unfold bind at 1. rewrite (setitem_run r _ _ _ _ (lookup_insert_eq _ _ _)).
  rewrite insert_insert_eq.
  unfold bind at 1. rewrite (getitem_run r _ _ _ (lookup_insert_eq _ _ _)).
  destruct (df_get "ask_price" _) as [ask|]; cbn [mbind option_bind]; [|reflexivity].
  unfold bind at 1. rewrite (getitem_run r _ _ _ (lookup_insert_eq _ _ _)).
  destruct (df_get "bid_price" _) as [bid|]; cbn [mbind option_bind]; [|reflexivity].
  unfold bind at 1. rewrite (setitem_run r _ _ _ _ (lookup_insert_eq _ _ _)).
  rewrite insert_insert_eq.
  unfold bind at 1. rewrite (getitem_run r _ _ _ (lookup_insert_eq _ _ _)).
  destruct (df_get "price_spread" _) as [ps|]; cbn [mbind option_bind]; [|reflexivity].
  unfold bind at 1. rewrite (getitem_run r _ _ _ (lookup_insert_eq _ _ _)).
  destruct (df_get "liquidity_imbalance" _) as [li'|]; cbn [mbind option_bind]; [|reflexivity].
  unfold bind at 1. rewrite (setitem_run r _ _ _ _ (lookup_insert_eq _ _ _)).
  rewrite insert_insert_eq.
  unfold bind at 1. unfold fillna_inplace.
  rewrite (update_run r _ _ _ (lookup_insert_eq _ _ _)).
  rewrite insert_insert_eq. reflexivity.
Qed.

(** ** Columns and cells *)

Lemma lookup_assign_eq c s cols : lookup_col c (assign_col c s cols) = Some s.
Proof.
  induction cols as [|[k v] cols IH]; simpl.
  - by rewrite decide_True.
  - destruct (decide (k = c)) as [->|Hne]; simpl.
    + by rewrite decide_True.
    + by rewrite decide_False.
Qed.

Lemma lookup_assign_ne c c' s cols :
  c ≠ c' → lookup_col c' (assign_col c s cols) = lookup_col c' cols.
Proof.
  intros Hne. induction cols as [|[k v] cols IH]; simpl.
  - by rewrite decide_False.
  - destruct (decide (k = c)) as [->|Hk]; simpl.
    + by rewrite !decide_False.
    + destruct (decide (k = c')); [done|apply IH].
Qed.

Lemma df_get_set_eq c s df : df_get c (df_set c s df) = Some s.
Proof. apply lookup_assign_eq. Qed.

Lemma df_get_set_ne c c' s df : c ≠ c' → df_get c' (df_set c s df) = df_get c' df.
Proof. apply lookup_assign_ne. Qed.

Lemma lookup_col_fmap {A B} (f : A → B) c (cols : list (string * A)) :
  lookup_col c (prod_map id f <$> cols) = f <$> lookup_col c cols.
Proof.
  induction cols as [|[k v] cols IH]; simpl; [done|].
  destruct (decide (k = c)); [done|apply IH].
Qed.

Lemma df_get_fillna v c df :
  df_get c (df_fillna v df) = series_fillna v <$> df_get c df.
Proof. apply lookup_col_fmap. Qed.

Lemma values_fillna v s : values (series_fillna v s) = fill v <$> values s.
Proof.
  destruct s as [xs|xs]; simpl; [|done].
  rewrite <-list_fmap_compose. by apply list_fmap_ext.
Qed.

Lemma of_int_sub x y : of_int (x - y) = fsub (of_int x) (of_int y).
Proof. unfold of_int; simpl. by rewrite Z2Qc_inj_sub. Qed.

Lemma of_int_add x y : of_int (x + y) = fadd (of_int x) (of_int y).
Proof. unfold of_int; simpl. by rewrite Z2Qc_inj_add. Qed.


Lemma cell_fillna v df c i : cell (df_fillna v df) c i = fill v <$> cell df c i.
Proof.
  unfold cell. rewrite df_get_fillna. destruct (df_get c df) as [s|]; simpl; [|done].
  by rewrite values_fillna, list_lookup_fmap.
Qed.

Lemma cell_set_eq c s df i : cell (df_set c s df) c i = values s !! i.
Proof. unfold cell. by rewrite df_get_set_eq. Qed.

Lemma cell_set_ne c c' s df i : c ≠ c' → cell (df_set c s df) c' i = cell df c' i.
Proof. intros Hne. unfold cell. by rewrite df_get_set_ne. Qed.

(** ** Wrap-around *)

Lemma wrap_range z : (- 2 ^ 63 ≤ wrap z < 2 ^ 63)%Z.
Proof.
  unfold wrap. pose proof (Z.mod_pos_bound (z + 2 ^ 63) (2 ^ 64)). lia.
Qed.

Lemma wrap_exact z : (- 2 ^ 63 ≤ z < 2 ^ 63)%Z → wrap z = z.
Proof. intros Hz. unfold wrap. rewrite Z.mod_small; lia. Qed.

Lemma wrap_wrap z : wrap (wrap z) = wrap z.
Proof. apply wrap_exact, wrap_range. Qed.

Lemma wrap_above z : (2 ^ 63 ≤ z < 2 ^ 64)%Z → wrap z = (z - 2 ^ 64)%Z.
Proof.
  intros Hz. unfold wrap.
  replace (z + 2 ^ 63)%Z with (z - 2 ^ 63 + 1 * 2 ^ 64)%Z by lia.
  rewrite Z_mod_plus_full, Z.mod_small; lia.
Qed.

(** ** Cells with their dtype *)

Lemma values_item s i : values s !! i = as_float <$> item s i.
Proof.
  destruct s as [xs|xs]; cbn [values item]; rewrite ?list_lookup_fmap;
    by destruct (_ !! i).
Qed.

Lemma cell_typed df c i : cell df c i = as_float <$> typed_cell df c i.
Proof.
  unfold cell, typed_cell. destruct (df_get c df) as [s|]; [|done].
  apply values_item.
Qed.

Lemma cell_typed_inv df c i x :
  cell df c i = Some x → ∃ u, typed_cell df c i = Some u ∧ as_float u = x.
Proof.
  rewrite cell_typed. destruct (typed_cell df c i) as [u|]; [|done].
  intros [= <-]. by exists u.
Qed.

Lemma item_in_int64 s i u : item s i = Some u → in_int64 u.
Proof.
  destruct s as [xs|xs]; cbn [item]; unfold ints; rewrite ?list_lookup_fmap.
  - destruct (xs !! i); [|done]. intros [= <-]. apply wrap_range.
  - destruct (xs !! i); [|done]. by intros [= <-].
Qed.

Lemma typed_cell_in_int64 df c i u : typed_cell df c i = Some u → in_int64 u.
Proof.
  unfold typed_cell. destruct (df_get c df) as [s|]; [|done]. apply item_in_int64.
Qed.

Lemma item_int_op (f : Z → Z → Z) xs ys i :
  item (IntS (zip_with (λ x y, wrap (f x y)) (ints xs) (ints ys))) i =
    (u ← item (IntS xs) i; v ← item (IntS ys) i;
     Some (IntV (wrap (f (wrap (default 0%Z (xs !! i))) (wrap (default 0%Z (ys !! i))))))).
Proof.
  cbn [item]. unfold ints. rewrite !list_lookup_fmap, lookup_zip_with, !list_lookup_fmap.
  destruct (xs !! i), (ys !! i); try done. simpl. by rewrite wrap_wrap.
Qed.

Lemma item_sub a b i :
  item (series_sub a b) i = (u ← item a i; v ← item b i; Some (ssub u v)).
Proof.
  destruct a as [xs|xs], b as [ys|ys]; cbn [series_sub];
    [rewrite item_int_op; cbn [item]; unfold ints; rewrite !list_lookup_fmap;
     by destruct (xs !! i), (ys !! i)|..];
    cbn [item]; rewrite lookup_zip_with, !values_item; cbn [item];
    by destruct (_ !! i), (_ !! i).
Qed.

Lemma item_add a b i :
  item (series_add a b) i = (u ← item a i; v ← item b i; Some (sadd u v)).
Proof.
  destruct a as [xs|xs], b as [ys|ys]; cbn [series_add];
    [rewrite item_int_op; cbn [item]; unfold ints; rewrite !list_lookup_fmap;
     by destruct (xs !! i), (ys !! i)|..];
    cbn [item]; rewrite lookup_zip_with, !values_item; cbn [item];
    by destruct (_ !! i), (_ !! i).
Qed.

Lemma item_mul a b i :
  item (series_mul a b) i = (u ← item a i; v ← item b i; Some (smul u v)).
Proof.
  destruct a as [xs|xs], b as [ys|ys]; cbn [series_mul];
    [rewrite item_int_op; cbn [item]; unfold ints; rewrite !list_lookup_fmap;
     by destruct (xs !! i), (ys !! i)|..];
    cbn [item]; rewrite lookup_zip_with, !values_item; cbn [item];
    by destruct (_ !! i), (_ !! i).
Qed.

Lemma item_div a b i :
  item (series_div a b) i = (u ← item a i; v ← item b i; Some (sdiv u v)).
Proof.
  unfold series_div. cbn [item]. rewrite lookup_zip_with, !values_item.
  by destruct (item a i), (item b i).
Qed.

Lemma item_fillna w s i : item (series_fillna w s) i = sfill w <$> item s i.
Proof.
  destruct s as [xs|xs]; cbn [series_fillna item]; rewrite ?list_lookup_fmap;
    by destruct (_ !! i).
Qed.

Lemma as_float_sfill w u : as_float (sfill w u) = fill w (as_float u).
Proof. by destruct u. Qed.

Lemma typed_cell_fillna w df c i :
  typed_cell (df_fillna w df) c i = sfill w <$> typed_cell df c i.
Proof.
  unfold typed_cell. rewrite df_get_fillna. destruct (df_get c df) as [s|]; [|done].
  apply item_fillna.
Qed.

Lemma typed_cell_set_eq c s df i : typed_cell (df_set c s df) c i = item s i.
Proof. unfold typed_cell. by rewrite df_get_set_eq. Qed.

Lemma typed_cell_set_ne c c' s df i :
  c ≠ c' → typed_cell (df_set c s df) c' i = typed_cell df c' i.
Proof. intros Hne. unfold typed_cell. by rewrite df_get_set_ne. Qed.

(** Without wrap-around the operations on typed cells are those on
    their float readings. *)
Lemma as_float_ssub u v :
  exact_sub u v → as_float (ssub u v) = fsub (as_float u) (as_float v).
Proof.
  destruct u as [x|x], v as [y|y]; try done. intros Hex. cbn [ssub as_float].
  by rewrite wrap_exact, of_int_sub by by apply Hex.
Qed.

Lemma as_float_sadd u v :
  exact_add u v → as_float (sadd u v) = fadd (as_float u) (as_float v).
Proof.
  destruct u as [x|x], v as [y|y]; try done. intros Hex. cbn [sadd as_float].
  by rewrite wrap_exact, of_int_add by by apply Hex.
Qed.

(** ** [feature_engineering]: the derived columns cell by cell *)

Lemma feature_engineering_df_eq df :
  feature_engineering_df df =
    (B ← df_get "bid_size" df; A ← df_get "ask_size" df;
     I ← df_get "imbalance_size" df; M ← df_get "matched_size" df;
     P ← df_get "ask_price" df; Q ← df_get "bid_price" df;
     Some (df_fillna (Fin 0%Qc) (engineered df B A I M P Q))).
Proof.
  unfold feature_engineering_df, engineered.
  unfold liquidity_imbalance_expr, matched_imbalance_expr. cbn [eval_expr].
  destruct (df_get "bid_size" df) as [B|]; cbn [mbind option_bind]; [|done].
  destruct (df_get "ask_size" df) as [A|]; cbn [mbind option_bind]; [|done].
  rewrite !(df_get_set_ne "liquidity_imbalance") by done.
  destruct (df_get "imbalance_size" df) as [I|]; cbn [mbind option_bind]; [|done].
  destruct (df_get "matched_size" df) as [M|]; cbn [mbind option_bind]; [|done].
  rewrite !(df_get_set_ne "matched_imbalance") by done.
  rewrite !(df_get_set_ne "liquidity_imbalance") by done.
  destruct (df_get "ask_price" df) as [P|]; cbn [mbind option_bind]; [|done].
  destruct (df_get "bid_price" df) as [Q|]; cbn [mbind option_bind]; [|done].
  rewrite df_get_set_eq. cbn [mbind option_bind].
  rewrite (df_get_set_ne "price_spread") by done.
  rewrite (df_get_set_ne "matched_imbalance") by done.
  rewrite df_get_set_eq. done.
Qed.

Lemma feature_engineering_df_inv df out :
  feature_engineering_df df = Some out →
  ∃ B A I M P Q,
    df_get "bid_size" df = Some B ∧ df_get "ask_size" df = Some A ∧
    df_get "imbalance_size" df = Some I ∧ df_get "matched_size" df = Some M ∧
    df_get "ask_price" df = Some P ∧ df_get "bid_price" df = Some Q ∧
    out = df_fillna (Fin 0%Qc) (engineered df B A I M P Q).
Proof.
  rewrite feature_engineering_df_eq. intros H.
  destruct (df_get "bid_size" df) as [B|]; [|done].
  destruct (df_get "ask_size" df) as [A|]; [|done].
  destruct (df_get "imbalance_size" df) as [I|]; [|done].
  destruct (df_get "matched_size" df) as [M|]; [|done].
  destruct (df_get "ask_price" df) as [P|]; [|done].
  destruct (df_get "bid_price" df) as [Q|]; [|done].
  exists B, A, I, M, P, Q. by simplify_eq/=.
Qed.

Lemma feature_engineering_df_total df :
  has_columns base_columns df → is_Some (feature_engineering_df df).
Proof.
  unfold has_columns, base_columns. intros H.
  repeat match goal with
         | H : Forall _ (_ :: _) |- _ => inversion_clear H
         | H : is_Some _ |- _ => destruct H
         end.
  rewrite feature_engineering_df_eq. simplify_option_eq. by eexists.
Qed.

Lemma feature_engineering_total X h df :
  h !! X = Some df → has_columns base_columns df →
  ∃ out, feature_engineering_df df = Some out ∧
         feature_engineering X h = Some (fresh (dom h), <[fresh (dom h) := out]> h).
Proof.
  intros HX [out Hout]%feature_engineering_df_total. exists out. split; [done|].
  by rewrite (feature_engineering_run _ _ _ HX), Hout.
Qed.

Lemma fadd_comm x y : fadd x y = fadd y x.
Proof. destruct x, y; simpl; try done. by rewrite Qcplus_comm. Qed.

Lemma sadd_comm u v : sadd u v = sadd v u.
Proof.
  destruct u as [x|x], v as [y|y]; cbn [sadd as_float]; f_equal;
    try apply fadd_comm. by rewrite Z.add_comm.
Qed.

Section engineered_cells.
Context (df out : DataFrame) (Hout : feature_engineering_df df = Some out).

Lemma typed_liquidity_imbalance i :
  typed_cell out "liquidity_imbalance" i =
    (b ← typed_cell df "bid_size" i; a ← typed_cell df "ask_size" i;
     Some (sfill (Fin 0%Qc) (sdiv (ssub b a) (sadd b a)))).
Proof.
  destruct (feature_engineering_df_inv _ _ Hout)
    as (B & A & I & M & P & Q & HB & HA & HI & HM & HP & HQ & ->).
  rewrite typed_cell_fillna. unfold engineered.
  rewrite !typed_cell_set_ne, typed_cell_set_eq by done.
  unfold typed_cell. rewrite HB, HA. cbn [mbind option_bind].
  rewrite item_div, item_sub, item_add.
  by destruct (item B i), (item A i).
Qed.

Lemma typed_matched_imbalance i :
  typed_cell out "matched_imbalance" i =
    (m ← typed_cell df "imbalance_size" i; s ← typed_cell df "matched_size" i;
     Some (sfill (Fin 0%Qc) (sdiv (ssub m s) (sadd m s)))).
Proof.
  destruct (feature_engineering_df_inv _ _ Hout)
    as (B & A & I & M & P & Q & HB & HA & HI & HM & HP & HQ & ->).
  rewrite typed_cell_fillna. unfold engineered.
  rewrite !typed_cell_set_ne, typed_cell_set_eq by done.
  unfold typed_cell. rewrite HI, HM. cbn [mbind option_bind].
  rewrite item_div, item_sub, item_add.
  destruct (item I i) as [m|], (item M i) as [s|]; try done.
  cbn [mbind option_bind fmap option_fmap option_map]. by rewrite (sadd_comm s m).
Qed.

Lemma typed_price_spread i :
  typed_cell out "price_spread" i =
    (p ← typed_cell df "ask_price" i; q ← typed_cell df "bid_price" i;
     Some (sfill (Fin 0%Qc) (ssub p q))).
Proof.
  destruct (feature_engineering_df_inv _ _ Hout)
    as (B & A & I & M & P & Q & HB & HA & HI & HM & HP & HQ & ->).
  rewrite typed_cell_fillna. unfold engineered.
  rewrite !typed_cell_set_ne, typed_cell_set_eq by done.
  unfold typed_cell. rewrite HP, HQ. cbn [mbind option_bind].
  rewrite item_sub. by destruct (item P i), (item Q i).
Qed.

Lemma typed_market_urgency i :
  typed_cell out "market_urgency" i =
    (p ← typed_cell df "ask_price" i; q ← typed_cell df "bid_price" i;
     b ← typed_cell df "bid_size" i; a ← typed_cell df "ask_size" i;
     Some (sfill (Fin 0%Qc) (smul (ssub p q) (sdiv (ssub b a) (sadd b a))))).
Proof.
  destruct (feature_engineering_df_inv _ _ Hout)
    as (B & A & I & M & P & Q & HB & HA & HI & HM & HP & HQ & ->).
  rewrite typed_cell_fillna. unfold engineered.
  rewrite typed_cell_set_eq.
  unfold typed_cell. rewrite HP, HQ, HB, HA. cbn [mbind option_bind].
  rewrite item_mul, item_sub, item_div, item_sub, item_add.
  by destruct (item P i), (item Q i), (item B i), (item A i).
Qed.

Lemma typed_other_column c i :
  c ∉ derived_columns →
  typed_cell out c i = sfill (Fin 0%Qc) <$> typed_cell df c i.
Proof.
  intros Hc.
  destruct (feature_engineering_df_inv _ _ Hout)
    as (B & A & I & M & P & Q & HB & HA & HI & HM & HP & HQ & ->).
  rewrite typed_cell_fillna. unfold engineered.
  unfold derived_columns in Hc. rewrite !not_elem_of_cons in Hc.
  destruct Hc as (? & ? & ? & ? & _).
  by rewrite !typed_cell_set_ne by done.
Qed.

(** The same, read as floats. *)
Lemma cell_liquidity_imbalance i :
  cell out "liquidity_imbalance" i =
    (b ← typed_cell df "bid_size" i; a ← typed_cell df "ask_size" i;
     Some (fill (Fin 0%Qc) (typed_ratio b a))).
Proof.
  rewrite cell_typed, typed_liquidity_imbalance.
  by destruct (typed_cell df "bid_size" i), (typed_cell df "ask_size" i).
Qed.

Lemma cell_matched_imbalance i :
  cell out "matched_imbalance" i =
    (m ← typed_cell df "imbalance_size" i; s ← typed_cell df "matched_size" i;
     Some (fill (Fin 0%Qc) (typed_ratio m s))).
Proof.
  rewrite cell_typed, typed_matched_imbalance.
  by destruct (typed_cell df "imbalance_size" i), (typed_cell df "matched_size" i).
Qed.

Lemma cell_price_spread i :
  cell out "price_spread" i =
    (p ← typed_cell df "ask_price" i; q ← typed_cell df "bid_price" i;
     Some (fill (Fin 0%Qc) (as_float (ssub p q)))).
Proof.
  rewrite cell_typed, typed_price_spread.
  destruct (typed_cell df "ask_price" i), (typed_cell df "bid_price" i); try done.
  cbn [mbind option_bind fmap option_fmap option_map]. by rewrite as_float_sfill.
Qed.

Lemma cell_market_urgency i :
  cell out "market_urgency" i =
    (p ← typed_cell df "ask_price" i; q ← typed_cell df "bid_price" i;
     b ← typed_cell df "bid_size" i; a ← typed_cell df "ask_size" i;
     Some (fill (Fin 0%Qc) (fmul (as_float (ssub p q)) (typed_ratio b a)))).
Proof.
  rewrite cell_typed, typed_market_urgency.
  destruct (typed_cell df "ask_price" i), (typed_cell df "bid_price" i),
    (typed_cell df "bid_size" i), (typed_cell df "ask_size" i); try done.
  cbn [mbind option_bind fmap option_fmap option_map]. rewrite as_float_sfill.
  by destruct (ssub _ _).
Qed.

Lemma cell_other_column c i :
  c ∉ derived_columns → cell out c i = fill (Fin 0%Qc) <$> cell df c i.
Proof.
  intros Hc.
  destruct (feature_engineering_df_inv _ _ Hout)
    as (B & A & I & M & P & Q & HB & HA & HI & HM & HP & HQ & ->).
  rewrite cell_fillna. unfold engineered.
  unfold derived_columns in Hc. rewrite !not_elem_of_cons in Hc.
  destruct Hc as (? & ? & ? & ? & _).
  by rewrite !cell_set_ne by done.
Qed.

Lemma cell_not_missing c i v : cell out c i = Some v → isnan v = false.
Proof.
  destruct (feature_engineering_df_inv _ _ Hout)
    as (B & A & I & M & P & Q & HB & HA & HI & HM & HP & HQ & ->).
  rewrite cell_fillna. intros Hv.
  destruct (cell _ c i) as [x|]; simplify_eq/=. by destruct x.
Qed.
End engineered_cells.

(** ** Arithmetic of the ratio *)

Lemma Qc_sub_le_add (p q : Qc) : (0 ≤ q)%Qc → (p - q ≤ p + q)%Qc.
Proof.
  intros Hq. apply Qcle_minus_iff.
  replace (p + q + - (p - q))%Qc with (q + q)%Qc by ring.
  by apply Qcplus_nonneg_nonneg.
Qed.

Lemma Qc_neg_add_le_sub (p q : Qc) : (0 ≤ p)%Qc → (- (1) * (p + q) ≤ p - q)%Qc.
Proof.
  intros Hp. apply Qcle_minus_iff.
  replace (p - q + - (- (1) * (p + q)))%Qc with (p + p)%Qc by ring.
  by apply Qcplus_nonneg_nonneg.
Qed.

(** A quotient whose numerator is no larger than its positive
    denominator. *)
Lemma Qc_unit_quotient (n d : Qc) :
  (0 < d)%Qc → (- d ≤ n)%Qc → (n ≤ d)%Qc →
  (- (1) ≤ n / d)%Qc ∧ (n / d ≤ 1)%Qc.
Proof.
  intros Hd Hlo Hhi.
  assert (d ≠ 0%Qc) as Hd' by (intros ->; by apply Qclt_not_eq in Hd).
  split; apply (Qcmult_le_mono_pos_r _ _ d Hd); rewrite test_field by done.
  - by replace (- (1) * d)%Qc with (- d)%Qc by ring.
  - by rewrite Qcmult_1_l.
Qed.

Lemma Qc_ratio_bounds (p q : Qc) :
  (0 ≤ p)%Qc → (0 ≤ q)%Qc → (p + q)%Qc ≠ 0%Qc →
  (- (1) ≤ (p - q) / (p + q))%Qc ∧ ((p - q) / (p + q) ≤ 1)%Qc.
Proof.
  intros Hp Hq Hd.
  assert (0 < p + q)%Qc as Hpos.
  { destruct (Qcle_lt_or_eq 0 (p + q)) as [?|Heq]; [|done|by destruct Hd].
    by apply Qcplus_nonneg_nonneg. }
  apply Qc_unit_quotient; [done| |by apply Qc_sub_le_add].
  replace (- (p + q))%Qc with (- (1) * (p + q))%Qc by ring.
  by apply Qc_neg_add_le_sub.
Qed.

Lemma Qc_nonneg_sum_zero (p q : Qc) :
  (0 ≤ p)%Qc → (0 ≤ q)%Qc → (p + q)%Qc = 0%Qc → p = 0%Qc ∧ q = 0%Qc.
Proof.
  intros Hp Hq Hs.
  destruct (Qcle_lt_or_eq _ _ Hp) as [Hp'|<-].
  - pose proof (Qcplus_pos_nonneg _ _ Hp' Hq) as Hpos.
    rewrite Hs in Hpos. by apply Qclt_not_eq in Hpos.
  - split; [done|]. by rewrite Qcplus_0_l in Hs.
Qed.

Lemma ratio_finite p q :
  (p + q)%Qc ≠ 0%Qc → ratio (Fin p) (Fin q) = Fin ((p - q) / (p + q))%Qc.
Proof. intros Hpq. unfold ratio. simpl. by rewrite decide_False. Qed.



(** Closed goals over decidable statements are settled by evaluation. *)
Ltac by_evaluation := apply (bool_decide_unpack _); vm_compute; exact I.

Lemma typed_ratio_exact u v :
  exact_sub u v → exact_add u v → typed_ratio u v = ratio (as_float u) (as_float v).
Proof.
  intros Hs Ha. unfold typed_ratio, ratio. by rewrite as_float_ssub, as_float_sadd.
Qed.


Lemma Qc_of_Z_nonzero z : z ≠ 0%Z → Qc_of_Z z ≠ 0%Qc.
Proof. intros Hz Heq. apply Hz. rewrite <-Z2Qc_inj_0 in Heq. by apply Z2Qc_inj. Qed.

(** Two [int64] cells that are not negative and whose sum does not fit. *)
Lemma typed_ratio_wrapped x y :
  (- 2 ^ 63 ≤ x < 2 ^ 63)%Z → (- 2 ^ 63 ≤ y < 2 ^ 63)%Z →
  (0 ≤ x)%Z → (0 ≤ y)%Z → (2 ^ 63 ≤ x + y)%Z →
  typed_ratio (IntV x) (IntV y) =
    Fin (Qc_of_Z (x - y) / Qc_of_Z (x + y - 2 ^ 64))%Qc.
Proof.
  intros Hx Hy Hx0 Hy0 Hsum. unfold typed_ratio. cbn [ssub sadd as_float].
  rewrite (wrap_exact (x - y)) by lia. rewrite (wrap_above (x + y)) by lia.
  unfold of_int. cbn [fdiv]. rewrite decide_False; [done|].
  apply Qc_of_Z_nonzero. lia.
Qed.


(** ** [feature_engineering]: the two imbalance ratios *)




(** ** [feature_engineering]: consistency of [market_urgency] *)

Lemma fill_fmul x y :
  isnan (fmul (fill (Fin 0%Qc) x) (fill (Fin 0%Qc) y)) = false →
  fill (Fin 0%Qc) (fmul x y) = fmul (fill (Fin 0%Qc) x) (fill (Fin 0%Qc) y).
Proof.
  destruct x as [| |p|], y as [| |p'|];
    cbn [fill fmul isnan]; try done; intros Hdef; f_equal; try ring;
    by destruct (_ ?= _)%Qc.
Qed.

Lemma fsub_regular x y : regular x → regular y → regular (fsub x y).
Proof.
  intros [->|[p ->]] [->|[p' ->]]; simpl; unfold regular; eauto.
Qed.

Lemma fill_regular_finite x : regular x → isfinite (fill (Fin 0%Qc) x) = true.
Proof. by intros [->|[p ->]]. Qed.

Lemma ssub_regular u v :
  regular (as_float u) → regular (as_float v) → regular (as_float (ssub u v)).
Proof.
  destruct u as [x|x], v as [y|y]; cbn [ssub as_float]; intros Hu Hv;
    try (by apply fsub_regular).
  right. by eexists.
Qed.

Lemma ratio_bounded x y :
  regular_size x → regular_size y →
  ∃ v, fill (Fin 0%Qc) (ratio x y) = Fin v ∧ (- (1) ≤ v)%Qc ∧ (v ≤ 1)%Qc.
Proof.
  assert ((- (1) ≤ 0)%Qc ∧ (0 ≤ 1)%Qc) as Hzero by by_evaluation.
  intros [->|(p & -> & Hp)] [->|(q & -> & Hq)];
    try (exists 0%Qc; split; [reflexivity|exact Hzero]).
  destruct (decide ((p + q)%Qc = 0%Qc)) as [Hs|Hs].
  - destruct (Qc_nonneg_sum_zero p q Hp Hq Hs) as [-> ->].
    exists 0%Qc. split; [by_evaluation|exact Hzero].
  - exists ((p - q) / (p + q))%Qc. rewrite ratio_finite by done.
    split; [done|]. by apply Qc_ratio_bounds.
Qed.

Lemma regular_size_int z : regular_size (of_int z) → (0 ≤ z)%Z.
Proof.
  intros [Hnan|(p & [= <-] & Hp)]; [done|].
  rewrite <-Z2Qc_inj_0 in Hp. by apply Z2Qc_inj_le in Hp.
Qed.

(** The ratio of two sizes that are missing or not negative lies between
    [-1] and [1], also when the sum of two [int64] sizes wraps around. *)
Lemma typed_ratio_bounded u v :
  in_int64 u → in_int64 v →
  regular_size (as_float u) → regular_size (as_float v) →
  ∃ q, fill (Fin 0%Qc) (typed_ratio u v) = Fin q ∧ (- (1) ≤ q)%Qc ∧ (q ≤ 1)%Qc.
Proof.
  intros Hu Hv Ru Rv.
  assert (∀ u' v', (∀ x y, u' = IntV x → v' = IntV y → False) →
            exact_sub u' v' ∧ exact_add u' v') as Hfloat.
  { intros u' v' Hno. split; intros x y -> ->; by destruct (Hno x y). }
  destruct u as [x|x], v as [y|y];
    try match goal with
        | |- context [typed_ratio ?a ?b] =>
            destruct (Hfloat a b) as [Hs Ha];
              [intros ?? H1 H2; (discriminate H1 || discriminate H2)|];
            rewrite typed_ratio_exact by done; by apply ratio_bounded
        end.
  cbn [in_int64 as_float] in *.
  pose proof (regular_size_int _ Ru) as Hx. pose proof (regular_size_int _ Rv) as Hy.
  destruct (decide (x + y < 2 ^ 63)%Z) as [Hfit|Hwrap].
  - rewrite typed_ratio_exact; [by apply ratio_bounded| |];
      intros ?? [= <-] [= <-]; lia.
  - rewrite typed_ratio_wrapped by lia. eexists. split; [done|].
    assert (Qc_of_Z (x + y - 2 ^ 64) ≠ 0%Qc) as Hd by (apply Qc_of_Z_nonzero; lia).
    replace (Qc_of_Z (x - y) / Qc_of_Z (x + y - 2 ^ 64))%Qc
      with (Qc_of_Z (y - x) / Qc_of_Z (2 ^ 64 - (x + y)))%Qc.
    + apply Qc_unit_quotient.
      * rewrite <-Z2Qc_inj_0. apply (proj1 (Z2Qc_inj_lt _ _)). lia.
      * rewrite <-Z2Qc_inj_opp. apply (proj1 (Z2Qc_inj_le _ _)). lia.
      * apply (proj1 (Z2Qc_inj_le _ _)). lia.
    + replace (y - x)%Z with (- (x - y))%Z by lia.
      replace (2 ^ 64 - (x + y))%Z with (- (x + y - 2 ^ 64))%Z by lia.
      rewrite !Z2Qc_inj_opp. field. split; [done|].
      intros Heq. apply Hd. rewrite <-(Qcopp_involutive (Qc_of_Z _)), Heq. ring.
Qed.

(** C7 (as amended).  After [feature_engineering], every row satisfies
    [market_urgency = price_spread * liquidity_imbalance] whenever that
    product is defined, rows whose ratio was undefined and resolved to [0]
    included; the product is defined, and both factors are finite, in
    every row whose prices are finite or missing and whose sizes are
    missing or finite and not negative; [price_spread] is
    [ask_price - bid_price] taken in the type of the price columns, with
    [0] in place of an undefined difference: for two [int64] prices it is
    their difference modulo [2^64], and it is the difference itself
    whenever that fits the type. *)
Theorem market_urgency_consistent h X df :
  h !! X = Some df → has_columns base_columns df →
  ∃ r h' out,
    feature_engineering X h = Some (r, h') ∧ h' !! r = Some out ∧
    (∀ i p l,
       cell out "price_spread" i = Some p →
       cell out "liquidity_imbalance" i = Some l →
       isnan (fmul p l) = false →
       cell out "market_urgency" i = Some (fmul p l)) ∧
    (∀ i pa pb b a,
       cell df "ask_price" i = Some pa → cell df "bid_price" i = Some pb →
       cell df "bid_size" i = Some b → cell df "ask_size" i = Some a →
       regular pa → regular pb → regular_size b → regular_size a →
       ∃ p l, cell out "price_spread" i = Some p ∧
              cell out "liquidity_imbalance" i = Some l ∧
              isfinite p = true ∧ isfinite l = true ∧
              cell out "market_urgency" i = Some (fmul p l)) ∧
    (∀ i pa pb,
       typed_cell df "ask_price" i = Some pa → typed_cell df "bid_price" i = Some pb →
       exact_sub pa pb →
       cell out "price_spread" i =
         Some (fill (Fin 0%Qc) (fsub (as_float pa) (as_float pb)))) ∧
    (∀ i x y,
       typed_cell df "ask_price" i = Some (IntV x) →
       typed_cell df "bid_price" i = Some (IntV y) →
       cell out "price_spread" i = Some (of_int (wrap (x - y)))).
Proof.
  intros HX Hcols.
  destruct (feature_engineering_total _ _ _ HX Hcols) as (out & Hout & Hrun).
  eexists _, _, out. split; [exact Hrun|]. split; [apply lookup_insert_eq|].
  assert (∀ i p l,
    cell out "price_spread" i = Some p →
    cell out "liquidity_imbalance" i = Some l →
    isnan (fmul p l) = false →
    cell out "market_urgency" i = Some (fmul p l)) as Hproduct.
  { intros i p l.
    rewrite (cell_price_spread _ _ Hout), (cell_liquidity_imbalance _ _ Hout),
      (cell_market_urgency _ _ Hout).
    destruct (typed_cell df "ask_price" i) as [pa|]; [|done].
    destruct (typed_cell df "bid_price" i) as [pb|]; [|done].
    destruct (typed_cell df "bid_size" i) as [b|]; [|done].
    destruct (typed_cell df "ask_size" i) as [a|]; [|done].
    simpl. intros [= <-] [= <-] Hdef. by rewrite fill_fmul. }
  split; [exact Hproduct|]. split; [|split].
  - intros i pa pb b a Hpa Hpb Hb Ha Rpa Rpb Rb Ra.
    destruct (cell_typed_inv _ _ _ _ Hpa) as (upa & Tpa & <-).
    destruct (cell_typed_inv _ _ _ _ Hpb) as (upb & Tpb & <-).
    destruct (cell_typed_inv _ _ _ _ Hb) as (ub & Tb & <-).
    destruct (cell_typed_inv _ _ _ _ Ha) as (ua & Ta & <-).
    destruct (typed_ratio_bounded ub ua) as (q & Hq & _);
      [by eapply typed_cell_in_int64..|done|done|].
    assert (isfinite (fill (Fin 0%Qc) (as_float (ssub upa upb))) = true) as Hfin.
    { apply fill_regular_finite. by apply ssub_regular. }
    assert (cell out "price_spread" i = Some (fill (Fin 0%Qc) (as_float (ssub upa upb))))
      as Hps by (by rewrite (cell_price_spread _ _ Hout), Tpa, Tpb).
    assert (cell out "liquidity_imbalance" i = Some (Fin q)) as Hli
      by (by rewrite (cell_liquidity_imbalance _ _ Hout), Tb, Ta; simpl; rewrite Hq).
    eexists _, _. split; [exact Hps|]. split; [exact Hli|].
    split; [exact Hfin|]. split; [done|].
    apply Hproduct; [done..|].
    by destruct (fill _ (as_float (ssub upa upb))).
  - intros i pa pb Hpa Hpb Hex.
    by rewrite (cell_price_spread _ _ Hout), Hpa, Hpb; simpl; rewrite as_float_ssub.
  - intros i x y Hx Hy.
    by rewrite (cell_price_spread _ _ Hout), Hx, Hy.
Qed.

Lemma market_urgency_consistent_witness :
  ∃ r h' out,
    feature_engineering 0 {[0 := book_df]} = Some (r, h') ∧ h' !! r = Some out ∧
    (∀ i p l,
       cell out "price_spread" i = Some p →
       cell out "liquidity_imbalance" i = Some l →
       isnan (fmul p l) = false →
       cell out "market_urgency" i = Some (fmul p l)) ∧
    (∀ i pa pb b a,
       cell book_df "ask_price" i = Some pa → cell book_df "bid_price" i = Some pb →
       cell book_df "bid_size" i = Some b → cell book_df "ask_size" i = Some a →
       regular pa → regular pb → regular_size b → regular_size a →
       ∃ p l, cell out "price_spread" i = Some p ∧
              cell out "liquidity_imbalance" i = Some l ∧
              isfinite p = true ∧ isfinite l = true ∧
              cell out "market_urgency" i = Some (fmul p l)) ∧
    (∀ i pa pb,
       typed_cell book_df "ask_price" i = Some pa →
       typed_cell book_df "bid_price" i = Some pb →
       exact_sub pa pb →
       cell out "price_spread" i =
         Some (fill (Fin 0%Qc) (fsub (as_float pa) (as_float pb)))) ∧
    (∀ i x y,
       typed_cell book_df "ask_price" i = Some (IntV x) →
       typed_cell book_df "bid_price" i = Some (IntV y) →
       cell out "price_spread" i = Some (of_int (wrap (x - y)))).
Proof.
  apply (market_urgency_consistent {[0 := book_df]} 0 book_df).
  - reflexivity.
  - by_evaluation.
Defined.

(** C7 as stated fails.  The only row of [wide_df] holds the [int64]
    prices [ask_price = 2^63 - 1] and [bid_price = -1]: their difference
    is [2^63], while the [price_spread] of the result is the [int64]
    difference [-2^63]. *)
Lemma market_urgency_counterexample :
  ∃ r h' out,
    feature_engineering 0 {[0 := wide_df]} = Some (r, h') ∧ h' !! r = Some out ∧
    cell wide_df "ask_price" 0 = Some (num (2 ^ 63 - 1)) ∧
    cell wide_df "bid_price" 0 = Some (num (-1)) ∧
    ∃ p l m,
      cell out "price_spread" 0 = Some p ∧
      cell out "liquidity_imbalance" 0 = Some l ∧
      cell out "market_urgency" 0 = Some m ∧
      p = num (- 2 ^ 63) ∧
      ¬ urgency_as_stated (num (2 ^ 63 - 1)) (num (-1)) p l m.
Proof.
  destruct (feature_engineering_total 0 {[0 := wide_df]} wide_df)
    as (out & Hout & Hrun); [reflexivity|by_evaluation|].
  eexists _, _, out. split; [exact Hrun|]. split; [apply lookup_insert_eq|].
  split; [by_evaluation|]. split; [by_evaluation|].
  rewrite (cell_price_spread _ _ Hout), (cell_liquidity_imbalance _ _ Hout),
    (cell_market_urgency _ _ Hout).
  eexists _, _, _. split; [vm_compute; reflexivity|].
  split; [vm_compute; reflexivity|]. split; [vm_compute; reflexivity|].
  split; [by_evaluation|].
  intros [Hspread _]. revert Hspread. by_evaluation.
Qed.

(** ** [feature_engineering]: the final [fillna] reaches every column *)

Lemma fill_not_missing v x : isnan v = false → isnan (fill v x) = false.
Proof. intros Hv. unfold fill. by destruct x. Qed.

Lemma fill_present v x : isnan x = false → fill v x = x.
Proof. unfold fill. by intros ->. Qed.

Lemma has_missing_false s : has_missing s = false ↔ Forall (λ x, isnan x = false) (values s).
Proof.
  unfold has_missing. induction (values s) as [|x xs IH]; simpl.
  - split; [constructor|done].
  - split.
    + intros [Hx Hxs]%orb_false_iff. constructor; [done|by apply IH].
    + intros H. inversion_clear H as [|? ? Hx Hxs]. apply orb_false_iff. split; [done|by apply IH].
Qed.

Lemma has_missing_fillna v s : isnan v = false → has_missing (series_fillna v s) = false.
Proof.
  intros Hv. apply has_missing_false. rewrite values_fillna.
  apply Forall_fmap, Forall_forall. intros x _. by apply fill_not_missing.
Qed.

Lemma df_fillna_complete v df k s :
  isnan v = false → (k, s) ∈ columns (df_fillna v df) → has_missing s = false.
Proof.
  intros Hv. unfold df_fillna; simpl. intros ([k' s'] & [= -> ->] & _)%list_elem_of_fmap.
  by apply has_missing_fillna.
Qed.

(** C9.  [feature_engineering] ends with a [fillna(0)] over the whole
    table: in every column other than the four derived ones a missing
    input cell is [0] in the result and a present one is unchanged, and
    no column of the result holds a missing value. *)
Theorem feature_engineering_fills_every_column h X df :
  h !! X = Some df → has_columns base_columns df →
  ∃ r h' out,
    feature_engineering X h = Some (r, h') ∧ h' !! r = Some out ∧
    (∀ c i, c ∉ derived_columns → cell df c i = Some NaN →
            cell out c i = Some (Fin 0%Qc)) ∧
    (∀ c i x, c ∉ derived_columns → cell df c i = Some x → isnan x = false →
              cell out c i = Some x) ∧
    (∀ k s, (k, s) ∈ columns out → has_missing s = false).
Proof.
  intros HX Hcols.
  destruct (feature_engineering_total _ _ _ HX Hcols) as (out & Hout & Hrun).
  eexists _, _, out. split; [exact Hrun|]. split; [apply lookup_insert_eq|].
  split; [|split].
  - intros c i Hc Hx. by rewrite (cell_other_column _ _ Hout) by done; rewrite Hx.
  - intros c i x Hc Hx Hnan.
    rewrite (cell_other_column _ _ Hout) by done. rewrite Hx. simpl.
    by rewrite fill_present.
  - intros k s. destruct (feature_engineering_df_inv _ _ Hout)
      as (B & A & I & M & P & Q & _ & _ & _ & _ & _ & _ & ->).
    by apply df_fillna_complete.
Qed.

Lemma feature_engineering_fills_every_column_witness :
  ∃ r h' out,
    feature_engineering 0 {[0 := book_df]} = Some (r, h') ∧ h' !! r = Some out ∧
    (∀ c i, c ∉ derived_columns → cell book_df c i = Some NaN →
            cell out c i = Some (Fin 0%Qc)) ∧
    (∀ c i x, c ∉ derived_columns → cell book_df c i = Some x → isnan x = false →
              cell out c i = Some x) ∧
    (∀ k s, (k, s) ∈ columns out → has_missing s = false).
Proof.
  apply (feature_engineering_fills_every_column {[0 := book_df]} 0 book_df).
  - reflexivity.
  - by_evaluation.
Defined.

(** ** [feature_engineering] applied to its own output *)

Lemma df_get_other_column df out c :
  feature_engineering_df df = Some out → c ∉ derived_columns →
  df_get c out = series_fillna (Fin 0%Qc) <$> df_get c df.
Proof.
  intros Hout Hc.
  destruct (feature_engineering_df_inv _ _ Hout)
    as (B & A & I & M & P & Q & _ & _ & _ & _ & _ & _ & ->).
  rewrite df_get_fillna. unfold engineered.
  unfold derived_columns in Hc. rewrite !not_elem_of_cons in Hc.
  destruct Hc as (? & ? & ? & ? & _).
  by rewrite !df_get_set_ne by done.
Qed.

Lemma base_not_derived c : c ∈ base_columns → c ∉ derived_columns.
Proof.
  unfold base_columns. rewrite !elem_of_cons.
  intros H. repeat (destruct H as [->|H]; [by_evaluation|]).
  by apply elem_of_nil in H.
Qed.

Lemma feature_engineering_keeps_base df out :
  feature_engineering_df df = Some out →
  has_columns base_columns df → has_columns base_columns out.
Proof.
  intros Hout Hcols. unfold has_columns in *.
  rewrite !list.Forall_forall in *. intros c Hc.
  rewrite (df_get_other_column _ _ _ Hout) by (by apply base_not_derived).
  destruct (Hcols c Hc) as [s ->]. by eexists.
Qed.

Lemma typed_base_preserved df out c i :
  feature_engineering_df df = Some out → c ∈ base_columns →
  (∀ x, cell df c i = Some x → isnan x = false) →
  typed_cell out c i = typed_cell df c i.
Proof.
  intros Hout Hc Hx.
  rewrite (typed_other_column _ _ Hout) by (by apply base_not_derived).
  destruct (typed_cell df c i) as [u|] eqn:Hu; simpl; [|done]. f_equal.
  destruct u as [z|x]; [done|]. cbn [sfill]. rewrite fill_present; [done|].
  apply Hx. by rewrite cell_typed, Hu.
Qed.

(** C8 (as amended).  Running [feature_engineering] on its own output
    gives, in every row whose six base cells are all present in the
    original input, the same four derived values as the first run. *)
Theorem feature_engineering_twice h X df :
  h !! X = Some df → has_columns base_columns df →
  ∃ r1 h1 out1 r2 h2 out2,
    feature_engineering X h = Some (r1, h1) ∧ h1 !! r1 = Some out1 ∧
    feature_engineering r1 h1 = Some (r2, h2) ∧ h2 !! r2 = Some out2 ∧
    ∀ i, (∀ c x, c ∈ base_columns → cell df c i = Some x → isnan x = false) →
         ∀ c, c ∈ derived_columns → cell out2 c i = cell out1 c i.
Proof.
  intros HX Hcols.
  destruct (feature_engineering_total _ _ _ HX Hcols) as (out1 & Hout1 & Hrun1).
  pose proof (feature_engineering_keeps_base _ _ Hout1 Hcols) as Hcols1.
  destruct (feature_engineering_total (fresh (dom h)) (<[fresh (dom h) := out1]> h) out1
              (lookup_insert_eq _ _ _) Hcols1) as (out2 & Hout2 & Hrun2).
  eexists _, _, out1, _, _, out2.
  split; [exact Hrun1|]. split; [apply lookup_insert_eq|].
  split; [exact Hrun2|]. split; [apply lookup_insert_eq|].
  intros i Hpresent c Hc.
  assert (∀ b, b ∈ base_columns → typed_cell out1 b i = typed_cell df b i) as Hbase.
  { intros b Hb. apply typed_base_preserved; [done..|]. intros x. by apply Hpresent. }
  unfold derived_columns in Hc. rewrite !elem_of_cons in Hc.
  destruct Hc as [->|[->|[->|[->|Hc]]]]; [| | | |by apply elem_of_nil in Hc].
  - rewrite (cell_liquidity_imbalance _ _ Hout2), (cell_liquidity_imbalance _ _ Hout1).
    rewrite !Hbase; [done|by_evaluation..].
  - rewrite (cell_matched_imbalance _ _ Hout2), (cell_matched_imbalance _ _ Hout1).
    rewrite !Hbase; [done|by_evaluation..].
  - rewrite (cell_price_spread _ _ Hout2), (cell_price_spread _ _ Hout1).
    rewrite !Hbase; [done|by_evaluation..].
  - rewrite (cell_market_urgency _ _ Hout2), (cell_market_urgency _ _ Hout1).
    rewrite !Hbase; [done|by_evaluation..].
Qed.

Lemma feature_engineering_twice_witness :
  ∃ r1 h1 out1 r2 h2 out2,
    feature_engineering 0 {[0 := book_df]} = Some (r1, h1) ∧ h1 !! r1 = Some out1 ∧
    feature_engineering r1 h1 = Some (r2, h2) ∧ h2 !! r2 = Some out2 ∧
    ∀ i, (∀ c x, c ∈ base_columns → cell book_df c i = Some x → isnan x = false) →
         ∀ c, c ∈ derived_columns → cell out2 c i = cell out1 c i.
Proof.
  apply (feature_engineering_twice {[0 := book_df]} 0 book_df).
  - reflexivity.
  - by_evaluation.
Defined.

(** C8 as stated fails.  The only row of [no_ask_df] has a missing
    [ask_price] and [bid_price = 10]: the first run gives
    [price_spread = 0] and replaces the missing price by [0], so the
    second run gives [price_spread = 0 - 10]. *)
Lemma feature_engineering_twice_counterexample :
  ∃ r1 h1 out1 r2 h2 out2,
    feature_engineering 0 {[0 := no_ask_df]} = Some (r1, h1) ∧ h1 !! r1 = Some out1 ∧
    feature_engineering r1 h1 = Some (r2, h2) ∧ h2 !! r2 = Some out2 ∧
    cell out1 "price_spread" 0 = Some (Fin 0%Qc) ∧
    cell out2 "price_spread" 0 = Some (num (-10)) ∧
    cell out2 "price_spread" 0 ≠ cell out1 "price_spread" 0.
Proof.
  destruct (feature_engineering_total 0 {[0 := no_ask_df]} no_ask_df)
    as (out1 & Hout1 & Hrun1); [reflexivity|by_evaluation|].
  assert (has_columns base_columns no_ask_df) as Hcols by by_evaluation.
  pose proof (feature_engineering_keeps_base _ _ Hout1 Hcols) as Hcols1.
  set (h := {[0 := no_ask_df]} : gmap loc DataFrame) in *.
  destruct (feature_engineering_total (fresh (dom h)) (<[fresh (dom h) := out1]> h) out1
              (lookup_insert_eq _ _ _) Hcols1) as (out2 & Hout2 & Hrun2).
  eexists _, _, out1, _, _, out2.
  split; [exact Hrun1|]. split; [apply lookup_insert_eq|].
  split; [exact Hrun2|]. split; [apply lookup_insert_eq|].
  rewrite !(cell_price_spread _ _ Hout2), !(cell_price_spread _ _ Hout1).
  rewrite !(typed_other_column _ _ Hout1) by by_evaluation.
  repeat split; by_evaluation.
Qed.

(** ** [data_preprocessing] as a store program *)

Lemma alloc_run df (h : gmap loc DataFrame) :
  alloc df h = Some (fresh (dom h), <[fresh (dom h) := df]> h).
Proof. done. Qed.

Lemma impute_median_run r c h df :
  h !! r = Some df →
  impute_median r c h = (d ← impute_column df c; Some ((), <[r := d]> h)).
Proof.
  intros Hr. unfold impute_median, impute_column.
  unfold bind at 1. rewrite (getitem_run _ _ _ _ Hr).
  destruct (df_get c df) as [s|] eqn:Hs; cbn [mbind option_bind]; [|reflexivity].
  unfold bind at 1. rewrite (getitem_run _ _ _ _ Hr), Hs. cbn [mbind option_bind].
  by rewrite (setitem_run _ _ _ _ _ Hr).
Qed.

Lemma for_each_impute_run r cs : ∀ h df,
  h !! r = Some df →
  for_each cs (impute_median r) h = (d ← impute_columns cs df; Some ((), <[r := d]> h)).
Proof.
  induction cs as [|c cs IH]; intros h df Hr; simpl.
  - unfold ret. by rewrite insert_id.
  - unfold bind at 1. rewrite (impute_median_run _ _ _ _ Hr).
    destruct (impute_column df c) as [d|]; cbn [mbind option_bind]; [|reflexivity].
    rewrite (IH _ d) by apply lookup_insert_eq.
    destruct (impute_columns cs d) as [d'|]; cbn [mbind option_bind]; [|reflexivity].
    by rewrite insert_insert_eq.
Qed.

Section preprocessing_run.
Context `{Numerics}.

Lemma encode_run r h enc :
  h !! r = Some enc →
  (data2 <~ get_dummies r "imbalance_buy_sell_flag" "imbalance_flag" ;;
   rename data2 "imbalance_flag_-1" "imbalance_flag_neg_1") h =
    (d ← df_get_dummies "imbalance_buy_sell_flag" "imbalance_flag" enc;
     let h2 := <[fresh (dom h) := d]> h in
     Some (fresh (dom h2),
           <[fresh (dom h2) := df_rename "imbalance_flag_-1" "imbalance_flag_neg_1" d]> h2)).
Proof.
  intros Hr. unfold get_dummies, rename.
  unfold bind at 1. unfold bind at 1. rewrite (deref_run _ _ _ Hr).
  unfold bind at 1. unfold lift.
  destruct (df_get_dummies _ _ enc) as [d|]; cbn [mbind option_bind]; [|reflexivity].
  rewrite alloc_run. unfold bind at 1.
  rewrite (deref_run _ _ d) by apply lookup_insert_eq.
  by rewrite alloc_run.
Qed.

Lemma data_preprocessing_run data remove_missing h df :
  h !! data = Some df →
  data_preprocessing data remove_missing h =
    (enc ← encoder_input remove_missing df;
     let h1 := if remove_missing then <[fresh (dom h) := enc]> h
               else <[data := enc]> h in
     d ← df_get_dummies "imbalance_buy_sell_flag" "imbalance_flag" enc;
     let h2 := <[fresh (dom h1) := d]> h1 in
     Some (fresh (dom h2),
           <[fresh (dom h2) := df_rename "imbalance_flag_-1" "imbalance_flag_neg_1" d]> h2)).
Proof.
  intros Hd. unfold data_preprocessing. destruct remove_missing; simpl.
  - unfold bind at 1. unfold dropna.
    rewrite (bind_run _ _ _ _ _ (deref_run _ _ _ Hd)), alloc_run.
    by rewrite (encode_run _ _ (df_dropna df)) by apply lookup_insert_eq.
  - unfold fill_missing_df.
    unfold bind at 1. unfold bind at 1. rewrite (getitem_run _ _ _ _ Hd).
    destruct (df_get "far_price" df) as [far|]; cbn [mbind option_bind]; [|reflexivity].
    unfold bind at 1. rewrite (setitem_run _ _ _ _ _ Hd).
    unfold bind at 1. rewrite (getitem_run _ _ _ _ (lookup_insert_eq _ _ _)).
    destruct (df_get "near_price" _) as [near|]; cbn [mbind option_bind]; [|reflexivity].
    unfold bind at 1. rewrite (setitem_run _ _ _ _ _ (lookup_insert_eq _ _ _)).
    rewrite insert_insert_eq.
    unfold bind at 1. unfold columns_with_missing_of.
    rewrite (bind_run _ _ _ _ _ (deref_run _ _ _ (lookup_insert_eq _ _ _))).
    unfold ret at 1. unfold bind at 1.
    rewrite (for_each_impute_run _ _ _ _ (lookup_insert_eq _ _ _)).
    destruct (impute_columns _ _) as [enc|]; cbn [mbind option_bind]; [|reflexivity].
    rewrite insert_insert_eq. unfold ret at 1.
    by rewrite (encode_run _ _ enc) by apply lookup_insert_eq.
Qed.
End preprocessing_run.

(** ** Filling missing values *)

Lemma fillna_no_missing v s : has_missing s = false → series_fillna v s = s.
Proof.
  intros Hs%has_missing_false. destruct s as [xs|xs]; simpl in *; [done|].
  f_equal. induction Hs as [|x xs Hx _ IH]; csimpl; [done|].
  by rewrite IH, fill_present.
Qed.

Lemma fillna_nan s : series_fillna NaN s = s.
Proof.
  destruct s as [xs|xs]; simpl; [done|]. f_equal.
  induction xs as [|x xs IH]; csimpl; [done|]. rewrite IH. by destruct x.
Qed.

Lemma impute_series_complete s :
  isnan (series_median s) = false → has_missing (impute_series s) = false.
Proof. apply has_missing_fillna. Qed.

Lemma impute_series_idemp s : impute_series (impute_series s) = impute_series s.
Proof.
  destruct (isnan (series_median s)) eqn:Hm.
  - assert (impute_series s = s) as Heq; [|by rewrite !Heq].
    unfold impute_series. destruct (series_median s); try done. apply fillna_nan.
  - unfold impute_series at 1.
    rewrite fillna_no_missing; [done|]. by apply impute_series_complete.
Qed.

Lemma impute_series_no_missing s : has_missing s = false → impute_series s = s.
Proof. apply fillna_no_missing. Qed.

Lemma df_get_impute_column df c d k :
  impute_column df c = Some d →
  df_get k d = if decide (k = c) then impute_series <$> df_get c df else df_get k df.
Proof.
  unfold impute_column. destruct (df_get c df) as [s|] eqn:Hs; [|done].
  intros [= <-]. destruct (decide (k = c)) as [->|Hne].
  - by rewrite df_get_set_eq.
  - by rewrite df_get_set_ne.
Qed.

Lemma df_get_impute_columns cs : ∀ df d k,
  impute_columns cs df = Some d →
  df_get k d = if decide (k ∈ cs) then impute_series <$> df_get k df else df_get k df.
Proof.
  induction cs as [|c cs IH]; intros df d k; cbn [impute_columns].
  - intros [= <-]. rewrite decide_False; [done|apply not_elem_of_nil].
  - destruct (impute_column df c) as [d1|] eqn:Hd1; [|done].
    cbn [mbind option_bind]. intros Hd.
    rewrite (IH _ _ k Hd), (df_get_impute_column _ _ _ k Hd1).
    destruct (decide (k = c)) as [->|Hne].
    + rewrite (decide_True (P := c ∈ c :: cs)) by apply list_elem_of_here.
      destruct (decide (c ∈ cs)); [|done].
      destruct (df_get c df); simpl; [|done]. by rewrite impute_series_idemp.
    + destruct (decide (k ∈ cs)) as [Hin|Hnin].
      * rewrite decide_True; [done|]. by apply list_elem_of_further.
      * rewrite decide_False; [done|]. by intros [?|?]%elem_of_cons.
Qed.

Lemma lookup_col_elem {A} k (cols : list (string * A)) :
  k ∈ cols.*1 → is_Some (lookup_col k cols).
Proof.
  induction cols as [|[k' s] cols IH]; simpl; [by intros ?%elem_of_nil|].
  intros Hk. destruct (decide (k' = k)); [by eexists|].
  apply IH. by apply elem_of_cons in Hk as [?|?].
Qed.

Lemma lookup_col_Some_elem {A} k (s : A) cols : lookup_col k cols = Some s → (k, s) ∈ cols.
Proof.
  induction cols as [|[k' s'] cols IH]; simpl; [done|].
  destruct (decide (k' = k)) as [->|?].
  - intros [= ->]. apply list_elem_of_here.
  - intros Hk. by apply list_elem_of_further, IH.
Qed.

Lemma elem_lookup_col {A} k (s : A) cols :
  NoDup cols.*1 → (k, s) ∈ cols → lookup_col k cols = Some s.
Proof.
  induction cols as [|[k' s'] cols IH]; simpl; [by intros _ ?%elem_of_nil|].
  intros [Hk' Hnd]%list.NoDup_cons [[= -> ->]|Hin]%elem_of_cons.
  - by rewrite decide_True.
  - rewrite decide_False; [by apply IH|].
    intros ->. apply Hk'. apply list_elem_of_fmap. by exists (k, s).
Qed.

Lemma impute_column_total df c : is_Some (df_get c df) → is_Some (impute_column df c).
Proof. intros [s Hs]. unfold impute_column. rewrite Hs. by eexists. Qed.

Lemma impute_columns_total cs : ∀ df,
  Forall (λ c, is_Some (df_get c df)) cs → is_Some (impute_columns cs df).
Proof.
  induction cs as [|c cs IH]; intros df Hcs; simpl; [by eexists|].
  inversion_clear Hcs as [|? ? Hc Hcs'].
  destruct (impute_column_total _ _ Hc) as [d Hd]. rewrite Hd. simpl.
  apply IH. eapply list.Forall_impl; [exact Hcs'|]. intros k [s Hs].
  rewrite (df_get_impute_column _ _ _ k Hd).
  destruct (decide (k = c)) as [->|]; [|by eexists].
  destruct Hc as [s' ->]. by eexists.
Qed.

Lemma columns_with_missing_are_columns df :
  Forall (λ c, is_Some (df_get c df)) (df_columns_with_missing df).
Proof.
  apply list.Forall_forall. intros c Hc. apply lookup_col_elem.
  unfold df_columns_with_missing in Hc.
  apply list_elem_of_fmap in Hc as ([k s] & -> & Hin).
  apply list_elem_of_filter in Hin as [_ Hin].
  apply list_elem_of_fmap. by exists (k, s).
Qed.

Lemma columns_with_missing_complete df k s :
  df_get k df = Some s → has_missing s = true → k ∈ df_columns_with_missing df.
Proof.
  unfold df_get, df_columns_with_missing. intros Hk Hs.
  apply list_elem_of_fmap. exists (k, s). split; [done|].
  apply list_elem_of_filter. split; [done|]. by apply lookup_col_Some_elem.
Qed.

Lemma impute_all_columns df d k :
  impute_columns (df_columns_with_missing df) df = Some d →
  df_get k d = impute_series <$> df_get k df.
Proof.
  intros Hd. rewrite (df_get_impute_columns _ _ _ k Hd).
  destruct (decide (k ∈ _)) as [|Hnin]; [done|].
  destruct (df_get k df) as [s|] eqn:Hs; [|done]. simpl.
  rewrite impute_series_no_missing; [done|].
  destruct (has_missing s) eqn:Hm; [|done].
  destruct Hnin. by eapply columns_with_missing_complete.
Qed.

Lemma imputed_price k s :
  k = "far_price" ∨ k = "near_price" → imputed k s = series_fillna (Fin 0%Qc) s.
Proof. intros Hk. unfold imputed. by rewrite decide_True. Qed.

Lemma imputed_other k s :
  k ≠ "far_price" → k ≠ "near_price" → imputed k s = impute_series s.
Proof. intros Hf Hn. unfold imputed. rewrite decide_False; [done|]. by intros [?|?]. Qed.

Lemma fill_missing_df_get df d k :
  fill_missing_df df = Some d → df_get k d = imputed k <$> df_get k df.
Proof.
  unfold fill_missing_df.
  destruct (df_get "far_price" df) as [far|] eqn:Hfar; [|done]. simpl.
  rewrite df_get_set_ne by done.
  destruct (df_get "near_price" df) as [near|] eqn:Hnear; [|done]. simpl.
  intros Hd%(impute_all_columns _ _ k). rewrite Hd.
  destruct (decide (k = "near_price")) as [->|Hn].
  - rewrite df_get_set_eq, Hnear. cbn [fmap option_fmap option_map].
    rewrite imputed_price by auto.
    rewrite impute_series_no_missing; [done|]. by apply has_missing_fillna.
  - rewrite df_get_set_ne by done.
    destruct (decide (k = "far_price")) as [->|Hf].
    + rewrite df_get_set_eq, Hfar. cbn [fmap option_fmap option_map].
      rewrite imputed_price by auto.
      rewrite impute_series_no_missing; [done|]. by apply has_missing_fillna.
    + rewrite df_get_set_ne by done.
      destruct (df_get k df); cbn [fmap option_fmap option_map]; [|done].
      by rewrite imputed_other.
Qed.

Lemma fill_missing_df_total df :
  has_columns ["far_price"; "near_price"] df → is_Some (fill_missing_df df).
Proof.
  unfold has_columns. intros Hc.
  inversion_clear Hc as [|? ? [far Hfar] Hc']. inversion_clear Hc' as [|? ? [near Hnear] _].
  unfold fill_missing_df. rewrite Hfar. simpl.
  rewrite df_get_set_ne, Hnear by done. simpl.
  apply impute_columns_total, columns_with_missing_are_columns.
Qed.

Lemma assign_col_names c s cols :
  is_Some (lookup_col c cols) → (assign_col c s cols).*1 = cols.*1.
Proof.
  induction cols as [|[k v] cols IH]; simpl; [by intros [? ?]|].
  destruct (decide (k = c)) as [->|Hne]; [done|].
  intros Hc. csimpl. by rewrite IH.
Qed.

Lemma impute_columns_names cs : ∀ df d,
  impute_columns cs df = Some d → column_names d = column_names df ∧ index d = index df.
Proof.
  induction cs as [|c cs IH]; intros df d; cbn [impute_columns].
  - by intros [= <-].
  - unfold impute_column. destruct (df_get c df) as [s|] eqn:Hs; [|done].
    cbn [mbind option_bind]. intros [Hn Hi]%IH. rewrite Hn, Hi. split; [|done].
    unfold column_names, df_set. cbn [columns]. apply assign_col_names.
    exists s. exact Hs.
Qed.

Lemma fill_missing_df_names df d :
  fill_missing_df df = Some d → column_names d = column_names df ∧ index d = index df.
Proof.
  unfold fill_missing_df.
  destruct (df_get "far_price" df) as [far|] eqn:Hfar; [|done]. simpl.
  rewrite df_get_set_ne by done.
  destruct (df_get "near_price" df) as [near|] eqn:Hnear; [|done]. simpl.
  intros [Hn Hi]%impute_columns_names. rewrite Hn, Hi. split; [|done].
  unfold column_names, df_set. cbn [columns].
  rewrite (assign_col_names "near_price").
  - rewrite (assign_col_names "far_price"); [done|]. exists far. exact Hfar.
  - rewrite lookup_assign_ne by done. exists near. exact Hnear.
Qed.

(** ** The median of a column *)

Lemma median_finite xs :
  present xs ≠ [] → Forall (λ x, isfinite x = true) (present xs) →
  isfinite (median xs) = true.
Proof.
  intros Hne Hfin. unfold median. cbv zeta.
  pose proof (merge_sort_Permutation fle (present xs)) as Hperm.
  set (ys := merge_sort fle (present xs)) in *.
  assert (length ys ≠ 0) as Hlen.
  { rewrite Hperm. by destruct (present xs). }
  assert (Forall (λ x, isfinite x = true) ys) as Hys by by rewrite Hperm.
  assert (∀ k, k < length ys → ∃ p, ys !! k = Some (Fin p)) as Hlook.
  { intros k Hk. destruct (lookup_lt_is_Some_2 _ _ Hk) as [y Hy].
    rewrite list.Forall_forall in Hys.
    specialize (Hys y (list_elem_of_lookup_2 _ _ _ Hy)). destruct y; try done. by eexists. }
  destruct (decide (length ys = 0)) as [?|_]; [done|].
  assert (length ys / 2 < length ys) as H2 by (apply Nat.div_lt; lia).
  destruct (Hlook _ H2) as [p Hp]. rewrite Hp.
  destruct (Nat.odd (length ys)); [done|].
  destruct (Hlook (length ys / 2 - 1)) as [p' Hp']; [lia|]. rewrite Hp'.
  cbn [default fadd fdiv of_int]. by destruct (decide (Qc_of_Z 2 = 0%Qc)).
Qed.

Lemma imputed_complete df c s :
  medians_defined df → df_get c df = Some s → has_missing (imputed c s) = false.
Proof.
  intros Hmed Hs. unfold imputed.
  destruct (decide (c = "far_price" ∨ c = "near_price")) as [Hc|Hc].
  - by apply has_missing_fillna.
  - destruct (has_missing s) eqn:Hm.
    + apply impute_series_complete.
      destruct (Hmed c s Hs) as [Hne Hfin]; [|done|].
      { unfold price_columns. rewrite !not_elem_of_cons. repeat split; auto.
        apply not_elem_of_nil. }
      pose proof (median_finite _ Hne Hfin) as Hf. unfold series_median.
      by destruct (median (values s)).
    + by rewrite impute_series_no_missing.
Qed.

Lemma has_missing_int xs : has_missing (IntS xs) = false.
Proof.
  apply has_missing_false. simpl. apply Forall_fmap, list.Forall_forall. by intros.
Qed.

(** ** Columns of the encoded table *)

Lemma lookup_col_app {A} c (l1 l2 : list (string * A)) :
  lookup_col c (l1 ++ l2) =
    match lookup_col c l1 with Some s => Some s | None => lookup_col c l2 end.
Proof.
  induction l1 as [|[k s] l1 IH]; simpl; [done|]. by destruct (decide (k = c)).
Qed.

Lemma lookup_col_filter_ne {A} c c' (cols : list (string * A)) :
  c ≠ c' → lookup_col c (filter (λ cs, cs.1 ≠ c') cols) = lookup_col c cols.
Proof.
  intros Hne. induction cols as [|[k s] cols IH]; simpl; [done|].
  rewrite filter_cons. simpl. destruct (decide (k ≠ c')) as [Hk|Hk]; simpl.
  - by rewrite IH.
  - rewrite IH. rewrite decide_False; [done|]. intros ->. by apply Hk.
Qed.

Lemma lookup_col_rename {A} old new c (cols : list (string * A)) :
  c ≠ old → c ≠ new →
  lookup_col c (prod_map (rename_label old new) id <$> cols) = lookup_col c cols.
Proof.
  intros Ho Hn. induction cols as [|[k s] cols IH]; csimpl; [done|].
  rewrite IH.
  assert (rename_label old new k = c ↔ k = c) as Hiff.
  { unfold rename_label. destruct (decide (k = old)) as [->|Hk]; [|done].
    split; intros Hc; by subst. }
  destruct (decide (k = c)) as [Hkc|Hkc].
  - rewrite decide_True; [done|by apply Hiff].
  - rewrite decide_False; [done|]. intros Hr. by apply Hkc, Hiff.
Qed.

Section encoded_columns.
Context `{Numerics}.

Lemma dummies_complete prefix s k v :
  (k, v) ∈ dummies prefix s → has_missing v = false.
Proof.
  destruct s as [xs|xs]; simpl.
  - intros (lv & [= -> ->] & _)%list_elem_of_fmap. apply has_missing_int.
  - intros (lv & [= -> ->] & _)%list_elem_of_fmap. apply has_missing_int.
Qed.

(** A column the encoder leaves alone is found unchanged in the result. *)
Lemma df_get_encoded enc d c s :
  df_get_dummies flag_column "imbalance_flag" enc = Some d →
  c ≠ flag_column → c ≠ "imbalance_flag_-1" → c ≠ "imbalance_flag_neg_1" →
  df_get c enc = Some s →
  df_get c (df_rename "imbalance_flag_-1" "imbalance_flag_neg_1" d) = Some s.
Proof.
  unfold df_get_dummies. destruct (df_get flag_column enc) as [fs|]; [|done].
  simpl. intros [= <-] Hf Ho Hn Hs. unfold df_get, df_rename. cbn [columns].
  rewrite lookup_col_rename by done.
  rewrite lookup_col_app, lookup_col_filter_ne by done.
  unfold df_get in Hs. by rewrite Hs.
Qed.

Lemma encoded_columns_complete enc d k s :
  df_get_dummies flag_column "imbalance_flag" enc = Some d →
  (∀ k s, (k, s) ∈ columns enc → has_missing s = false) →
  (k, s) ∈ columns (df_rename "imbalance_flag_-1" "imbalance_flag_neg_1" d) →
  has_missing s = false.
Proof.
  unfold df_get_dummies. destruct (df_get flag_column enc) as [fs|]; [|done].
  simpl. intros [= <-] Henc. unfold df_rename. cbn [columns].
  intros ([k' s'] & [= -> ->] & Hin)%list_elem_of_fmap.
  apply elem_of_app in Hin as [Hin|Hin].
  - apply list_elem_of_filter in Hin as [_ Hin]. by eapply Henc.
  - by eapply dummies_complete.
Qed.
End encoded_columns.

(** ** [data_preprocessing] with [remove_missing=False] *)

Section preprocessing_fill.
Context `{Numerics}.

Lemma data_preprocessing_fill_total h data df :
  h !! data = Some df → has_columns (flag_column :: price_columns) df →
  ∃ enc d r h',
    fill_missing_df df = Some enc ∧
    df_get_dummies flag_column "imbalance_flag" enc = Some d ∧
    data_preprocessing data false h = Some (r, h') ∧
    h' !! r = Some (df_rename "imbalance_flag_-1" "imbalance_flag_neg_1" d) ∧
    h' !! data = Some enc ∧
    (∀ l v, l ≠ data → h !! l = Some v → h' !! l = Some v).
Proof.
  intros Hd Hcols. inversion_clear Hcols as [|? ? [fs Hfs] Hprices].
  destruct (fill_missing_df_total _ Hprices) as [enc Henc].
  assert (df_get flag_column enc = Some (imputed flag_column fs)) as Hflag.
  { by rewrite (fill_missing_df_get _ _ _ Henc), Hfs. }
  destruct (df_get_dummies flag_column "imbalance_flag" enc) as [d|] eqn:Hdum;
    [|by unfold df_get_dummies in Hdum; rewrite Hflag in Hdum].
  exists enc, d. eexists _, _.
  rewrite (data_preprocessing_run _ _ _ _ Hd). cbn [encoder_input].
  rewrite Henc. cbn [mbind option_bind].
  change "imbalance_buy_sell_flag" with flag_column. rewrite Hdum.
  cbn [mbind option_bind].
  split; [done|]. split; [done|]. split; [done|].
  split; [apply lookup_insert_eq|]. split.
  - apply lookup_alloc, lookup_alloc, lookup_insert_eq.
  - intros l v Hl Hv. apply lookup_alloc, lookup_alloc.
    by rewrite lookup_insert_ne.
Qed.

(** C2 (as amended).  With [remove_missing=False], on a table with
    uniquely named columns: a missing [far_price] or [near_price] cell
    becomes [0]; a missing cell of any other column becomes the median
    of that column's present values; and when every column with a
    missing value has a median (some value is present and the present
    values are finite) the result holds no missing value at all. *)
Theorem data_preprocessing_fills_missing h data df :
  h !! data = Some df → NoDup (column_names df) →
  has_columns (flag_column :: price_columns) df →
  ∃ r h' out,
    data_preprocessing data false h = Some (r, h') ∧ h' !! r = Some out ∧
    (∀ c i x, c ∈ price_columns → cell df c i = Some x →
              cell out c i = Some (fill (Fin 0%Qc) x)) ∧
    (∀ c s i x,
       c ∉ price_columns →
       c ∉ [flag_column; "imbalance_flag_-1"; "imbalance_flag_neg_1"] →
       df_get c df = Some s → values s !! i = Some x →
       cell out c i = Some (fill (median (values s)) x)) ∧
    (medians_defined df → ∀ k s, (k, s) ∈ columns out → has_missing s = false).
Proof.
  intros Hd Hnd Hcols.
  destruct (data_preprocessing_fill_total _ _ _ Hd Hcols)
    as (enc & d & r & h' & Henc & Hdum & Hrun & Hr & _).
  exists r, h'. eexists. split; [exact Hrun|]. split; [exact Hr|].
  split; [|split].
  - intros c i x Hc Hx. unfold cell in *.
    destruct (df_get c df) as [s|] eqn:Hs; [|done]. simpl in Hx.
    assert (c = "far_price" ∨ c = "near_price") as Hc'.
    { unfold price_columns in Hc. rewrite !elem_of_cons in Hc.
      destruct Hc as [?|[?|Hc]]; auto. by apply elem_of_nil in Hc. }
    rewrite (df_get_encoded _ _ c (imputed c s) Hdum).
    + simpl. by rewrite imputed_price, values_fillna, list_lookup_fmap, Hx.
    + by destruct Hc' as [-> | ->].
    + by destruct Hc' as [-> | ->].
    + by destruct Hc' as [-> | ->].
    + by rewrite (fill_missing_df_get _ _ _ Henc), Hs.
  - intros c s i x Hc Hc' Hs Hx. unfold cell.
    unfold price_columns in Hc. rewrite !not_elem_of_cons in Hc.
    rewrite !not_elem_of_cons in Hc'.
    destruct Hc as (? & ? & _), Hc' as (? & ? & ? & _).
    rewrite (df_get_encoded _ _ c (imputed c s) Hdum); [|done..|].
    + simpl. rewrite imputed_other by done. unfold impute_series.
      by rewrite values_fillna, list_lookup_fmap, Hx.
    + by rewrite (fill_missing_df_get _ _ _ Henc), Hs.
  - intros Hmed k s. apply (encoded_columns_complete _ _ _ _ Hdum).
    intros k' s' Hin.
    destruct (fill_missing_df_names _ _ Henc) as [Hnames _].
    assert (df_get k' enc = Some s') as Hget.
    { apply elem_lookup_col; [|done]. unfold column_names in Hnames. by rewrite Hnames. }
    rewrite (fill_missing_df_get _ _ _ Henc) in Hget.
    destruct (df_get k' df) as [s0|] eqn:Hs0; [|done]. simpl in Hget.
    injection Hget as <-. by eapply imputed_complete.
Qed.
End preprocessing_fill.

Lemma data_preprocessing_fills_missing_witness :
  ∃ r h' out,
    data_preprocessing (H := demo) 0 false {[0 := book_df]} = Some (r, h') ∧
    h' !! r = Some out ∧
    (∀ c i x, c ∈ price_columns → cell book_df c i = Some x →
              cell out c i = Some (fill (Fin 0%Qc) x)) ∧
    (∀ c s i x,
       c ∉ price_columns →
       c ∉ [flag_column; "imbalance_flag_-1"; "imbalance_flag_neg_1"] →
       df_get c book_df = Some s → values s !! i = Some x →
       cell out c i = Some (fill (median (values s)) x)) ∧
    (medians_defined book_df → ∀ k s, (k, s) ∈ columns out → has_missing s = false).
Proof.
  apply (data_preprocessing_fills_missing (H := demo) {[0 := book_df]} 0 book_df).
  - reflexivity.
  - by_evaluation.
  - by_evaluation.
Defined.

(** C2 as stated fails.  The column [wap] of [blank_df] holds no value:
    its median is [NaN] and its cells are still missing in the result. *)
Lemma data_preprocessing_blank_column_counterexample :
  ∃ r h' out s,
    data_preprocessing (H := demo) 0 false {[0 := blank_df]} = Some (r, h') ∧
    h' !! r = Some out ∧
    df_get "wap" out = Some s ∧ has_missing s = true ∧
    cell out "wap" 0 = Some NaN.
Proof.
  eexists _, _, _, _.
  split; [vm_compute; reflexivity|].
  split; [vm_compute; reflexivity|].
  split; [vm_compute; reflexivity|].
  split; by_evaluation.
Qed.

(** ** The one-hot encoding *)

Lemma str_int_neg_one z : str_int z = "-1" → z = (-1)%Z.
Proof.
  unfold str_int. intros Hz.
  assert (NilZero.int_of_string (NilZero.string_of_int (Z.to_int z)) = Some (Z.to_int z))
    as Hisi.
  { apply NilZero.isi; destruct z as [|p|p]; simpl; try done.
    - intros [= Hp]. by apply (Unsigned.to_uint_nonnil p).
    - intros [= Hp]. by apply (Unsigned.to_uint_nonnil p). }
  rewrite Hz in Hisi.
  assert (NilZero.int_of_string "-1" = Some (Z.to_int (-1))) as H1 by reflexivity.
  rewrite H1 in Hisi. injection Hisi as Hisi.
  by apply DecimalZ.to_int_inj.
Qed.

Lemma int_indicator_name z :
  rename_label "imbalance_flag_-1" "imbalance_flag_neg_1"
    ("imbalance_flag" +:+ "_" +:+ str_int z) =
  if decide (z = (-1)%Z) then "imbalance_flag_neg_1" else "imbalance_flag_" +:+ str_int z.
Proof.
  unfold rename_label. destruct (decide (z = (-1)%Z)) as [->|Hz].
  - done.
  - rewrite decide_False; [done|]. simpl. intros [= Hs]. by apply Hz, str_int_neg_one.
Qed.

Lemma rename_label_fresh old new k : old ≠ new → rename_label old new k ≠ old.
Proof.
  intros Hne. unfold rename_label. destruct (decide (k = old)); [by intros ->|done].
Qed.

Lemma int_levels_exact xs : NoDup (int_levels xs) ∧ ∀ z, z ∈ int_levels xs ↔ z ∈ xs.
Proof.
  unfold int_levels. split.
  - rewrite merge_sort_Permutation. apply NoDup_remove_dups.
  - intros z. by rewrite merge_sort_Permutation, elem_of_remove_dups.
Qed.

Lemma elem_of_present x xs : x ∈ present xs ↔ x ∈ xs ∧ isnan x = false.
Proof. unfold present. rewrite list_elem_of_filter. tauto. Qed.

Lemma float_levels_exact xs :
  NoDup (float_levels xs) ∧ ∀ x, x ∈ float_levels xs ↔ x ∈ xs ∧ isnan x = false.
Proof.
  unfold float_levels. split.
  - rewrite merge_sort_Permutation. apply NoDup_remove_dups.
  - intros x. by rewrite merge_sort_Permutation, elem_of_remove_dups, elem_of_present.
Qed.

Lemma df_get_select mask c df :
  df_get c (df_select mask df) = series_select mask <$> df_get c df.
Proof. apply lookup_col_fmap. Qed.

Section encoding.
Context `{Numerics}.

Lemma indicator_names_length fs : length (indicator_names fs) = distinct_count fs.
Proof.
  destruct fs as [xs|xs]; simpl; rewrite length_fmap.
  - unfold int_levels. by rewrite merge_sort_Permutation.
  - unfold float_levels. by rewrite merge_sort_Permutation.
Qed.

Lemma renamed_dummies_names fs :
  (prod_map (rename_label "imbalance_flag_-1" "imbalance_flag_neg_1") id <$>
     dummies "imbalance_flag" fs).*1 = indicator_names fs.
Proof.
  destruct fs as [xs|xs]; simpl; rewrite <-!list_fmap_compose.
  - apply list_fmap_ext. intros _ z _. simpl. apply int_indicator_name.
  - by apply list_fmap_ext.
Qed.

Lemma renamed_dummies_series fs :
  (prod_map (rename_label "imbalance_flag_-1" "imbalance_flag_neg_1") id <$>
     dummies "imbalance_flag" fs).*2 = indicator_series fs.
Proof.
  destruct fs as [xs|xs]; simpl; rewrite <-!list_fmap_compose;
    by apply list_fmap_ext.
Qed.

Lemma encoder_input_total remove_missing df :
  is_Some (df_get flag_column df) →
  (remove_missing = false → has_columns price_columns df) →
  ∃ enc fs,
    encoder_input remove_missing df = Some enc ∧ df_get flag_column enc = Some fs ∧
    (remove_missing = false → ∀ s0,
       df_get flag_column df = Some s0 → has_missing s0 = false → fs = s0).
Proof.
  intros [s0 Hs0] Hprices. destruct remove_missing; simpl.
  - exists (df_dropna df), (series_select (complete_rows df) s0).
    split; [done|]. split; [|done].
    unfold df_dropna. by rewrite df_get_select, Hs0.
  - destruct (fill_missing_df_total _ (Hprices eq_refl)) as [enc Henc].
    exists enc, (imputed flag_column s0). split; [done|]. split.
    + by rewrite (fill_missing_df_get _ _ _ Henc), Hs0.
    + intros _ s1 Hs1 Hm. rewrite Hs0 in Hs1. injection Hs1 as <-.
      rewrite imputed_other by done. by apply impute_series_no_missing.
Qed.

(** C3 (as amended).  On a table that holds the flag column,
    [data_preprocessing] returns a table whose columns are the other
    columns followed by exactly one indicator column per distinct
    non-missing value of [imbalance_buy_sell_flag] as the column stands
    when it is encoded (after the rows with a missing value were dropped,
    or after the imputation; a flag column without missing value is
    encoded as it was received when [remove_missing] is unset).  Each
    indicator is named [imbalance_flag_<value>]; for integer flags the
    column of [-1] is named [imbalance_flag_neg_1]; no column of the
    result is named [imbalance_flag_-1]. *)
Theorem data_preprocessing_indicator_columns h data df remove_missing :
  h !! data = Some df →
  is_Some (df_get flag_column df) →
  (remove_missing = false → has_columns price_columns df) →
  ∃ r h' out enc fs inds,
    data_preprocessing data remove_missing h = Some (r, h') ∧
    h' !! r = Some out ∧
    encoder_input remove_missing df = Some enc ∧
    df_get flag_column enc = Some fs ∧
    (remove_missing = false → ∀ s0,
       df_get flag_column df = Some s0 → has_missing s0 = false → fs = s0) ∧
    columns out =
      (prod_map (rename_label "imbalance_flag_-1" "imbalance_flag_neg_1") id <$>
         filter (λ cs, cs.1 ≠ flag_column) (columns enc)) ++ inds ∧
    inds.*1 = indicator_names fs ∧
    inds.*2 = indicator_series fs ∧
    length inds = distinct_count fs ∧
    levels_exact fs ∧
    "imbalance_flag_-1" ∉ column_names out.
Proof.
  intros Hd Hflag Hprices.
  destruct (encoder_input_total remove_missing df Hflag Hprices)
    as (enc & fs & Henc & Hfs & Hsame).
  rewrite (data_preprocessing_run _ _ _ _ Hd), Henc. cbn [mbind option_bind].
  unfold df_get_dummies. change "imbalance_buy_sell_flag" with flag_column.
  rewrite Hfs. cbn [mbind option_bind].
  eexists _, _, _, enc, fs,
    (prod_map (rename_label "imbalance_flag_-1" "imbalance_flag_neg_1") id <$>
       dummies "imbalance_flag" fs).
  split; [done|]. split; [apply lookup_insert_eq|].
  split; [done|]. split; [done|]. split; [done|].
  unfold df_rename. cbn [columns]. rewrite fmap_app.
  split; [done|]. split; [apply renamed_dummies_names|].
  split; [apply renamed_dummies_series|]. split; [|split].
  - rewrite <-indicator_names_length, <-renamed_dummies_names. by rewrite !length_fmap.
  - destruct fs; [apply int_levels_exact|apply float_levels_exact].
  - unfold column_names. cbn [columns]. rewrite <-fmap_app.
    intros (y & Hk & Hy)%list_elem_of_fmap.
    apply list_elem_of_fmap in Hy as ([k s] & -> & _). simpl in Hk.
    symmetry in Hk. by apply rename_label_fresh in Hk.
Qed.
End encoding.

Lemma data_preprocessing_indicator_columns_witness :
  ∃ r h' out enc fs inds,
    data_preprocessing (H := demo) 0 false {[0 := book_df]} = Some (r, h') ∧
    h' !! r = Some out ∧
    encoder_input false book_df = Some enc ∧
    df_get flag_column enc = Some fs ∧
    (false = false → ∀ s0,
       df_get flag_column book_df = Some s0 → has_missing s0 = false → fs = s0) ∧
    columns out =
      (prod_map (rename_label "imbalance_flag_-1" "imbalance_flag_neg_1") id <$>
         filter (λ cs, cs.1 ≠ flag_column) (columns enc)) ++ inds ∧
    inds.*1 = indicator_names (H := demo) fs ∧
    inds.*2 = indicator_series fs ∧
    length inds = distinct_count fs ∧
    levels_exact fs ∧
    "imbalance_flag_-1" ∉ column_names out.
Proof.
  apply (data_preprocessing_indicator_columns (H := demo) {[0 := book_df]} 0 book_df false).
  - reflexivity.
  - by_evaluation.
  - intros _. by_evaluation.
Defined.

(** C3 as stated fails.  The flag column of [partial_df] holds the two
    values [-1] and [1]; with [remove_missing=True] the row of [-1] is
    dropped for its missing [far_price], and the result has the single
    indicator column [imbalance_flag_1]. *)
Lemma data_preprocessing_dropped_level_counterexample :
  ∃ r h' out,
    data_preprocessing (H := demo) 0 true {[0 := partial_df]} = Some (r, h') ∧
    h' !! r = Some out ∧
    df_get flag_column partial_df = Some (IntS [(-1); 1]%Z) ∧
    distinct_count (IntS [(-1); 1]%Z) = 2 ∧
    column_names out = ["far_price"; "near_price"; "imbalance_flag_1"].
Proof.
  eexists _, _, _.
  split; [vm_compute; reflexivity|].
  split; [vm_compute; reflexivity|].
  repeat split; by_evaluation.
Qed.

(** ** Who owns the table: mutation of the caller's object *)

(** With [remove_missing=True] the caller's table is left as it was. *)
Lemma data_preprocessing_dropna_keeps_caller `{Numerics} h data df r h' :
  h !! data = Some df →
  data_preprocessing data true h = Some (r, h') →
  ∀ l v, h !! l = Some v → h' !! l = Some v.
Proof.
  intros Hd. rewrite (data_preprocessing_run _ _ _ _ Hd). cbn [encoder_input mbind option_bind].
  destruct (df_get_dummies _ _ _) as [d|]; [|done]. cbn [mbind option_bind].
  intros [= <- <-] l v Hl. by apply lookup_alloc, lookup_alloc, lookup_alloc.
Qed.

(** With [remove_missing=False] the caller's table itself is filled in
    place: after the call it holds the imputed table. *)
Lemma data_preprocessing_fill_overwrites_caller `{Numerics} h data df r h' :
  h !! data = Some df →
  data_preprocessing data false h = Some (r, h') →
  ∃ enc, fill_missing_df df = Some enc ∧ h' !! data = Some enc.
Proof.
  intros Hd. rewrite (data_preprocessing_run _ _ _ _ Hd). cbn [encoder_input].
  destruct (fill_missing_df df) as [enc|]; [|done]. cbn [mbind option_bind].
  destruct (df_get_dummies _ _ _) as [d|]; [|done]. cbn [mbind option_bind].
  intros [= <- <-]. exists enc. split; [done|].
  apply lookup_alloc, lookup_alloc, lookup_insert_eq.
Qed.

(** [feature_engineering] leaves every existing table as it was. *)
Lemma feature_engineering_keeps_caller h X df r h' :
  h !! X = Some df →
  feature_engineering X h = Some (r, h') →
  ∀ l v, h !! l = Some v → h' !! l = Some v.
Proof.
  intros HX. rewrite (feature_engineering_run _ _ _ HX).
  destruct (feature_engineering_df df) as [out|]; [|done]. cbn [mbind option_bind].
  intros [= <- <-] l v Hl. by apply lookup_alloc.
Qed.

(** C6, evaluated at a failing input.  The caller passes [book_df], whose
    first [far_price] is missing, with [remove_missing=False]: after the
    call the caller's own table holds [0] in that cell. *)
Theorem data_preprocessing_mutates_caller :
  ∃ r h' after,
    data_preprocessing (H := demo) 0 false {[0 := book_df]} = Some (r, h') ∧
    h' !! 0 = Some after ∧
    after ≠ book_df ∧
    cell book_df "far_price" 0 = Some NaN ∧
    cell after "far_price" 0 = Some (Fin 0%Qc).
Proof.
  destruct (data_preprocessing_fill_total (H := demo) {[0 := book_df]} 0 book_df)
    as (enc & d & r & h' & Henc & _ & Hrun & _ & Hcaller & _);
    [reflexivity|by_evaluation|].
  exists r, h', enc. split; [exact Hrun|]. split; [exact Hcaller|].
  assert (cell enc "far_price" 0 = Some (Fin 0%Qc)) as Hcell.
  { unfold cell. rewrite (fill_missing_df_get _ _ _ Henc). by_evaluation. }
  split; [|split; [by_evaluation|exact Hcell]].
  intros ->. revert Hcell. by_evaluation.
Qed.

(** ** Boolean indexing, row by row *)

Lemma mask_filter_nil_r {A} mask : mask_filter mask ([] : list A) = [].
Proof. by destruct mask. Qed.

Lemma mask_filter_fmap {A B} (f : A → B) mask xs :
  f <$> mask_filter mask xs = mask_filter mask (f <$> xs).
Proof.
  revert xs. induction mask as [|b mask IH]; intros [|x xs]; csimpl; try done.
  destruct b; csimpl; by rewrite IH.
Qed.

Lemma mask_filter_length {A B} mask (xs : list A) (ys : list B) :
  length xs = length ys → length (mask_filter mask xs) = length (mask_filter mask ys).
Proof.
  revert xs ys. induction mask as [|b mask IH]; intros [|x xs] [|y ys]; simpl; try done.
  intros [= Hlen]. destruct b; simpl; by rewrite (IH xs ys).
Qed.

Lemma mask_filter_by_value {A B} (f : A → B) (p : B → bool) (l : list A) :
  mask_filter (p <$> (f <$> l)) l = filter (λ r, p (f r) = true) l.
Proof.
  induction l as [|r l IH]; csimpl; [done|]. rewrite filter_cons, IH.
  by destruct (p (f r)).
Qed.

Lemma mask_filter_complement {A} mask (l : list A) :
  length mask = length l →
  mask_filter mask l ++ mask_filter (negb <$> mask) l ≡ₚ l.
Proof.
  revert l. induction mask as [|b mask IH]; intros [|x l]; csimpl; try done.
  intros [= Hlen]. destruct b; csimpl.
  - by rewrite IH.
  - by rewrite <-Permutation_middle, IH.
Qed.

Lemma values_select mask s : values (series_select mask s) = mask_filter mask (values s).
Proof.
  destruct s; simpl; [|done]. unfold ints. by rewrite !mask_filter_fmap.
Qed.

Lemma series_len_values s : series_len s = length (values s).
Proof. destruct s; simpl; [|done]. unfold ints. by rewrite !length_fmap. Qed.

Lemma band_mask_in_band lo hi s : band_mask lo hi s = in_band lo hi <$> values s.
Proof.
  unfold band_mask. induction (values s) as [|x xs IH]; csimpl; [done|]. by rewrite IH.
Qed.

Lemma rows_of_length idx cols : length (rows_of idx cols) = length idx.
Proof. revert cols. induction idx as [|l idx IH]; intros cols; simpl; [done|]. by rewrite IH. Qed.

Lemma rows_of_select idx : ∀ cols mask,
  Forall (λ kc : string * list float64, length kc.2 = length idx) cols →
  rows_of (mask_filter mask idx) (prod_map id (mask_filter mask) <$> cols) =
    mask_filter mask (rows_of idx cols).
Proof.
  induction idx as [|l idx IH]; intros cols mask Hal.
  - rewrite mask_filter_nil_r. simpl. by rewrite mask_filter_nil_r.
  - destruct mask as [|b mask]; [done|].
    assert (Forall (λ kc : string * list float64, length kc.2 = length idx)
              (prod_map id tail <$> cols)) as Htl.
    { apply Forall_fmap. eapply list.Forall_impl; [exact Hal|].
      intros [k xs] Hlen. destruct xs; simpl in *; [done|]. by injection Hlen. }
    destruct b; simpl.
    + f_equal.
      * f_equal. rewrite <-list_fmap_compose. apply Forall_fmap_ext.
        eapply list.Forall_impl; [exact Hal|].
        intros [k xs] Hlen. by destruct xs.
      * rewrite <-IH by done. f_equal. rewrite <-!list_fmap_compose.
        apply Forall_fmap_ext. eapply list.Forall_impl; [exact Hal|].
        intros [k xs] Hlen. by destruct xs.
    + rewrite <-IH by done. f_equal. rewrite <-!list_fmap_compose.
      apply Forall_fmap_ext. eapply list.Forall_impl; [exact Hal|].
      intros [k xs] Hlen. by destruct xs.
Qed.

Lemma well_formed_values df :
  well_formed df →
  Forall (λ kc : string * list float64, length kc.2 = length (index df))
         (prod_map id values <$> columns df).
Proof.
  unfold well_formed. intros Hwf. apply Forall_fmap.
  eapply list.Forall_impl; [exact Hwf|]. intros [k s]; simpl.
  by rewrite series_len_values.
Qed.

Lemma rows_select mask df :
  well_formed df → rows (df_select mask df) = mask_filter mask (rows df).
Proof.
  intros Hwf. unfold rows, df_select. cbn [index columns].
  rewrite <-rows_of_select by by apply well_formed_values.
  f_equal. rewrite <-!list_fmap_compose. apply list_fmap_ext.
  intros _ [k s] _. simpl. by rewrite values_select.
Qed.

Lemma well_formed_select mask df : well_formed df → well_formed (df_select mask df).
Proof.
  unfold well_formed, df_select. cbn [index columns]. intros Hwf.
  apply Forall_fmap. eapply list.Forall_impl; [exact Hwf|]. intros [k s]; simpl.
  rewrite !series_len_values, values_select. apply mask_filter_length.
Qed.

Lemma rows_of_column idx : ∀ (cols : list (string * list float64)) c xs,
  Forall (λ kc : string * list float64, length kc.2 = length idx) cols →
  lookup_col c cols = Some xs →
  row_value c <$> rows_of idx cols = xs.
Proof.
  induction idx as [|l idx IH]; intros cols c xs Hal Hc.
  - simpl. apply lookup_col_Some_elem in Hc.
    rewrite list.Forall_forall in Hal. specialize (Hal _ Hc). by destruct xs.
  - pose proof Hc as Hin. apply lookup_col_Some_elem in Hin.
    pose proof Hal as Hal'. rewrite list.Forall_forall in Hal'.
    specialize (Hal' _ Hin). destruct xs as [|x xs]; [done|]. csimpl. f_equal.
    + unfold row_value. simpl. by rewrite lookup_col_fmap, Hc.
    + apply IH.
      * apply Forall_fmap. eapply list.Forall_impl; [exact Hal|].
        intros [k ys] Hlen. destruct ys; simpl in *; [done|]. by injection Hlen.
      * by rewrite lookup_col_fmap, Hc.
Qed.

Lemma rows_column df c s :
  well_formed df → df_get c df = Some s → row_value c <$> rows df = values s.
Proof.
  intros Hwf Hs. apply rows_of_column; [by apply well_formed_values|].
  unfold df_get in Hs. by rewrite lookup_col_fmap, Hs.
Qed.

(** Selecting with a mask computed from one column keeps the rows whose
    cell in that column passes the test, in their order. *)
Lemma select_rows (p : float64 → bool) df c s :
  well_formed df → df_get c df = Some s →
  rows (df_select (p <$> values s) df) = filter (λ r, p (row_value c r) = true) (rows df).
Proof.
  intros Hwf Hs. rewrite rows_select by done.
  rewrite <-(rows_column _ _ _ Hwf Hs). apply mask_filter_by_value.
Qed.

(** ** [split_data] *)

Lemma flt_fge_exclusive x n : flt x n = true → fge x n = false.
Proof.
  unfold fge. destruct x as [| |a|], n as [| |b|]; simpl; try done.
  intros Hlt%bool_decide_eq_true. apply bool_decide_eq_false.
  by apply Qclt_not_le.
Qed.

Lemma fge_negb_flt x n : isnan x = false → isnan n = false → fge x n = negb (flt x n).
Proof.
  unfold fge. destruct x as [| |a|], n as [| |b|]; simpl; try done. intros _ _.
  destruct (decide (a < b)%Qc) as [Hlt|Hge].
  - rewrite (bool_decide_eq_true_2 _ Hlt). simpl. apply bool_decide_eq_false.
    by apply Qclt_not_le.
  - rewrite (bool_decide_eq_false_2 _ Hge). simpl. apply bool_decide_eq_true.
    by apply Qcnot_lt_le.
Qed.

Lemma split_data_run data n h df :
  h !! data = Some df →
  split_data data n h =
    (d ← df_get "date_id" df;
     let h1 := <[fresh (dom h) := df_select ((λ x, flt x n) <$> values d) df]> h in
     Some ((fresh (dom h), fresh (dom h1)),
           <[fresh (dom h1) := df_select ((λ x, fge x n) <$> values d) df]> h1)).
Proof.
  intros Hd. unfold split_data.
  unfold bind at 1. rewrite (getitem_run _ _ _ _ Hd).
  destruct (df_get "date_id" df) as [d|] eqn:Hdate; cbn [mbind option_bind]; [|reflexivity].
  unfold bind at 1. rewrite (select_run _ _ _ _ Hd).
  unfold bind at 1. rewrite (getitem_run _ _ _ df) by (by apply lookup_alloc).
  rewrite Hdate. cbn [mbind option_bind].
  unfold bind at 1. rewrite (select_run _ _ _ df) by (by apply lookup_alloc).
  reflexivity.
Qed.

(** C4 (as amended).  On a well-formed table with a [date_id] column,
    [split_data] returns two new tables: [train] holds exactly the rows
    with [date_id < n] and [test] exactly the rows with [date_id >= n],
    both in their original order; no row is in both; and when no
    [date_id] is missing and [n] is a number, the two together are the
    rows of the input, so the two row counts add up to the input's.  The
    caller's table is unchanged. *)
Theorem split_data_partition h data df s n :
  h !! data = Some df → well_formed df → df_get "date_id" df = Some s →
  ∃ tr te h' train test,
    split_data data n h = Some ((tr, te), h') ∧
    h' !! tr = Some train ∧ h' !! te = Some test ∧ h' !! data = Some df ∧
    rows train = filter (λ r, flt (row_value "date_id" r) n = true) (rows df) ∧
    rows test = filter (λ r, fge (row_value "date_id" r) n = true) (rows df) ∧
    (∀ r, r ∈ rows train → r ∉ rows test) ∧
    (has_missing s = false → isnan n = false →
       rows train ++ rows test ≡ₚ rows df ∧
       length (rows train) + length (rows test) = length (rows df)).
Proof.
  intros Hd Hwf Hs. rewrite (split_data_run _ _ _ _ Hd), Hs. cbn [mbind option_bind].
  eexists _, _, _, _, _. split; [done|].
  split; [apply lookup_alloc, lookup_insert_eq|]. split; [apply lookup_insert_eq|].
  split; [by apply lookup_alloc, lookup_alloc|].
  rewrite !(select_rows _ _ _ _ Hwf Hs).
  split; [done|]. split; [done|]. split.
  - intros r [Hlt _]%list_elem_of_filter [Hge _]%list_elem_of_filter.
    apply flt_fge_exclusive in Hlt. congruence.
  - intros Hm Hn.
    assert (filter (λ r, fge (row_value "date_id" r) n = true) (rows df) =
            mask_filter (negb <$> ((λ x, flt x n) <$> values s)) (rows df)) as ->.
    { rewrite <-(select_rows (λ x, fge x n) _ _ _ Hwf Hs), rows_select by done. f_equal.
      rewrite <-list_fmap_compose. apply Forall_fmap_ext.
      apply has_missing_false in Hm. eapply list.Forall_impl; [exact Hm|].
      intros x Hx. simpl. by apply fge_negb_flt. }
    rewrite <-(select_rows (λ x, flt x n) _ _ _ Hwf Hs), rows_select by done.
    assert (mask_filter ((λ x, flt x n) <$> values s) (rows df) ++
            mask_filter (negb <$> ((λ x, flt x n) <$> values s)) (rows df) ≡ₚ rows df)
      as Hperm.
    { apply mask_filter_complement.
      rewrite length_fmap, <-(rows_column _ _ _ Hwf Hs). by rewrite length_fmap. }
    split; [done|]. by rewrite <-length_app, Hperm.
Qed.

Lemma split_data_partition_witness :
  ∃ tr te h' train test,
    split_data 0 (num 2) {[0 := book_df]} = Some ((tr, te), h') ∧
    h' !! tr = Some train ∧ h' !! te = Some test ∧ h' !! 0 = Some book_df ∧
    rows train = filter (λ r, flt (row_value "date_id" r) (num 2) = true) (rows book_df) ∧
    rows test = filter (λ r, fge (row_value "date_id" r) (num 2) = true) (rows book_df) ∧
    (∀ r, r ∈ rows train → r ∉ rows test) ∧
    (has_missing (IntS [1; 1; 2; 3]%Z) = false → isnan (num 2) = false →
       rows train ++ rows test ≡ₚ rows book_df ∧
       length (rows train) + length (rows test) = length (rows book_df)).
Proof.
  apply (split_data_partition {[0 := book_df]} 0 book_df (IntS [1; 1; 2; 3]%Z) (num 2)).
  - reflexivity.
  - by_evaluation.
  - reflexivity.
Defined.

(** C4 as stated fails.  The second row of [undated_df] has no
    [date_id]: with [n = 1] it is in neither output, and the two row
    counts add up to [1] for an input of [2] rows. *)
Lemma split_data_missing_date_counterexample :
  ∃ tr te h' train test,
    split_data 0 (num 1) {[0 := undated_df]} = Some ((tr, te), h') ∧
    h' !! tr = Some train ∧ h' !! te = Some test ∧
    length (rows undated_df) = 2 ∧
    length (rows train) = 0 ∧ length (rows test) = 1 ∧
    (∃ r, rows undated_df !! 1 = Some r ∧ (r ∉ rows train) ∧ (r ∉ rows test)).
Proof.
  eexists _, _, _, _, _.
  split; [vm_compute; reflexivity|].
  split; [vm_compute; reflexivity|].
  split; [vm_compute; reflexivity|].
  split; [by_evaluation|]. split; [by_evaluation|]. split; [by_evaluation|].
  eexists. split; [vm_compute; reflexivity|]. split; by_evaluation.
Qed.

(** ** [remove_extreme_values] *)

Lemma in_band_present lo hi x : in_band lo hi x = true → isnan x = false.
Proof.
  unfold in_band, fge. intros [Hge _]%andb_true_iff. by destruct lo, x.
Qed.

Lemma column_names_select mask df : column_names (df_select mask df) = column_names df.
Proof.
  unfold column_names, df_select. cbn [columns].
  rewrite <-list_fmap_compose. by apply list_fmap_ext; intros _ [k s] _.
Qed.

Lemma has_columns_select cs mask df :
  has_columns cs df → has_columns cs (df_select mask df).
Proof.
  unfold has_columns. intros Hcs. eapply list.Forall_impl; [exact Hcs|].
  intros c [s Hs]. rewrite df_get_select, Hs. by eexists.
Qed.

Section outlier_filter.
Context `{Numerics}.

Lemma trim_column_run sigma r c h df :
  h !! r = Some df →
  trim_column sigma r c h =
    (s ← df_get c df;
     let lower_bound := fsub (series_mean s) (fmul sigma (series_std s)) in
     let upper_bound := fadd (series_mean s) (fmul sigma (series_std s)) in
     Some (fresh (dom h),
           <[fresh (dom h) := df_select (band_mask lower_bound upper_bound s) df]> h)).
Proof.
  intros Hr. unfold trim_column.
  unfold bind at 1. rewrite (getitem_run _ _ _ _ Hr).
  destruct (df_get c df) as [s|] eqn:Hs; cbn [mbind option_bind]; [|reflexivity].
  cbv zeta.
  unfold bind at 1. rewrite (getitem_run _ _ _ _ Hr), Hs. cbn [mbind option_bind].
  unfold bind at 1. rewrite (getitem_run _ _ _ _ Hr), Hs. cbn [mbind option_bind].
  unfold bind at 1. rewrite (getitem_run _ _ _ _ Hr), Hs. cbn [mbind option_bind].
  by rewrite (select_run _ _ _ _ Hr).
Qed.

Lemma trim_df_total sigma cs : ∀ df,
  has_columns cs df → is_Some (trim_df sigma cs df).
Proof.
  induction cs as [|c cs IH]; intros df Hcs; cbn [trim_df]; [by eexists|].
  inversion_clear Hcs as [|? ? [s Hs] Hcs']. rewrite Hs. cbn [mbind option_bind].
  cbv zeta. apply IH. by apply has_columns_select.
Qed.

(** The loop allocates a new table per column and touches no other. *)
Lemma trim_columns_run sigma cs : ∀ r h df out,
  h !! r = Some df → trim_df sigma cs df = Some out →
  ∃ r' h',
    trim_columns sigma cs r h = Some (r', h') ∧ h' !! r' = Some out ∧
    (∀ l v, h !! l = Some v → h' !! l = Some v) ∧
    (r' = r ∨ h !! r' = None).
Proof.
  induction cs as [|c cs IH]; intros r h df out Hr; cbn [trim_df trim_columns].
  - intros [= <-]. exists r, h. repeat split; auto.
  - destruct (df_get c df) as [s|] eqn:Hs; [|done]. cbn [mbind option_bind]. cbv zeta.
    intros Hout.
    set (d := df_select _ df) in Hout.
    destruct (IH (fresh (dom h)) (<[fresh (dom h) := d]> h) d out
                (lookup_insert_eq _ _ _) Hout) as (r' & h' & Hrun & Hr' & Hkeep & Hnew).
    exists r', h'. unfold bind at 1. rewrite (trim_column_run _ _ _ _ _ Hr), Hs.
    cbn [mbind option_bind]. cbv zeta. fold d.
    split; [exact Hrun|]. split; [exact Hr'|]. split.
    + intros l v Hl. by apply Hkeep, lookup_alloc.
    + right. destruct Hnew as [->|Hnone]; [apply fresh_lookup|].
      destruct (h !! r') as [v|] eqn:Hv; [|done].
      by rewrite (lookup_alloc _ _ _ d Hv) in Hnone.
Qed.

(** The columnar loop computes the row-level filter of the
    specification. *)
Lemma trim_df_rows sigma cs : ∀ df out,
  well_formed df → trim_df sigma cs df = Some out →
  rows out = trim_rows sigma cs (rows df) ∧ column_names out = column_names df.
Proof.
  induction cs as [|c cs IH]; intros df out Hwf; cbn [trim_df trim_rows].
  - by intros [= <-].
  - destruct (df_get c df) as [s|] eqn:Hs; [|done]. cbn [mbind option_bind]. cbv zeta.
    intros Hout. apply IH in Hout as [Hrows Hnames]; [|by apply well_formed_select].
    rewrite Hrows, Hnames, column_names_select. split; [|done].
    rewrite band_mask_in_band.
    rewrite (select_rows (in_band _ _) _ _ _ Hwf Hs).
    unfold series_mean, series_std.
    by rewrite (rows_column _ _ _ Hwf Hs).
Qed.

Lemma trim_rows_sound sigma cs : ∀ rs row,
  row ∈ trim_rows sigma cs rs →
  row ∈ rs ∧ ∀ c, c ∈ cs → isnan (row_value c row) = false.
Proof.
  induction cs as [|c cs IH]; intros rs row; cbn [trim_rows].
  - intros Hin. split; [done|]. by intros c ?%elem_of_nil.
  - cbv zeta. intros [Hin Hcs]%IH.
    apply list_elem_of_filter in Hin as [Hband Hin]. split; [done|].
    intros c' [->|Hc']%elem_of_cons; [|by apply Hcs].
    by eapply in_band_present.
Qed.

Lemma remove_extreme_values_total h X df cs sigma :
  h !! X = Some df → has_columns cs df →
  ∃ r h' out,
    trim_df sigma cs df = Some out ∧
    remove_extreme_values X cs sigma h = Some (r, h') ∧ h' !! r = Some out ∧
    h !! r = None ∧ (∀ l v, h !! l = Some v → h' !! l = Some v).
Proof.
  intros HX Hcs. destruct (trim_df_total sigma cs df Hcs) as [out Hout].
  destruct (trim_columns_run sigma cs (fresh (dom h)) (<[fresh (dom h) := df]> h) df out
              (lookup_insert_eq _ _ _) Hout) as (r & h' & Hrun & Hr & Hkeep & Hnew).
  exists r, h', out. split; [done|]. split.
  { unfold remove_extreme_values. by rewrite (bind_run _ _ _ _ _ (copy_run _ _ _ HX)). }
  split; [done|]. split.
  - destruct Hnew as [->|Hnone]; [apply fresh_lookup|].
    destruct (h !! r) as [v|] eqn:Hv; [|done].
    by rewrite (lookup_alloc _ _ _ df Hv) in Hnone.
  - intros l v Hl. by apply Hkeep, lookup_alloc.
Qed.

(** C5.  [remove_extreme_values] goes through the columns in the given
    order; for each it takes the mean and the sample standard deviation
    over the rows left by the previous columns and keeps exactly the rows
    whose value lies in the closed band
    [[mean - sigma * std, mean + sigma * std]].  The result is a new
    table and no table of the caller is changed. *)
Theorem remove_extreme_values_sequential h X df cs sigma :
  h !! X = Some df → well_formed df → has_columns cs df →
  ∃ r h' out,
    remove_extreme_values X cs sigma h = Some (r, h') ∧ h' !! r = Some out ∧
    rows out = trim_rows sigma cs (rows df) ∧
    column_names out = column_names df ∧
    h !! r = None ∧
    (∀ l v, h !! l = Some v → h' !! l = Some v).
Proof.
  intros HX Hwf Hcs.
  destruct (remove_extreme_values_total h X df cs sigma HX Hcs)
    as (r & h' & out & Hout & Hrun & Hr & Hnew & Hkeep).
  destruct (trim_df_rows _ _ _ _ Hwf Hout) as [Hrows Hnames].
  by exists r, h', out.
Qed.

(** C10.  Whatever [sigma] is, no row with a missing value in one of
    the listed columns is in the result of [remove_extreme_values], and
    every row of the result is a row of the input. *)
Theorem remove_extreme_values_drops_missing h X df cs sigma :
  h !! X = Some df → well_formed df → has_columns cs df →
  ∃ r h' out,
    remove_extreme_values X cs sigma h = Some (r, h') ∧ h' !! r = Some out ∧
    (∀ row, row ∈ rows out → row ∈ rows df) ∧
    (∀ row c, c ∈ cs → isnan (row_value c row) = true → row ∉ rows out).
Proof.
  intros HX Hwf Hcs.
  destruct (remove_extreme_values_total h X df cs sigma HX Hcs)
    as (r & h' & out & Hout & Hrun & Hr & _).
  destruct (trim_df_rows _ _ _ _ Hwf Hout) as [Hrows _].
  exists r, h', out. split; [done|]. split; [done|]. rewrite Hrows. split.
  - by intros row [? _]%trim_rows_sound.
  - intros row c Hc Hnan [_ Hpresent]%trim_rows_sound.
    specialize (Hpresent c Hc). congruence.
Qed.
End outlier_filter.

Lemma remove_extreme_values_sequential_witness :
  ∃ r h' out,
    remove_extreme_values (H := demo) 0 ["bid_size"; "ask_price"] (num 4) {[0 := book_df]}
      = Some (r, h') ∧
    h' !! r = Some out ∧
    rows out = trim_rows (H := demo) (num 4) ["bid_size"; "ask_price"] (rows book_df) ∧
    column_names out = column_names book_df ∧
    ({[0 := book_df]} : gmap loc DataFrame) !! r = None ∧
    (∀ l v, ({[0 := book_df]} : gmap loc DataFrame) !! l = Some v → h' !! l = Some v).
Proof.
  apply (remove_extreme_values_sequential (H := demo) {[0 := book_df]} 0 book_df).
  - reflexivity.
  - by_evaluation.
  - by_evaluation.
Defined.

Lemma remove_extreme_values_drops_missing_witness :
  ∃ r h' out,
    remove_extreme_values (H := demo) 0 ["ask_size"; "ask_price"] (num 4) {[0 := book_df]}
      = Some (r, h') ∧
    h' !! r = Some out ∧
    (∀ row, row ∈ rows out → row ∈ rows book_df) ∧
    (∀ row c, c ∈ ["ask_size"; "ask_price"] → isnan (row_value c row) = true →
              row ∉ rows out).
Proof.
  apply (remove_extreme_values_drops_missing (H := demo) {[0 := book_df]} 0 book_df).
  - reflexivity.
  - by_evaluation.
  - by_evaluation.
Defined.

(** ** The worked examples of the specification *)

(** With [sigma = 4], one outlier of [100] among twenty zeros is removed
    and the zeros are kept. *)
Example remove_extreme_values_spike :
  ∃ r h' out,
    remove_extreme_values (H := demo) 0 ["wap"] (num 4) {[0 := spike_df]} = Some (r, h') ∧
    h' !! r = Some out ∧
    index out = seq 0 20 ∧
    df_get "wap" out = Some (FloatS (replicate 20 (num 0))).
Proof.
  eexists _, _, _.
  split; [vm_compute; reflexivity|].
  split; [vm_compute; reflexivity|].
  split; by_evaluation.
Qed.

(** Dates [1..5] split at [n = 3]: dates [1, 2] go to the train table
    and [3, 4, 5] to the test table. *)
Example split_data_week :
  ∃ tr te h' train test,
    split_data 0 (num 3) {[0 := week_df]} = Some ((tr, te), h') ∧
    h' !! tr = Some train ∧ h' !! te = Some test ∧
    df_get "date_id" train = Some (IntS [1; 2]%Z) ∧
    df_get "date_id" test = Some (IntS [3; 4; 5]%Z) ∧
    index train = [0; 1] ∧ index test = [2; 3; 4].
Proof.
  eexists _, _, _, _, _.
  split; [vm_compute; reflexivity|].
  split; [vm_compute; reflexivity|].
  split; [vm_compute; reflexivity|].
  repeat split; by_evaluation.
Qed.

(** The three flag values of [book_df] give the indicator columns
    [imbalance_flag_neg_1], [imbalance_flag_0] and [imbalance_flag_1]. *)
Example data_preprocessing_book_columns :
  ∃ r h' out,
    data_preprocessing (H := demo) 0 false {[0 := book_df]} = Some (r, h') ∧
    h' !! r = Some out ∧
    column_names out =
      ["date_id"; "bid_size"; "ask_size"; "imbalance_size"; "matched_size";
       "ask_price"; "bid_price"; "far_price"; "near_price";
       "imbalance_flag_neg_1"; "imbalance_flag_0"; "imbalance_flag_1"] ∧
    df_get "imbalance_flag_neg_1" out = Some (IntS [0; 0; 1; 0]%Z).
Proof.
  eexists _, _, _.
  split; [vm_compute; reflexivity|].
  split; [vm_compute; reflexivity|].
  split; by_evaluation.
Qed.

(** * Further properties of the four transformations *)

(** ** Shapes: column names, row labels, one cell per row *)

Lemma assign_col_names_new c s cols :
  (assign_col c s cols).*1 = cols.*1 ++ (if decide (c ∈ cols.*1) then [] else [c]).
Proof.
  induction cols as [|[k v] cols IH].
  - destruct (decide (c ∈ ([] : list (string * Series)).*1)) as [Hin|_]; [|done].
    by apply elem_of_nil in Hin.
  - cbn [assign_col]. destruct (decide (k = c)) as [->|Hne].
    + destruct (decide (c ∈ ((c, v) :: cols).*1)) as [_|Hin].
      * by rewrite app_nil_r.
      * destruct Hin. apply list_elem_of_here.
    + rewrite !fmap_cons, IH. cbn [fst]. rewrite <-app_comm_cons. f_equal. f_equal.
      destruct (decide (c ∈ cols.*1)) as [Hin|Hin];
        destruct (decide (c ∈ k :: cols.*1)) as [Hin'|Hin']; try done.
      * destruct Hin'. by apply list_elem_of_further.
      * apply elem_of_cons in Hin' as [->|?]; done.
Qed.

Lemma column_names_set c s df :
  column_names (df_set c s df) =
    column_names df ++ (if decide (c ∈ column_names df) then [] else [c]).
Proof. apply assign_col_names_new. Qed.

Lemma column_names_fillna v df : column_names (df_fillna v df) = column_names df.
Proof.
  unfold column_names, df_fillna; simpl.
  rewrite <-list_fmap_compose. by apply list_fmap_ext; intros ? [??].
Qed.

Lemma series_len_fillna v s : series_len (series_fillna v s) = series_len s.
Proof. destruct s; simpl; [done|by rewrite length_fmap]. Qed.

Lemma well_formed_get df c s :
  well_formed df → df_get c df = Some s → series_len s = length (index df).
Proof.
  intros Hwf Hs. apply lookup_col_Some_elem in Hs.
  by apply (proj1 (list.Forall_forall _ _) Hwf (c, s)).
Qed.

Lemma well_formed_set c s df :
  well_formed df → series_len s = length (index df) → well_formed (df_set c s df).
Proof.
  unfold well_formed, df_set; simpl. intros Hwf Hs.
  induction Hwf as [|[k v] cols Hk Hwf IH]; simpl.
  - by repeat constructor.
  - destruct (decide (k = c)); constructor; done.
Qed.

Lemma well_formed_fillna v df : well_formed df → well_formed (df_fillna v df).
Proof.
  unfold well_formed, df_fillna; simpl. intros Hwf.
  apply Forall_fmap. eapply list.Forall_impl; [exact Hwf|].
  intros [k s]; simpl. by rewrite series_len_fillna.
Qed.

Lemma series_len_sub a b :
  series_len (series_sub a b) = series_len a `min` series_len b.
Proof.
  destruct a as [xs|xs], b as [ys|ys]; cbn [series_sub series_len values];
    unfold ints; by rewrite length_zip_with, ?length_fmap.
Qed.

Lemma series_len_add a b :
  series_len (series_add a b) = series_len a `min` series_len b.
Proof.
  destruct a as [xs|xs], b as [ys|ys]; cbn [series_add series_len values];
    unfold ints; by rewrite length_zip_with, ?length_fmap.
Qed.

Lemma series_len_mul a b :
  series_len (series_mul a b) = series_len a `min` series_len b.
Proof.
  destruct a as [xs|xs], b as [ys|ys]; cbn [series_mul series_len values];
    unfold ints; by rewrite length_zip_with, ?length_fmap.
Qed.

Lemma series_len_div a b :
  series_len (series_div a b) = series_len a `min` series_len b.
Proof.
  rewrite !series_len_values. apply length_zip_with.
Qed.

Lemma rows_of_index idx : ∀ cols, (rows_of idx cols).*1 = idx.
Proof. induction idx as [|l idx IH]; intros cols; simpl; [done|by rewrite IH]. Qed.

Lemma rows_index df : (rows df).*1 = index df.
Proof. apply rows_of_index. Qed.

Lemma rows_length df : length (rows df) = length (index df).
Proof. apply rows_of_length. Qed.

Lemma names_snoc (N cs : list string) c :
  c ∉ cs →
  (N ++ filter (λ k, k ∉ N) cs) ++
    (if decide (c ∈ N ++ filter (λ k, k ∉ N) cs) then [] else [c]) =
  N ++ filter (λ k, k ∉ N) (cs ++ [c]).
Proof.
  intros Hc. rewrite list.filter_app, (assoc_L (++)). f_equal.
  rewrite filter_cons, filter_nil.
  destruct (decide (c ∈ N ++ filter (λ k, k ∉ N) cs)) as [Hin|Hin];
    destruct (decide (c ∉ N)) as [Hn|Hn]; try done.
  - apply elem_of_app in Hin as [Hin|Hin]; [done|].
    apply list_elem_of_filter in Hin as [_ Hin]. done.
  - destruct Hin. apply elem_of_app; left.
    by destruct (decide (c ∈ N)).
Qed.

Lemma engineered_names df B A I M P Q :
  column_names (engineered df B A I M P Q) =
    column_names df ++ filter (λ c, c ∉ column_names df) derived_columns.
Proof.
  unfold engineered. cbv zeta. rewrite !column_names_set.
  generalize (column_names df); intros N.
  pose proof (names_snoc N [] "liquidity_imbalance") as H1.
  rewrite filter_nil, app_nil_r in H1. rewrite H1 by apply not_elem_of_nil.
  rewrite (names_snoc N _ "matched_imbalance") by by_evaluation.
  rewrite (names_snoc N _ "price_spread") by by_evaluation.
  rewrite (names_snoc N _ "market_urgency") by by_evaluation.
  done.
Qed.

Lemma engineered_well_formed df B A I M P Q :
  well_formed df →
  df_get "bid_size" df = Some B → df_get "ask_size" df = Some A →
  df_get "imbalance_size" df = Some I → df_get "matched_size" df = Some M →
  df_get "ask_price" df = Some P → df_get "bid_price" df = Some Q →
  well_formed (engineered df B A I M P Q).
Proof.
  intros Hwf HB HA HI HM HP HQ.
  pose proof (well_formed_get _ _ _ Hwf HB). pose proof (well_formed_get _ _ _ Hwf HA).
  pose proof (well_formed_get _ _ _ Hwf HI). pose proof (well_formed_get _ _ _ Hwf HM).
  pose proof (well_formed_get _ _ _ Hwf HP). pose proof (well_formed_get _ _ _ Hwf HQ).
  unfold engineered. cbv zeta.
  repeat (apply well_formed_set; [|cbn [index df_set];
    rewrite ?series_len_mul, ?series_len_div, ?series_len_sub, ?series_len_add; lia]).
  exact Hwf.
Qed.

(** X1. The result of [feature_engineering] has the rows of its input, in
    the same order and with the same labels; its columns are the input's
    columns in their order, followed by those of the four derived columns
    that the input did not already have (a derived column the input had is
    overwritten where it stood); every column has one cell per row. *)
Theorem feature_engineering_layout h X df :
  h !! X = Some df → well_formed df → has_columns base_columns df →
  ∃ r h' out,
    feature_engineering X h = Some (r, h') ∧ h' !! r = Some out ∧
    index out = index df ∧
    column_names out =
      column_names df ++ filter (λ c, c ∉ column_names df) derived_columns ∧
    well_formed out ∧
    length (rows out) = length (rows df).
Proof.
  intros HX Hwf Hcols.
  destruct (feature_engineering_total X h df HX Hcols) as (out & Hout & Hrun).
  exists (fresh (dom h)), (<[fresh (dom h) := out]> h), out.
  split; [done|]. split; [by rewrite lookup_insert_eq|].
  destruct (feature_engineering_df_inv _ _ Hout)
    as (B & A & I & M & P & Q & HB & HA & HI & HM & HP & HQ & ->).
  split; [done|]. split; [|split].
  - by rewrite column_names_fillna, engineered_names.
  - by apply well_formed_fillna, engineered_well_formed.
  - by rewrite !rows_length.
Qed.

Lemma feature_engineering_layout_witness :
  ∃ r h' out,
    feature_engineering 0 {[0 := book_df]} = Some (r, h') ∧ h' !! r = Some out ∧
    index out = index book_df ∧
    column_names out =
      column_names book_df ++ filter (λ c, c ∉ column_names book_df) derived_columns ∧
    well_formed out ∧
    length (rows out) = length (rows book_df).
Proof.
  apply (feature_engineering_layout {[0 := book_df]} 0 book_df).
  - reflexivity.
  - unfold well_formed. simpl. repeat constructor.
  - unfold has_columns, base_columns. repeat constructor; by eexists.
Defined.

(** ** [feature_engineering]: required columns *)

(** X2. [feature_engineering] raises (out of [eval] or of a column access)
    exactly when one of the six base columns is absent from the table,
    whatever else the table holds. *)
Theorem feature_engineering_key_error h X df :
  h !! X = Some df →
  feature_engineering X h = None ↔ ¬ has_columns base_columns df.
Proof.
  intros HX. rewrite (feature_engineering_run X h df HX). split.
  - intros Hnone Hcols.
    destruct (feature_engineering_df_total df Hcols) as [out Hout].
    by rewrite Hout in Hnone.
  - intros Hno. destruct (feature_engineering_df df) as [out|] eqn:Hout; [|done].
    destruct Hno.
    destruct (feature_engineering_df_inv _ _ Hout)
      as (B & A & I & M & P & Q & HB & HA & HI & HM & HP & HQ & _).
    unfold has_columns, base_columns. repeat constructor; by eexists.
Qed.

Lemma feature_engineering_key_error_witness :
  feature_engineering 0 {[0 := week_df]} = None ↔ ¬ has_columns base_columns week_df.
Proof. apply (feature_engineering_key_error {[0 := week_df]} 0 week_df). reflexivity. Defined.

(** ** [feature_engineering]: range of the imbalance ratios *)

(** X3. On every row whose two sizes are missing or finite and not negative,
    [liquidity_imbalance] is a finite number between [-1] and [1]; so is
    [matched_imbalance] for [imbalance_size] and [matched_size]. *)
Theorem feature_engineering_imbalance_range h X df :
  h !! X = Some df → has_columns base_columns df →
  ∃ r h' out,
    feature_engineering X h = Some (r, h') ∧ h' !! r = Some out ∧
    (∀ i b a,
       cell df "bid_size" i = Some b → cell df "ask_size" i = Some a →
       regular_size b → regular_size a →
       ∃ v, cell out "liquidity_imbalance" i = Some (Fin v) ∧
            (- (1) ≤ v)%Qc ∧ (v ≤ 1)%Qc) ∧
    (∀ i m s,
       cell df "imbalance_size" i = Some m → cell df "matched_size" i = Some s →
       regular_size m → regular_size s →
       ∃ v, cell out "matched_imbalance" i = Some (Fin v) ∧
            (- (1) ≤ v)%Qc ∧ (v ≤ 1)%Qc).
Proof.
  intros HX Hcols.
  destruct (feature_engineering_total X h df HX Hcols) as (out & Hout & Hrun).
  exists (fresh (dom h)), (<[fresh (dom h) := out]> h), out.
  split; [done|]. split; [by rewrite lookup_insert_eq|]. split.
  - intros i b a Hb Ha Rb Ra.
    destruct (cell_typed_inv _ _ _ _ Hb) as (ub & Tb & <-).
    destruct (cell_typed_inv _ _ _ _ Ha) as (ua & Ta & <-).
    rewrite (cell_liquidity_imbalance df out Hout), Tb, Ta. cbn [mbind option_bind].
    destruct (typed_ratio_bounded ub ua) as (v & -> & Hv);
      [by eapply typed_cell_in_int64..|done|done|]. by exists v.
  - intros i m s Hm Hs Rm Rs.
    destruct (cell_typed_inv _ _ _ _ Hm) as (um & Tm & <-).
    destruct (cell_typed_inv _ _ _ _ Hs) as (us & Ts & <-).
    rewrite (cell_matched_imbalance df out Hout), Tm, Ts. cbn [mbind option_bind].
    destruct (typed_ratio_bounded um us) as (v & -> & Hv);
      [by eapply typed_cell_in_int64..|done|done|]. by exists v.
Qed.

Lemma feature_engineering_imbalance_range_witness :
  ∃ r h' out,
    feature_engineering 0 {[0 := book_df]} = Some (r, h') ∧ h' !! r = Some out ∧
    (∀ i b a,
       cell book_df "bid_size" i = Some b → cell book_df "ask_size" i = Some a →
       regular_size b → regular_size a →
       ∃ v, cell out "liquidity_imbalance" i = Some (Fin v) ∧
            (- (1) ≤ v)%Qc ∧ (v ≤ 1)%Qc) ∧
    (∀ i m s,
       cell book_df "imbalance_size" i = Some m → cell book_df "matched_size" i = Some s →
       regular_size m → regular_size s →
       ∃ v, cell out "matched_imbalance" i = Some (Fin v) ∧
            (- (1) ≤ v)%Qc ∧ (v ≤ 1)%Qc).
Proof.
  apply (feature_engineering_imbalance_range {[0 := book_df]} 0 book_df).
  - reflexivity.
  - unfold has_columns, base_columns. repeat constructor; by eexists.
Defined.

(** ** [data_preprocessing] with [remove_missing=True]: the rows kept *)

Lemma complete_rows_lookup df i :
  complete_rows df !! i = Some true →
  ∀ k s x, (k, s) ∈ columns df → values s !! i = Some x → isnan x = false.
Proof.
  unfold complete_rows. generalize (replicate (length (index df)) true).
  induction (columns df) as [|[k0 s0] cols IH]; intros acc Hi k s x Hin Hx.
  - by apply elem_of_nil in Hin.
  - cbn [foldr snd] in Hi.
    apply lookup_zip_with_Some in Hi as (a & b & Hab & Ha & Hb).
    symmetry in Hab. apply andb_true_iff in Hab as [-> ->].
    apply elem_of_cons in Hin as [[= -> ->]|Hin].
    + unfold series_isnull in Ha. rewrite !list_lookup_fmap, Hx in Ha.
      cbn in Ha. injection Ha as Ha. by destruct (isnan x).
    + by apply (IH acc Hb k s x).
Qed.

Lemma mask_filter_Forall {A} (P : A → Prop) mask (xs : list A) :
  (∀ i x, mask !! i = Some true → xs !! i = Some x → P x) →
  Forall P (mask_filter mask xs).
Proof.
  revert xs. induction mask as [|b mask IH]; intros [|x xs] Hall; simpl; try constructor.
  destruct b.
  - constructor; [by apply (Hall 0)|]. apply IH. intros i y. apply (Hall (S i)).
  - apply IH. intros i y. apply (Hall (S i)).
Qed.

Lemma df_dropna_complete df k s :
  (k, s) ∈ columns (df_dropna df) → has_missing s = false.
Proof.
  unfold df_dropna, df_select; simpl.
  intros ([k0 s0] & [= -> ->] & Hin)%list_elem_of_fmap.
  apply has_missing_false. rewrite values_select.
  apply mask_filter_Forall. intros i x Hi Hx.
  by apply (complete_rows_lookup df i Hi k0 s0 x).
Qed.

Lemma complete_heads (b : bool) acc : ∀ cols : list (string * list float64),
  Forall (λ kc, kc.2 ≠ []) cols →
  foldr (λ kc acc, zip_with andb ((λ x, negb (isnan x)) <$> kc.2) acc) (b :: acc) cols =
    (forallb (λ kv : string * float64, negb (isnan kv.2)) (prod_map id (hd NaN) <$> cols) && b)
    :: foldr (λ kc acc, zip_with andb ((λ x, negb (isnan x)) <$> kc.2) acc) acc
         (prod_map id tail <$> cols).
Proof.
  intros cols. induction cols as [|[k xs] cols IH]; intros Hne; [done|].
  inversion_clear Hne as [|?? Hxs Hne']. destruct xs as [|x xs]; [done|].
  cbn [foldr snd]. rewrite (IH Hne'). csimpl. by rewrite andb_assoc.
Qed.

Lemma complete_rows_of idx : ∀ cols : list (string * list float64),
  Forall (λ kc, length kc.2 = length idx) cols →
  foldr (λ kc acc, zip_with andb ((λ x, negb (isnan x)) <$> kc.2) acc)
        (replicate (length idx) true) cols =
    row_complete <$> rows_of idx cols.
Proof.
  induction idx as [|l idx IH]; intros cols Hlen.
  - simpl. induction Hlen as [|[k xs] cols Hk _ IH']; [done|].
    simpl in *. by destruct xs.
  - cbn [length replicate rows_of]. rewrite complete_heads.
    + rewrite fmap_cons. unfold row_complete at 1. cbn [snd].
      rewrite andb_true_r. f_equal. apply IH.
      apply Forall_fmap. eapply list.Forall_impl; [exact Hlen|].
      intros [k xs]; simpl. destruct xs; simpl; [done|]. by intros [= ->].
    + eapply list.Forall_impl; [exact Hlen|]. intros [k xs]; simpl. by destruct xs.
Qed.

Lemma complete_rows_rows df :
  well_formed df → complete_rows df = row_complete <$> rows df.
Proof.
  intros Hwf. unfold rows. rewrite <-complete_rows_of by by apply well_formed_values.
  unfold complete_rows. generalize (replicate (length (index df)) true).
  induction (columns df) as [|[k s] cols IH]; intros acc; [done|].
  cbn [foldr fmap list_fmap snd prod_map]. rewrite IH. f_equal.
  unfold series_isnull. by rewrite <-list_fmap_compose.
Qed.

Lemma rows_dropna df :
  well_formed df → rows (df_dropna df) = filter (λ r, row_complete r = true) (rows df).
Proof.
  intros Hwf. unfold df_dropna. rewrite rows_select by done.
  rewrite complete_rows_rows by done.
  rewrite <-(mask_filter_by_value id row_complete). by rewrite list_fmap_id.
Qed.

Lemma well_formed_impute_columns cs : ∀ df d,
  well_formed df → impute_columns cs df = Some d → well_formed d.
Proof.
  induction cs as [|c cs IH]; intros df d Hwf Hd; simpl in Hd; [by injection Hd as <-|].
  unfold impute_column in Hd. destruct (df_get c df) as [s|] eqn:Hs; [|done].
  cbn [mbind option_bind] in Hd. eapply IH; [|exact Hd].
  apply well_formed_set; [done|].
  rewrite series_len_fillna. by apply (well_formed_get df c).
Qed.

Lemma well_formed_fill_missing df d :
  well_formed df → fill_missing_df df = Some d → well_formed d.
Proof.
  intros Hwf Hd. unfold fill_missing_df in Hd.
  destruct (df_get "far_price" df) as [far|] eqn:Hfar; [|done].
  cbn [mbind option_bind] in Hd. cbv zeta in Hd.
  rewrite df_get_set_ne in Hd by done.
  destruct (df_get "near_price" df) as [near|] eqn:Hnear; [|done].
  cbn [mbind option_bind] in Hd.
  eapply well_formed_impute_columns; [|exact Hd].
  apply well_formed_set; [apply well_formed_set; [done|]|];
    rewrite series_len_fillna; cbn [index df_set]; by eapply well_formed_get.
Qed.

Lemma index_encoder_input_fill df enc :
  encoder_input false df = Some enc → index enc = index df.
Proof. intros Henc. by apply fill_missing_df_names in Henc as [_ ?]. Qed.

Section encoded_shape.
Context `{Numerics}.

Lemma dummies_len prefix s k v : (k, v) ∈ dummies prefix s → series_len v = series_len s.
Proof.
  destruct s as [xs|xs]; simpl;
    intros (lv & [= -> ->] & _)%list_elem_of_fmap; simpl; unfold ints;
    by rewrite !length_fmap.
Qed.

Lemma well_formed_encoded enc d c prefix old new :
  well_formed enc → df_get_dummies c prefix enc = Some d →
  well_formed (df_rename old new d).
Proof.
  intros Hwf Hd. unfold df_get_dummies in Hd.
  destruct (df_get c enc) as [fs|] eqn:Hfs; [|done]. injection Hd as <-.
  unfold well_formed, df_rename; simpl.
  apply Forall_fmap, Forall_app. split.
  - apply list.Forall_forall. intros [k s] [_ Hin]%list_elem_of_filter.
    by apply (proj1 (list.Forall_forall _ _) Hwf (k, s)).
  - apply list.Forall_forall. intros [k s] Hin; simpl.
    rewrite (dummies_len _ _ _ _ Hin). by apply (well_formed_get enc c).
Qed.

Lemma index_encoded enc d c prefix old new :
  df_get_dummies c prefix enc = Some d → index (df_rename old new d) = index enc.
Proof.
  unfold df_get_dummies. destruct (df_get c enc); [|done]. by intros [= <-].
Qed.

(** The run of [data_preprocessing], once the table handed to the
    encoder and the encoded table are known. *)
Lemma data_preprocessing_result h data df remove_missing enc d :
  h !! data = Some df →
  encoder_input remove_missing df = Some enc →
  df_get_dummies flag_column "imbalance_flag" enc = Some d →
  ∃ r h',
    data_preprocessing data remove_missing h = Some (r, h') ∧
    h' !! r = Some (df_rename "imbalance_flag_-1" "imbalance_flag_neg_1" d) ∧
    h' !! data = Some (if remove_missing then df else enc) ∧
    (∀ l v, l ≠ data → h !! l = Some v → h' !! l = Some v).
Proof.
  intros Hdata Henc Hd. unfold flag_column in Hd.
  rewrite (data_preprocessing_run data remove_missing h df Hdata), Henc.
  cbn [mbind option_bind]. cbv zeta. rewrite Hd. cbn [mbind option_bind].
  eexists _, _. split; [reflexivity|]. split; [by rewrite lookup_insert_eq|].
  destruct remove_missing.
  - split.
    + by do 3 apply lookup_alloc.
    + intros l v _ Hl. by do 3 apply lookup_alloc.
  - split.
    + do 2 apply lookup_alloc. by rewrite lookup_insert_eq.
    + intros l v Hne Hl. do 2 apply lookup_alloc. by rewrite lookup_insert_ne.
Qed.

(** X4. With [remove_missing=True] the result has one row per input row that
    holds no missing value in any column, in the original order and under
    the original labels; every column other than the encoded flag keeps its
    cells of those rows; no missing value is left; every column has one cell
    per row. *)
Theorem data_preprocessing_dropna_rows h data df :
  h !! data = Some df → well_formed df → is_Some (df_get flag_column df) →
  ∃ r h' out,
    data_preprocessing data true h = Some (r, h') ∧ h' !! r = Some out ∧
    index out = (filter (λ r, row_complete r = true) (rows df)).*1 ∧
    (∀ c s, c ∉ [flag_column; "imbalance_flag_-1"; "imbalance_flag_neg_1"] →
            df_get c df = Some s →
            df_get c out = Some (series_select (row_complete <$> rows df) s)) ∧
    (∀ k s, (k, s) ∈ columns out → has_missing s = false) ∧
    well_formed out.
Proof.
  intros Hdata Hwf [fs Hfs].
  assert (∃ d, df_get_dummies flag_column "imbalance_flag" (df_dropna df) = Some d)
    as [d Hd].
  { unfold df_get_dummies, df_dropna. rewrite df_get_select, Hfs. by eexists. }
  destruct (data_preprocessing_result h data df true (df_dropna df) d Hdata eq_refl Hd)
    as (r & h' & Hrun & Hr & _).
  exists r, h', (df_rename "imbalance_flag_-1" "imbalance_flag_neg_1" d).
  split; [done|]. split; [done|]. split; [|split; [|split]].
  - rewrite (index_encoded _ _ _ _ _ _ Hd), <-rows_dropna by done.
    by rewrite rows_index.
  - intros c s Hc Hs.
    apply (df_get_encoded (df_dropna df) d c); [done|set_solver..|].
    unfold df_dropna. by rewrite df_get_select, Hs, complete_rows_rows.
  - intros k s. apply (encoded_columns_complete (df_dropna df) d k s Hd).
    apply df_dropna_complete.
  - apply (well_formed_encoded (df_dropna df) d flag_column "imbalance_flag"); [|done].
    by apply well_formed_select.
Qed.

(** X5. With [remove_missing=False] no row is dropped: the result has the
    row labels of the input, every column has one cell per row, and a column
    (other than the encoded flag) that holds no missing value is passed
    through unchanged. *)
Theorem data_preprocessing_fill_keeps_rows h data df :
  h !! data = Some df → well_formed df →
  has_columns (flag_column :: price_columns) df →
  ∃ r h' out,
    data_preprocessing data false h = Some (r, h') ∧ h' !! r = Some out ∧
    index out = index df ∧
    length (rows out) = length (rows df) ∧
    well_formed out ∧
    (∀ c s, c ∉ [flag_column; "imbalance_flag_-1"; "imbalance_flag_neg_1"] →
            df_get c df = Some s → has_missing s = false →
            df_get c out = Some s).
Proof.
  intros Hdata Hwf Hcols.
  destruct (data_preprocessing_fill_total h data df Hdata Hcols)
    as (enc & d & r & h' & Henc & Hd & Hrun & Hr & _).
  exists r, h', (df_rename "imbalance_flag_-1" "imbalance_flag_neg_1" d).
  split; [done|]. split; [done|].
  assert (index (df_rename "imbalance_flag_-1" "imbalance_flag_neg_1" d) = index df)
    as Hidx.
  { rewrite (index_encoded _ _ _ _ _ _ Hd). by apply index_encoder_input_fill. }
  split; [done|]. split; [by rewrite !rows_length, Hidx|]. split.
  - apply (well_formed_encoded enc d flag_column "imbalance_flag"); [|done].
    by apply (well_formed_fill_missing df).
  - intros c s Hc Hs Hcomplete.
    apply (df_get_encoded enc d c); [done|set_solver..|].
    rewrite (fill_missing_df_get df enc c Henc), Hs. cbn. f_equal.
    unfold imputed. case_decide.
    + by apply fillna_no_missing.
    + by apply impute_series_no_missing.
Qed.

End encoded_shape.

Lemma data_preprocessing_dropna_rows_witness :
  ∃ r h' out,
    data_preprocessing (H := demo) 0 true {[0 := partial_df]} = Some (r, h') ∧
    h' !! r = Some out ∧
    index out = (filter (λ r, row_complete r = true) (rows partial_df)).*1 ∧
    (∀ c s, c ∉ [flag_column; "imbalance_flag_-1"; "imbalance_flag_neg_1"] →
            df_get c partial_df = Some s →
            df_get c out = Some (series_select (row_complete <$> rows partial_df) s)) ∧
    (∀ k s, (k, s) ∈ columns out → has_missing s = false) ∧
    well_formed out.
Proof.
  apply (data_preprocessing_dropna_rows (H := demo) {[0 := partial_df]} 0 partial_df).
  - reflexivity.
  - unfold well_formed. simpl. repeat constructor.
  - by eexists.
Defined.

(** Of the two rows of [partial_df] the second is complete: it is the
    one row of the result, with its two prices and the indicator of its
    flag. *)
Example data_preprocessing_dropna_partial :
  ∃ r h' out,
    data_preprocessing (H := demo) 0 true {[0 := partial_df]} = Some (r, h') ∧
    h' !! r = Some out ∧
    out = mkDataFrame [1]
            [("far_price", FloatS [num 10]);
             ("near_price", FloatS [num 11]);
             ("imbalance_flag_1", IntS [1%Z])].
Proof. eexists _, _, _. split; [vm_compute; reflexivity|]. split; reflexivity. Qed.

Lemma data_preprocessing_fill_keeps_rows_witness :
  ∃ r h' out,
    data_preprocessing (H := demo) 0 false {[0 := book_df]} = Some (r, h') ∧
    h' !! r = Some out ∧
    index out = index book_df ∧
    length (rows out) = length (rows book_df) ∧
    well_formed out ∧
    (∀ c s, c ∉ [flag_column; "imbalance_flag_-1"; "imbalance_flag_neg_1"] →
            df_get c book_df = Some s → has_missing s = false →
            df_get c out = Some s).
Proof.
  apply (data_preprocessing_fill_keeps_rows (H := demo) {[0 := book_df]} 0 book_df).
  - reflexivity.
  - unfold well_formed. simpl. repeat constructor.
  - unfold has_columns, price_columns. repeat constructor; by eexists.
Defined.

(** ** [data_preprocessing]: the indicator columns are one-hot *)

Lemma count_fmap_filter {A B} (f : A → B) (P : B → Prop) `{∀ y, Decision (P y)}
    (l : list A) :
  length (filter P (f <$> l)) = length (filter (λ x, P (f x)) l).
Proof.
  induction l as [|x l IH]; [done|].
  rewrite fmap_cons, !filter_cons. destruct (decide (P (f x))); simpl; by rewrite IH.
Qed.

Lemma count_ext {A} (P Q : A → Prop) `{∀ x, Decision (P x)} `{∀ x, Decision (Q x)}
    (l : list A) :
  (∀ x, x ∈ l → P x ↔ Q x) → length (filter P l) = length (filter Q l).
Proof.
  induction l as [|x l IH]; intros Hext; [done|]. rewrite !filter_cons.
  assert (length (filter P l) = length (filter Q l)) as IH'.
  { apply IH. intros y Hy. apply Hext. by apply list_elem_of_further. }
  pose proof (Hext x (list_elem_of_here _ _)) as Hx.
  destruct (decide (P x)), (decide (Q x)); simpl; try rewrite IH'; try done; tauto.
Qed.

Lemma count_level {A} `{EqDecision A} (x : A) (l : list A) :
  NoDup l → length (filter (λ y, x = y) l) = if decide (x ∈ l) then 1 else 0.
Proof.
  induction 1 as [|y l Hy Hnd IH]; [done|].
  rewrite filter_cons.
  destruct (decide (x = y)) as [<-|Hne]; cbn [length]; rewrite IH.
  - rewrite (decide_False (P := x ∈ l)) by done.
    by rewrite decide_True by apply list_elem_of_here.
  - destruct (decide (x ∈ l)) as [Hin|Hin].
    + rewrite decide_True; [done|by apply list_elem_of_further].
    + rewrite decide_False; [done|].
      intros [->|?]%elem_of_cons; done.
Qed.

Lemma hot_count_indicators {A} `{EqDecision A} (xs levels : list A) i x :
  NoDup levels → xs !! i = Some x →
  length (filter (λ s, values s !! i = Some (of_int 1))
            ((λ lv, indicator lv xs) <$> levels)) =
    if decide (x ∈ levels) then 1 else 0.
Proof.
  intros Hnd Hx. rewrite count_fmap_filter, <-(count_level x levels Hnd).
  apply count_ext. intros lv _. unfold indicator; cbn [values]. unfold ints.
  rewrite !list_lookup_fmap, Hx. cbn. destruct (decide (x = lv)) as [Heq|Hne]; split.
  - done.
  - intros _. by_evaluation.
  - intros Hone. exfalso. revert Hone. by_evaluation.
  - done.
Qed.

Lemma hot_count_series fs i x :
  values fs !! i = Some x →
  hot_count i (indicator_series fs) = if isnan x then 0 else 1.
Proof.
  unfold hot_count. destruct fs as [xs|xs]; cbn [values indicator_series]; intros Hx.
  - apply list_lookup_fmap_Some in Hx as (z & -> & Hz).
    destruct (int_levels_exact (ints xs)) as [Hnd Hlv].
    rewrite (hot_count_indicators (ints xs) (int_levels (ints xs)) i z Hnd Hz).
    rewrite decide_True; [done|]. apply Hlv. by apply list_elem_of_lookup_2 in Hz.
  - destruct (float_levels_exact xs) as [Hnd Hlv].
    rewrite (hot_count_indicators xs (float_levels xs) i x Hnd Hx).
    destruct (isnan x) eqn:Hnan.
    + rewrite decide_False; [done|]. intros [_ ?]%Hlv. congruence.
    + rewrite decide_True; [done|]. apply Hlv. split; [|done].
      by apply list_elem_of_lookup_2 in Hx.
Qed.

Lemma indicator_cells fs s i v :
  s ∈ indicator_series fs → values s !! i = Some v → v = of_int 0 ∨ v = of_int 1.
Proof.
  intros Hs Hv.
  assert (∃ ys : list Z, s = IntS ys ∧ Forall (λ y, y = 0%Z ∨ y = 1%Z) ys)
    as (ys & -> & Hys).
  { destruct fs as [xs|xs]; cbn [indicator_series] in Hs;
      apply list_elem_of_fmap in Hs as (lv & -> & _); eexists; (split; [reflexivity|]);
      apply Forall_fmap, list.Forall_forall; intros y _; simpl; case_decide; auto. }
  cbn [values] in Hv. unfold ints in Hv.
  apply list_lookup_fmap_Some in Hv as (y' & -> & Hy').
  apply list_lookup_fmap_Some in Hy' as (y & -> & Hy).
  apply list_elem_of_lookup_2 in Hy.
  apply (proj1 (list.Forall_forall _ _) Hys) in Hy as [-> | ->]; [left|right]; by_evaluation.
Qed.

Section one_hot.
Context `{Numerics}.

(** X6. The indicator columns are a one-hot encoding of the flag column as
    it stands when it is encoded: in every row exactly one indicator holds
    [1] when the flag is present and none when it is missing, and every
    indicator cell is [0] or [1]. *)
Theorem data_preprocessing_one_hot h data df remove_missing :
  h !! data = Some df →
  is_Some (df_get flag_column df) →
  (remove_missing = false → has_columns price_columns df) →
  ∃ r h' out enc fs inds,
    data_preprocessing data remove_missing h = Some (r, h') ∧
    h' !! r = Some out ∧
    encoder_input remove_missing df = Some enc ∧
    df_get flag_column enc = Some fs ∧
    columns out =
      (prod_map (rename_label "imbalance_flag_-1" "imbalance_flag_neg_1") id <$>
         filter (λ cs, cs.1 ≠ flag_column) (columns enc)) ++ inds ∧
    (∀ i x, values fs !! i = Some x →
            hot_count i inds.*2 = if isnan x then 0 else 1) ∧
    (∀ s i v, s ∈ inds.*2 → values s !! i = Some v → v = of_int 0 ∨ v = of_int 1).
Proof.
  intros Hdata Hflag Hprices.
  destruct (encoder_input_total remove_missing df Hflag Hprices)
    as (enc & fs & Henc & Hfs & _).
  assert (df_get_dummies flag_column "imbalance_flag" enc =
            Some (mkDataFrame (index enc)
                    (filter (λ cs, cs.1 ≠ flag_column) (columns enc) ++
                     dummies "imbalance_flag" fs))) as Hd.
  { unfold df_get_dummies. by rewrite Hfs. }
  destruct (data_preprocessing_result h data df remove_missing enc _ Hdata Henc Hd)
    as (r & h' & Hrun & Hr & _).
  eexists r, h', _, enc, fs,
    (prod_map (rename_label "imbalance_flag_-1" "imbalance_flag_neg_1") id <$>
       dummies "imbalance_flag" fs).
  split; [done|]. split; [done|]. split; [done|]. split; [done|]. split.
  { unfold df_rename; simpl. by rewrite fmap_app. }
  rewrite renamed_dummies_series. split.
  - intros i x. apply hot_count_series.
  - intros s i v. apply indicator_cells.
Qed.

End one_hot.

Lemma data_preprocessing_one_hot_witness :
  ∃ r h' out enc fs inds,
    data_preprocessing (H := demo) 0 false {[0 := book_df]} = Some (r, h') ∧
    h' !! r = Some out ∧
    encoder_input false book_df = Some enc ∧
    df_get flag_column enc = Some fs ∧
    columns out =
      (prod_map (rename_label "imbalance_flag_-1" "imbalance_flag_neg_1") id <$>
         filter (λ cs, cs.1 ≠ flag_column) (columns enc)) ++ inds ∧
    (∀ i x, values fs !! i = Some x →
            hot_count i inds.*2 = if isnan x then 0 else 1) ∧
    (∀ s i v, s ∈ inds.*2 → values s !! i = Some v → v = of_int 0 ∨ v = of_int 1).
Proof.
  apply (data_preprocessing_one_hot (H := demo) {[0 := book_df]} 0 book_df false).
  - reflexivity.
  - by eexists.
  - intros _. by_evaluation.
Defined.

(** The flags [1; 0; -1; 1] of the four rows of [book_df] give three
    indicator columns, one per level in increasing order. *)
Example data_preprocessing_one_hot_book :
  ∃ r h' out,
    data_preprocessing (H := demo) 0 false {[0 := book_df]} = Some (r, h') ∧
    h' !! r = Some out ∧
    index out = [0; 1; 2; 3] ∧
    df_get "imbalance_flag_neg_1" out = Some (IntS [0; 0; 1; 0]%Z) ∧
    df_get "imbalance_flag_0" out = Some (IntS [0; 1; 0; 0]%Z) ∧
    df_get "imbalance_flag_1" out = Some (IntS [1; 0; 0; 1]%Z).
Proof.
  eexists _, _, _. split; [vm_compute; reflexivity|]. split; [reflexivity|].
  repeat split; reflexivity.
Qed.

(** ** [data_preprocessing]: required columns *)

Lemma fill_missing_df_inv df enc :
  fill_missing_df df = Some enc → has_columns price_columns df.
Proof.
  unfold fill_missing_df. intros Henc.
  destruct (df_get "far_price" df) as [far|] eqn:Hfar; [|done].
  cbn [mbind option_bind] in Henc. cbv zeta in Henc.
  rewrite df_get_set_ne in Henc by done.
  destruct (df_get "near_price" df) as [near|] eqn:Hnear; [|done].
  unfold has_columns, price_columns. repeat constructor; by eexists.
Qed.

Lemma encoder_input_flag remove_missing df enc :
  encoder_input remove_missing df = Some enc →
  is_Some (df_get flag_column enc) → is_Some (df_get flag_column df).
Proof.
  intros Henc [fs Hfs]. destruct remove_missing; simpl in Henc.
  - injection Henc as <-. unfold df_dropna in Hfs. rewrite df_get_select in Hfs.
    destruct (df_get flag_column df); [by eexists|done].
  - rewrite (fill_missing_df_get df enc _ Henc) in Hfs.
    destruct (df_get flag_column df); [by eexists|done].
Qed.

Section preprocessing_errors.
Context `{Numerics}.

(** X7. [data_preprocessing] raises exactly when the table lacks
    [imbalance_buy_sell_flag], or, with [remove_missing=False], lacks
    [far_price] or [near_price]; with [remove_missing=True] the two price
    columns are not needed. *)
Theorem data_preprocessing_key_error h data df remove_missing :
  h !! data = Some df →
  data_preprocessing data remove_missing h = None ↔
    ¬ (is_Some (df_get flag_column df) ∧
       (remove_missing = false → has_columns price_columns df)).
Proof.
  intros Hdata. split.
  - intros Hnone [Hflag Hprices].
    destruct (encoder_input_total remove_missing df Hflag Hprices)
      as (enc & fs & Henc & Hfs & _).
    assert (∃ d, df_get_dummies flag_column "imbalance_flag" enc = Some d) as [d Hd].
    { unfold df_get_dummies. rewrite Hfs. by eexists. }
    destruct (data_preprocessing_result h data df remove_missing enc d Hdata Henc Hd)
      as (r & h' & Hrun & _).
    by rewrite Hrun in Hnone.
  - intros Hno.
    destruct (data_preprocessing data remove_missing h) as [[r h']|] eqn:Hrun; [|done].
    destruct Hno.
    rewrite (data_preprocessing_run data remove_missing h df Hdata) in Hrun.
    destruct (encoder_input remove_missing df) as [enc|] eqn:Henc; [|done].
    cbn [mbind option_bind] in Hrun. cbv zeta in Hrun.
    unfold df_get_dummies in Hrun.
    destruct (df_get "imbalance_buy_sell_flag" enc) as [fs|] eqn:Hfs; [|done].
    split.
    + apply (encoder_input_flag remove_missing df enc Henc). by exists fs.
    + intros ->. by apply (fill_missing_df_inv df enc).
Qed.

Lemma lookup_col_filter_eq {A} c (cols : list (string * A)) :
  lookup_col c (filter (λ cs, cs.1 ≠ c) cols) = None.
Proof.
  induction cols as [|[k s] cols IH]; [done|].
  rewrite filter_cons. cbn [fst]. destruct (decide (k ≠ c)) as [Hne|_]; [|done].
  cbn [lookup_col]. by rewrite decide_False.
Qed.

Lemma lookup_col_None {A} c (cols : list (string * A)) :
  c ∉ cols.*1 → lookup_col c cols = None.
Proof.
  intros Hc. destruct (lookup_col c cols) as [s|] eqn:Hs; [|done].
  destruct Hc. apply lookup_col_Some_elem in Hs.
  apply list_elem_of_fmap. by exists (c, s).
Qed.

Lemma dummies_names prefix s k :
  k ∈ (dummies prefix s).*1 → ∃ t, k = prefix +:+ "_" +:+ t.
Proof.
  intros ([k' v] & -> & Hin)%list_elem_of_fmap.
  destruct s as [xs|xs]; cbn [dummies] in Hin;
    apply list_elem_of_fmap in Hin as (lv & [= -> ->] & _); by eexists.
Qed.

Lemma flag_column_consumed enc d :
  df_get_dummies flag_column "imbalance_flag" enc = Some d →
  df_get flag_column (df_rename "imbalance_flag_-1" "imbalance_flag_neg_1" d) = None.
Proof.
  unfold df_get_dummies. destruct (df_get flag_column enc) as [fs|]; [|done].
  intros [= <-]. unfold df_get, df_rename; cbn [columns].
  rewrite lookup_col_rename by done.
  rewrite lookup_col_app, lookup_col_filter_eq.
  apply lookup_col_None. intros (t & Ht)%dummies_names. discriminate Ht.
Qed.

(** X8. [data_preprocessing] cannot be applied to its own result: the flag
    column was replaced by its indicator columns, so a second call on the
    returned table raises, whatever [remove_missing] is. *)
Theorem data_preprocessing_not_repeatable h data df remove_missing r h' :
  h !! data = Some df →
  data_preprocessing data remove_missing h = Some (r, h') →
  ∀ again, data_preprocessing r again h' = None.
Proof.
  intros Hdata Hrun again.
  rewrite (data_preprocessing_run data remove_missing h df Hdata) in Hrun.
  destruct (encoder_input remove_missing df) as [enc|] eqn:Henc; [|done].
  cbn [mbind option_bind] in Hrun. cbv zeta in Hrun.
  destruct (df_get_dummies "imbalance_buy_sell_flag" "imbalance_flag" enc)
    as [d|] eqn:Hd; [|done].
  cbn [mbind option_bind] in Hrun. injection Hrun as <- <-.
  pose proof (flag_column_consumed enc d Hd) as Hgone.
  rewrite (data_preprocessing_run _ again _ _ (lookup_insert_eq _ _ _)).
  destruct (encoder_input again
              (df_rename "imbalance_flag_-1" "imbalance_flag_neg_1" d))
    as [enc'|] eqn:Henc'; [|done].
  cbn [mbind option_bind]. cbv zeta.
  destruct (df_get_dummies "imbalance_buy_sell_flag" "imbalance_flag" enc')
    as [d'|] eqn:Hd'; [|done].
  exfalso.
  assert (is_Some (df_get flag_column enc')) as Hflag.
  { unfold df_get_dummies in Hd'. unfold flag_column.
    destruct (df_get "imbalance_buy_sell_flag" enc'); [by eexists|done]. }
  apply (encoder_input_flag again _ _ Henc') in Hflag as [fs Hfs]. congruence.
Qed.

End preprocessing_errors.

Lemma data_preprocessing_key_error_witness :
  data_preprocessing (H := demo) 0 true {[0 := week_df]} = None ↔
    ¬ (is_Some (df_get flag_column week_df) ∧
       (true = false → has_columns price_columns week_df)).
Proof.
  apply (data_preprocessing_key_error (H := demo) {[0 := week_df]} 0 week_df true).
  reflexivity.
Defined.

Lemma data_preprocessing_not_repeatable_witness :
  ∃ r h',
    data_preprocessing (H := demo) 0 true {[0 := partial_df]} = Some (r, h') ∧
    ∀ again, data_preprocessing (H := demo) r again h' = None.
Proof.
  eexists _, _. split; [vm_compute; reflexivity|].
  apply (data_preprocessing_not_repeatable (H := demo) {[0 := partial_df]} 0 partial_df true).
  - reflexivity.
  - vm_compute; reflexivity.
Defined.

(** ** [data_preprocessing] with [remove_missing=False], called again *)

Lemma assign_col_same c s cols : lookup_col c cols = Some s → assign_col c s cols = cols.
Proof.
  induction cols as [|[k v] cols IH]; [done|]. cbn [lookup_col assign_col].
  destruct (decide (k = c)) as [->|Hne].
  - by intros [= ->].
  - intros Hs. by rewrite IH.
Qed.

Lemma df_set_same c s df : df_get c df = Some s → df_set c s df = df.
Proof.
  intros Hs. destruct df as [idx cols]. unfold df_set; cbn [index columns].
  f_equal. by apply assign_col_same.
Qed.

Lemma impute_columns_fixed cs df :
  (∀ c, c ∈ cs → ∃ s, df_get c df = Some s ∧ impute_series s = s) →
  impute_columns cs df = Some df.
Proof.
  induction cs as [|c cs IH]; intros Hfix; [done|]. cbn [impute_columns].
  destruct (Hfix c (list_elem_of_here _ _)) as (s & Hs & Hsame).
  unfold impute_column. rewrite Hs. cbn [mbind option_bind].
  fold (impute_series s). rewrite Hsame, (df_set_same c s df Hs).
  apply IH. intros c' Hc'. apply Hfix. by apply list_elem_of_further.
Qed.

Lemma impute_series_imputed k s : impute_series (imputed k s) = imputed k s.
Proof.
  unfold imputed. case_decide.
  - apply impute_series_no_missing. by apply has_missing_fillna.
  - apply impute_series_idemp.
Qed.

(** The missing-value step changes nothing when applied to its own
    result. *)
Lemma fill_missing_df_fixed df enc :
  fill_missing_df df = Some enc → fill_missing_df enc = Some enc.
Proof.
  intros Henc. pose proof (fill_missing_df_get df enc) as Hget.
  pose proof (fill_missing_df_inv df enc Henc) as Hprices.
  unfold has_columns, price_columns in Hprices.
  repeat match goal with
         | H : Forall _ (_ :: _) |- _ => inversion_clear H
         | H : is_Some _ |- _ => destruct H
         end.
  match goal with
  | Hf : df_get "far_price" df = Some ?far, Hn : df_get "near_price" df = Some ?near |- _ =>
      pose proof (Hget "far_price" Henc) as Hfar;
      pose proof (Hget "near_price" Henc) as Hnear;
      rewrite Hf in Hfar; rewrite Hn in Hnear
  end.
  cbn [fmap option_fmap option_map] in Hfar, Hnear.
  rewrite imputed_price in Hfar by auto. rewrite imputed_price in Hnear by auto.
  unfold fill_missing_df. rewrite Hfar. cbn [mbind option_bind]. cbv zeta.
  rewrite (fillna_no_missing _ (series_fillna _ _)) by by apply has_missing_fillna.
  rewrite (df_set_same "far_price" _ enc Hfar), Hnear. cbn [mbind option_bind].
  rewrite (fillna_no_missing _ (series_fillna _ _)) by by apply has_missing_fillna.
  rewrite (df_set_same "near_price" _ enc Hnear).
  apply impute_columns_fixed. intros c Hc.
  pose proof (columns_with_missing_are_columns enc) as Hcols.
  apply (proj1 (list.Forall_forall _ _) Hcols) in Hc as [s Hs].
  exists s. split; [done|].
  rewrite (Hget c Henc) in Hs. destruct (df_get c df) as [s0|]; [|done].
  injection Hs as <-. apply impute_series_imputed.
Qed.

(** X9. Calling [data_preprocessing] with [remove_missing=False] a second
    time on the same table object (which the first call has filled in place)
    returns a table equal to the first result and leaves the caller's table
    as the first call left it. *)
Theorem data_preprocessing_fill_again `{Numerics} h data df r1 h1 :
  h !! data = Some df →
  data_preprocessing data false h = Some (r1, h1) →
  ∃ r2 h2 out after,
    data_preprocessing data false h1 = Some (r2, h2) ∧
    h1 !! r1 = Some out ∧ h2 !! r2 = Some out ∧
    h1 !! data = Some after ∧ h2 !! data = Some after ∧
    fill_missing_df df = Some after.
Proof.
  intros Hdata Hrun.
  rewrite (data_preprocessing_run data false h df Hdata) in Hrun.
  destruct (encoder_input false df) as [enc|] eqn:Henc; [|done].
  cbn [mbind option_bind] in Hrun. cbv zeta in Hrun.
  destruct (df_get_dummies "imbalance_buy_sell_flag" "imbalance_flag" enc)
    as [d|] eqn:Hd; [|done].
  cbn [mbind option_bind] in Hrun. injection Hrun as <- <-.
  match goal with
  | |- context [data_preprocessing data false ?h1] =>
      assert (h1 !! data = Some enc) as Hdata1
  end.
  { do 2 apply lookup_alloc. by rewrite lookup_insert_eq. }
  destruct (data_preprocessing_result _ data enc false enc d Hdata1
              (fill_missing_df_fixed df enc Henc) Hd)
    as (r2 & h2 & Hrun2 & Hr2 & Hcaller & _).
  exists r2, h2, (df_rename "imbalance_flag_-1" "imbalance_flag_neg_1" d), enc.
  split; [done|]. split; [by rewrite lookup_insert_eq|]. done.
Qed.

Lemma data_preprocessing_fill_again_witness :
  ∃ r1 h1,
    data_preprocessing (H := demo) 0 false {[0 := book_df]} = Some (r1, h1) ∧
    ∃ r2 h2 out after,
      data_preprocessing (H := demo) 0 false h1 = Some (r2, h2) ∧
      h1 !! r1 = Some out ∧ h2 !! r2 = Some out ∧
      h1 !! 0 = Some after ∧ h2 !! 0 = Some after ∧
      fill_missing_df book_df = Some after.
Proof.
  eexists _, _. split; [vm_compute; reflexivity|].
  apply (data_preprocessing_fill_again (H := demo) {[0 := book_df]} 0 book_df).
  - reflexivity.
  - vm_compute; reflexivity.
Defined.

(** ** [data_preprocessing]: imputed values stay in the observed range *)

Lemma Qc_midpoint_bounds (lo hi a b : Qc) :
  (lo ≤ a)%Qc → (a ≤ hi)%Qc → (lo ≤ b)%Qc → (b ≤ hi)%Qc →
  (lo ≤ (a + b) / Qc_of_Z 2)%Qc ∧ ((a + b) / Qc_of_Z 2 ≤ hi)%Qc.
Proof.
  intros Hla Hah Hlb Hbh.
  assert (0 < Qc_of_Z 2)%Qc as Htwo by by_evaluation.
  assert (Qc_of_Z 2 ≠ 0%Qc) as Htwo' by by_evaluation.
  split; apply (Qcmult_le_mono_pos_r _ _ (Qc_of_Z 2) Htwo); rewrite test_field by done.
  - replace (lo * Qc_of_Z 2)%Qc with (lo + lo)%Qc by (rewrite Z2Qc_inj_2; ring).
    by apply Qcplus_le_compat.
  - replace (hi * Qc_of_Z 2)%Qc with (hi + hi)%Qc by (rewrite Z2Qc_inj_2; ring).
    by apply Qcplus_le_compat.
Qed.

(** The median of a column lies between any two bounds of its present
    values. *)
Lemma median_within lo hi xs :
  present xs ≠ [] → Forall (within lo hi) (present xs) → within lo hi (median xs).
Proof.
  intros Hne Hin. unfold median. cbv zeta.
  pose proof (merge_sort_Permutation fle (present xs)) as Hperm.
  set (ys := merge_sort fle (present xs)) in *.
  assert (length ys ≠ 0) as Hlen.
  { rewrite Hperm. by destruct (present xs). }
  assert (Forall (within lo hi) ys) as Hys by by rewrite Hperm.
  assert (∀ k, k < length ys → ∃ y, ys !! k = Some y ∧ within lo hi y) as Hlook.
  { intros k Hk. destruct (lookup_lt_is_Some_2 _ _ Hk) as [y Hy].
    exists y. split; [done|].
    apply (proj1 (list.Forall_forall _ _) Hys). by apply list_elem_of_lookup_2 in Hy. }
  destruct (decide (length ys = 0)) as [?|_]; [done|].
  assert (length ys / 2 < length ys) as H2 by (apply Nat.div_lt; lia).
  destruct (Hlook _ H2) as (y & Hy & p & -> & Hp1 & Hp2). rewrite Hy.
  destruct (Nat.odd (length ys)); [by exists p|].
  destruct (Hlook (length ys / 2 - 1)) as (y' & Hy' & p' & -> & Hp1' & Hp2'); [lia|].
  rewrite Hy'. unfold of_int. cbn [default fadd fdiv].
  destruct (decide (Qc_of_Z 2 = 0%Qc)) as [Hz|_]; [exfalso; revert Hz; by_evaluation|].
  eexists. split; [reflexivity|]. by apply Qc_midpoint_bounds.
Qed.

Lemma impute_series_within lo hi s :
  present (values s) ≠ [] → Forall (within lo hi) (present (values s)) →
  Forall (within lo hi) (values (impute_series s)).
Proof.
  intros Hne Hin. unfold impute_series. rewrite values_fillna.
  apply Forall_fmap, list.Forall_forall. intros x Hx. unfold compose, fill.
  destruct (isnan x) eqn:Hnan.
  - by apply median_within.
  - apply (proj1 (list.Forall_forall _ _) Hin). by apply elem_of_present.
Qed.

(** X10. Median imputation never leaves the range of the values observed in
    the column: when the present values of a column (other than the two
    prices and the flag) are finite and lie between two bounds, with at
    least one of them present, every cell of that column in the result of
    [data_preprocessing] with [remove_missing=False] is finite and lies
    between the same bounds, and the column keeps its length. *)
Theorem data_preprocessing_imputes_within_range `{Numerics} h data df c s lo hi :
  h !! data = Some df → has_columns (flag_column :: price_columns) df →
  c ∉ price_columns →
  c ∉ [flag_column; "imbalance_flag_-1"; "imbalance_flag_neg_1"] →
  df_get c df = Some s →
  present (values s) ≠ [] → Forall (within lo hi) (present (values s)) →
  ∃ r h' out s',
    data_preprocessing data false h = Some (r, h') ∧ h' !! r = Some out ∧
    df_get c out = Some s' ∧
    length (values s') = length (values s) ∧
    Forall (within lo hi) (values s').
Proof.
  intros Hdata Hcols Hprice Hflag Hs Hne Hin.
  destruct (data_preprocessing_fill_total h data df Hdata Hcols)
    as (enc & d & r & h' & Henc & Hd & Hrun & Hr & _).
  exists r, h', (df_rename "imbalance_flag_-1" "imbalance_flag_neg_1" d), (impute_series s).
  split; [done|]. split; [done|]. split; [|split].
  - apply (df_get_encoded enc d c); [done|set_solver..|].
    rewrite (fill_missing_df_get df enc c Henc), Hs. cbn. f_equal.
    apply imputed_other; intros ->; apply Hprice; unfold price_columns; set_solver.
  - unfold impute_series. by rewrite values_fillna, length_fmap.
  - by apply impute_series_within.
Qed.

Lemma data_preprocessing_imputes_within_range_witness :
  ∃ r h' out s',
    data_preprocessing (H := demo) 0 false {[0 := book_df]} = Some (r, h') ∧
    h' !! r = Some out ∧
    df_get "ask_size" out = Some s' ∧
    length (values s') = length (values (FloatS [num 1; num 0; num 5; NaN])) ∧
    Forall (within (Qc_of_Z 0) (Qc_of_Z 5)) (values s').
Proof.
  apply (data_preprocessing_imputes_within_range (H := demo) {[0 := book_df]} 0 book_df
           "ask_size" (FloatS [num 1; num 0; num 5; NaN])).
  - reflexivity.
  - unfold has_columns, price_columns. repeat constructor; by eexists.
  - by_evaluation.
  - by_evaluation.
  - reflexivity.
  - by_evaluation.
  - repeat constructor; eexists; (split; [reflexivity|by_evaluation]).
Defined.

(** ** [data_preprocessing] after [feature_engineering] *)

Lemma mask_filter_all {A} (xs : list A) n :
  length xs = n → mask_filter (replicate n true) xs = xs.
Proof.
  revert n. induction xs as [|x xs IH]; intros [|n] Hn; try done.
  simpl. f_equal. apply IH. by injection Hn.
Qed.

Lemma series_select_all s n :
  series_len s = n → series_select (replicate n true) s = s.
Proof. destruct s; simpl; intros Hn; by rewrite mask_filter_all. Qed.

Lemma df_select_all df :
  well_formed df → df_select (replicate (length (index df)) true) df = df.
Proof.
  intros Hwf. destruct df as [idx cols]. unfold df_select; cbn [index columns] in *.
  rewrite mask_filter_all by done. f_equal.
  rewrite <-(list_fmap_id cols) at 2. apply Forall_fmap_ext_1.
  eapply list.Forall_impl; [exact Hwf|]. intros [k s] Hlen; simpl in *.
  by rewrite series_select_all.
Qed.

Lemma zip_with_andb_true n :
  zip_with andb (replicate n true) (replicate n true) = replicate n true.
Proof. induction n as [|n IH]; [done|]. simpl. by rewrite IH. Qed.

Lemma isnull_complete s :
  has_missing s = false → negb <$> series_isnull s = replicate (series_len s) true.
Proof.
  rewrite has_missing_false, series_len_values. unfold series_isnull.
  induction 1 as [|x xs Hx _ IH]; [done|]. csimpl. by rewrite Hx, IH.
Qed.

Lemma complete_rows_all df :
  well_formed df → (∀ k s, (k, s) ∈ columns df → has_missing s = false) →
  complete_rows df = replicate (length (index df)) true.
Proof.
  unfold well_formed, complete_rows. generalize (length (index df)); intros n.
  induction 1 as [|[k s] cols Hlen _ IH]; intros Hall; [done|].
  cbn [foldr snd] in *. rewrite IH.
  - rewrite isnull_complete, Hlen by (by apply (Hall k), list_elem_of_here).
    apply zip_with_andb_true.
  - intros k' s' Hin. apply (Hall k'). by apply list_elem_of_further.
Qed.

Lemma df_dropna_fixed df :
  well_formed df → (∀ k s, (k, s) ∈ columns df → has_missing s = false) →
  df_dropna df = df.
Proof.
  intros Hwf Hall. unfold df_dropna. rewrite complete_rows_all by done.
  by apply df_select_all.
Qed.

Lemma fill_missing_df_complete df :
  has_columns price_columns df →
  (∀ k s, (k, s) ∈ columns df → has_missing s = false) →
  fill_missing_df df = Some df.
Proof.
  intros Hprices Hall. unfold has_columns, price_columns in Hprices.
  repeat match goal with
         | H : Forall _ (_ :: _) |- _ => inversion_clear H
         | H : is_Some _ |- _ => destruct H as [? H]
         end.
  assert (∀ c s, df_get c df = Some s → has_missing s = false) as Hget.
  { intros c s Hs. apply (Hall c). by apply lookup_col_Some_elem. }
  unfold fill_missing_df.
  match goal with
  | Hf : df_get "far_price" df = Some ?far, Hn : df_get "near_price" df = Some ?near |- _ =>
      rewrite Hf; cbn [mbind option_bind]; cbv zeta;
      rewrite (fillna_no_missing _ far (Hget "far_price" far Hf));
      rewrite (df_set_same "far_price" far df Hf), Hn; cbn [mbind option_bind];
      rewrite (fillna_no_missing _ near (Hget "near_price" near Hn));
      rewrite (df_set_same "near_price" near df Hn)
  end.
  apply impute_columns_fixed. intros c Hc.
  pose proof (columns_with_missing_are_columns df) as Hcols.
  apply (proj1 (list.Forall_forall _ _) Hcols) in Hc as [s Hs].
  exists s. split; [done|]. apply impute_series_no_missing. by apply (Hget c).
Qed.

Lemma encoder_input_complete remove_missing df :
  well_formed df →
  (remove_missing = false → has_columns price_columns df) →
  (∀ k s, (k, s) ∈ columns df → has_missing s = false) →
  encoder_input remove_missing df = Some df.
Proof.
  intros Hwf Hprices Hall. destruct remove_missing; simpl.
  - by rewrite df_dropna_fixed.
  - by apply fill_missing_df_complete; [apply Hprices|].
Qed.

Lemma not_derived_flag_prices c : c ∈ flag_column :: price_columns → c ∉ derived_columns.
Proof.
  unfold flag_column, price_columns, derived_columns.
  rewrite !elem_of_cons, !elem_of_nil. intros [->|[->|[->|[]]]]; by_evaluation.
Qed.

Lemma feature_engineering_keeps_column df out c :
  feature_engineering_df df = Some out → c ∉ derived_columns →
  is_Some (df_get c df) → is_Some (df_get c out).
Proof.
  intros Hout Hc [s Hs]. rewrite (df_get_other_column df out c Hout Hc), Hs. by eexists.
Qed.

(** X11. Once [feature_engineering] has run, [data_preprocessing] finds
    nothing to fill and nothing to drop: the table it encodes is the
    engineered table as it is, which is left unchanged (as is the original),
    the result keeps every row, and every column other than the flag is
    passed through. *)
Theorem data_preprocessing_after_feature_engineering `{Numerics} h X df remove_missing :
  h !! X = Some df → well_formed df → has_columns base_columns df →
  is_Some (df_get flag_column df) →
  (remove_missing = false → has_columns price_columns df) →
  ∃ r1 h1 out1 r2 h2 out2,
    feature_engineering X h = Some (r1, h1) ∧ h1 !! r1 = Some out1 ∧
    data_preprocessing r1 remove_missing h1 = Some (r2, h2) ∧ h2 !! r2 = Some out2 ∧
    encoder_input remove_missing out1 = Some out1 ∧
    h2 !! r1 = Some out1 ∧ h2 !! X = Some df ∧
    index out2 = index df ∧
    (∀ c s, c ∉ [flag_column; "imbalance_flag_-1"; "imbalance_flag_neg_1"] →
            df_get c out1 = Some s → df_get c out2 = Some s).
Proof.
  intros HX Hwf Hbase Hflag Hprices.
  destruct (feature_engineering_total X h df HX Hbase) as (out1 & Hout1 & Hrun1).
  set (r1 := fresh (dom h)) in *. set (h1 := <[r1 := out1]> h) in *.
  assert (h1 !! r1 = Some out1) as Hr1 by apply lookup_insert_eq.
  assert (h1 !! X = Some df) as HX1 by by apply lookup_alloc.
  assert (index out1 = index df ∧ well_formed out1 ∧
          ∀ k s, (k, s) ∈ columns out1 → has_missing s = false) as (Hidx & Hwf1 & Hall).
  { destruct (feature_engineering_df_inv _ _ Hout1)
      as (B & A & I & M & P & Q & HB & HA & HI & HM & HP & HQ & ->).
    split; [done|]. split.
    - by apply well_formed_fillna, engineered_well_formed.
    - intros k s. by apply df_fillna_complete. }
  assert (encoder_input remove_missing out1 = Some out1) as Henc.
  { apply encoder_input_complete; [done| |done].
    intros Hrm. apply list.Forall_forall. intros c Hc.
    apply (feature_engineering_keeps_column df out1 c Hout1).
    - apply not_derived_flag_prices. by apply list_elem_of_further.
    - by apply (proj1 (list.Forall_forall _ _) (Hprices Hrm)). }
  assert (∃ d, df_get_dummies flag_column "imbalance_flag" out1 = Some d) as [d Hd].
  { destruct (feature_engineering_keeps_column df out1 flag_column Hout1) as [fs Hfs];
      [apply not_derived_flag_prices, list_elem_of_here|done|].
    unfold df_get_dummies. rewrite Hfs. by eexists. }
  destruct (data_preprocessing_result h1 r1 out1 remove_missing out1 d Hr1 Henc Hd)
    as (r2 & h2 & Hrun2 & Hr2 & Hkept & Hothers).
  exists r1, h1, out1, r2, h2, (df_rename "imbalance_flag_-1" "imbalance_flag_neg_1" d).
  split; [done|]. split; [done|]. split; [done|]. split; [done|]. split; [done|].
  split; [by destruct remove_missing|]. split; [|split].
  - apply Hothers; [|done]. intros Heq. apply (fresh_ne h X df HX). symmetry. exact Heq.
  - by rewrite (index_encoded _ _ _ _ _ _ Hd).
  - intros c s Hc Hs. apply (df_get_encoded out1 d c); [done|set_solver..|done].
Qed.

Lemma data_preprocessing_after_feature_engineering_witness :
  ∃ r1 h1 out1 r2 h2 out2,
    feature_engineering 0 {[0 := book_df]} = Some (r1, h1) ∧ h1 !! r1 = Some out1 ∧
    data_preprocessing (H := demo) r1 false h1 = Some (r2, h2) ∧ h2 !! r2 = Some out2 ∧
    encoder_input false out1 = Some out1 ∧
    h2 !! r1 = Some out1 ∧ h2 !! 0 = Some book_df ∧
    index out2 = index book_df ∧
    (∀ c s, c ∉ [flag_column; "imbalance_flag_-1"; "imbalance_flag_neg_1"] →
            df_get c out1 = Some s → df_get c out2 = Some s).
Proof.
  apply (data_preprocessing_after_feature_engineering (H := demo)
           {[0 := book_df]} 0 book_df false).
  - reflexivity.
  - unfold well_formed. simpl. repeat constructor.
  - unfold has_columns, base_columns. repeat constructor; by eexists.
  - by eexists.
  - intros _. unfold has_columns, price_columns. repeat constructor; by eexists.
Defined.

(** ** [remove_extreme_values]: order, shape and required columns *)

Section outlier_filter_shape.
Context `{Numerics}.

Lemma trim_rows_sublist sigma cs : ∀ rs, trim_rows sigma cs rs `sublist_of` rs.
Proof.
  induction cs as [|c cs IH]; intros rs; [done|]. cbn [trim_rows]. cbv zeta.
  etrans; [apply IH|]. apply sublist_filter.
Qed.

Lemma trim_df_well_formed sigma cs : ∀ df out,
  well_formed df → trim_df sigma cs df = Some out → well_formed out.
Proof.
  induction cs as [|c cs IH]; intros df out Hwf Hout; cbn [trim_df] in Hout.
  - by injection Hout as <-.
  - destruct (df_get c df) as [s|]; [|done]. cbn [mbind option_bind] in Hout.
    cbv zeta in Hout. eapply IH; [|exact Hout]. by apply well_formed_select.
Qed.

(** X12. The filter only removes rows: the rows of the result are rows of
    the input in their original order, under their original labels, and
    every column of the result has one cell per row. *)
Theorem remove_extreme_values_keeps_order h X df cs sigma :
  h !! X = Some df → well_formed df → has_columns cs df →
  ∃ r h' out,
    remove_extreme_values X cs sigma h = Some (r, h') ∧ h' !! r = Some out ∧
    rows out `sublist_of` rows df ∧
    index out `sublist_of` index df ∧
    length (index out) ≤ length (index df) ∧
    well_formed out.
Proof.
  intros HX Hwf Hcols.
  destruct (remove_extreme_values_total h X df cs sigma HX Hcols)
    as (r & h' & out & Hout & Hrun & Hr & _).
  exists r, h', out. split; [done|]. split; [done|].
  destruct (trim_df_rows sigma cs df out Hwf Hout) as [Hrows _].
  assert (rows out `sublist_of` rows df) as Hsub.
  { rewrite Hrows. apply trim_rows_sublist. }
  assert (index out `sublist_of` index df) as Hidx.
  { rewrite <-(rows_index out), <-(rows_index df). by apply fmap_sublist. }
  split; [done|]. split; [done|]. split; [by apply sublist_length|].
  by apply (trim_df_well_formed sigma cs df).
Qed.

Lemma trim_rows_nil sigma cs : trim_rows sigma cs [] = [].
Proof. induction cs as [|c cs IH]; [done|]. cbn [trim_rows]. cbv zeta. apply IH. Qed.

Lemma in_band_undefined x m sigma :
  in_band (fsub m (fmul sigma NaN)) (fadd m (fmul sigma NaN)) x = false.
Proof.
  assert (fmul sigma NaN = NaN) as -> by by destruct sigma.
  assert (fsub m NaN = NaN) as -> by by destruct m.
  unfold in_band, fge, fle. by destruct x.
Qed.

Lemma filter_none {A} (P : A → Prop) `{∀ x, Decision (P x)} (l : list A) :
  (∀ x, ¬ P x) → filter P l = [].
Proof.
  intros Hno. induction l as [|x l IH]; [done|].
  rewrite filter_cons. by destruct (decide (P x)) as [?%Hno|_].
Qed.

Lemma std_too_few xs : length (present xs) ≤ 1 → std xs = NaN.
Proof.
  intros Hlen. unfold std, variance. cbv zeta. by rewrite decide_True.
Qed.

(** X13. A standard deviation needs two values: when the first listed column
    holds fewer than two non-missing values (a table of one row, for
    instance) the band is undefined and the result has no row at all,
    whatever [sigma] is. *)
Theorem remove_extreme_values_too_few h X df c cs s sigma :
  h !! X = Some df → well_formed df → has_columns (c :: cs) df →
  df_get c df = Some s → length (present (values s)) ≤ 1 →
  ∃ r h' out,
    remove_extreme_values X (c :: cs) sigma h = Some (r, h') ∧ h' !! r = Some out ∧
    rows out = [] ∧ index out = [].
Proof.
  intros HX Hwf Hcols Hs Hfew.
  destruct (remove_extreme_values_total h X df (c :: cs) sigma HX Hcols)
    as (r & h' & out & Hout & Hrun & Hr & _).
  exists r, h', out. split; [done|]. split; [done|].
  destruct (trim_df_rows sigma (c :: cs) df out Hwf Hout) as [Hrows _].
  assert (rows out = []) as Hnil.
  { rewrite Hrows. cbn [trim_rows]. cbv zeta.
    rewrite (rows_column df c s Hwf Hs), (std_too_few _ Hfew).
    rewrite filter_none; [apply trim_rows_nil|].
    intros row. by rewrite in_band_undefined. }
  split; [done|]. by rewrite <-rows_index, Hnil.
Qed.

Lemma trim_df_columns sigma cs : ∀ df,
  is_Some (trim_df sigma cs df) → has_columns cs df.
Proof.
  induction cs as [|c cs IH]; intros df [out Hout]; [by constructor|].
  cbn [trim_df] in Hout. destruct (df_get c df) as [s|] eqn:Hs; [|done].
  cbn [mbind option_bind] in Hout. cbv zeta in Hout.
  constructor; [by eexists|].
  pose proof (IH _ (ex_intro _ out Hout)) as Hrest. unfold has_columns in *.
  eapply list.Forall_impl; [exact Hrest|]. intros c' [s' Hs']. cbv beta.
  rewrite df_get_select in Hs'. destruct (df_get c' df); [by eexists|done].
Qed.

Lemma trim_columns_fail sigma cs : ∀ r h df,
  h !! r = Some df → trim_df sigma cs df = None →
  trim_columns sigma cs r h = None.
Proof.
  induction cs as [|c cs IH]; intros r h df Hr Hnone; [done|].
  cbn [trim_columns trim_df] in *. unfold bind.
  rewrite (trim_column_run sigma r c h df Hr).
  destruct (df_get c df) as [s|]; [|done].
  cbn [mbind option_bind] in *. cbv zeta in *.
  eapply IH; [|exact Hnone]. by rewrite lookup_insert_eq.
Qed.

(** X14. [remove_extreme_values] raises exactly when one of the listed
    columns is absent from the table, also when that column comes after
    others that were filtered without error. *)
Theorem remove_extreme_values_key_error h X df cs sigma :
  h !! X = Some df →
  remove_extreme_values X cs sigma h = None ↔ ¬ has_columns cs df.
Proof.
  intros HX. split.
  - intros Hnone Hcols.
    destruct (remove_extreme_values_total h X df cs sigma HX Hcols)
      as (r & h' & out & _ & Hrun & _).
    by rewrite Hrun in Hnone.
  - intros Hno. destruct (trim_df sigma cs df) as [out|] eqn:Hout.
    + destruct Hno. apply (trim_df_columns sigma cs df). by exists out.
    + unfold remove_extreme_values, bind. rewrite (copy_run X h df HX). cbv zeta.
      apply (trim_columns_fail sigma cs _ _ df); [|done]. by rewrite lookup_insert_eq.
Qed.

End outlier_filter_shape.

Lemma remove_extreme_values_keeps_order_witness :
  ∃ r h' out,
    remove_extreme_values (H := demo) 0 ["bid_size"; "ask_price"] (num 4) {[0 := book_df]}
      = Some (r, h') ∧
    h' !! r = Some out ∧
    rows out `sublist_of` rows book_df ∧
    index out `sublist_of` index book_df ∧
    length (index out) ≤ length (index book_df) ∧
    well_formed out.
Proof.
  apply (remove_extreme_values_keeps_order (H := demo) {[0 := book_df]} 0 book_df).
  - reflexivity.
  - unfold well_formed. simpl. repeat constructor.
  - unfold has_columns. repeat constructor; by eexists.
Defined.

Lemma remove_extreme_values_too_few_witness :
  ∃ r h' out,
    remove_extreme_values (H := demo) 0 ["ask_price"; "bid_price"] (num 4)
      {[0 := no_ask_df]} = Some (r, h') ∧
    h' !! r = Some out ∧
    rows out = [] ∧ index out = [].
Proof.
  apply (remove_extreme_values_too_few (H := demo) {[0 := no_ask_df]} 0 no_ask_df
           "ask_price" ["bid_price"] (FloatS [NaN])).
  - reflexivity.
  - unfold well_formed. simpl. repeat constructor.
  - unfold has_columns. repeat constructor; by eexists.
  - reflexivity.
  - simpl. lia.
Defined.

Lemma remove_extreme_values_key_error_witness :
  remove_extreme_values (H := demo) 0 ["wap"; "bid_size"] (num 4) {[0 := week_df]} = None ↔
    ¬ has_columns ["wap"; "bid_size"] week_df.
Proof.
  apply (remove_extreme_values_key_error (H := demo) {[0 := week_df]} 0 week_df).
  reflexivity.
Defined.

(** ** [split_data]: shape of the two tables, and splitting again *)

Lemma mask_filter_sublist {A} mask (xs : list A) : mask_filter mask xs `sublist_of` xs.
Proof.
  revert xs. induction mask as [|b mask IH]; intros [|x xs]; simpl; try done.
  - apply sublist_nil_l.
  - destruct b; [by apply sublist_skip|by apply sublist_cons].
Qed.

Lemma mask_filter_none {A} mask (xs : list A) :
  Forall (λ b, b = false) mask → mask_filter mask xs = [].
Proof.
  intros Hmask. revert xs.
  induction Hmask as [|b mask -> _ IH]; intros [|x xs]; simpl; try done.
Qed.

Lemma all_true_replicate mask :
  Forall (λ b, b = true) mask → mask = replicate (length mask) true.
Proof. induction 1 as [|b mask -> _ IH]; [done|]. simpl. by rewrite <-IH. Qed.

Lemma values_select_by_value (p : float64 → bool) s :
  values (series_select (p <$> values s) s) = filter (λ x, p x = true) (values s).
Proof.
  rewrite values_select, <-(list_fmap_id (values s)) at 1.
  by rewrite (mask_filter_by_value id p).
Qed.

Lemma select_length (p : float64 → bool) df s :
  well_formed df → df_get "date_id" df = Some s →
  length (filter (λ x, p x = true) (values s)) =
    length (index (df_select (p <$> values s) df)).
Proof.
  intros Hwf Hs. rewrite <-values_select_by_value, values_select.
  cbn [index df_select]. apply mask_filter_length.
  rewrite <-series_len_values. by apply (well_formed_get df "date_id").
Qed.

(** Selecting with the same test a second time keeps every row. *)
Lemma select_again_same (p : float64 → bool) df s :
  well_formed df → df_get "date_id" df = Some s →
  df_select (p <$> values (series_select (p <$> values s) s))
            (df_select (p <$> values s) df) =
    df_select (p <$> values s) df.
Proof.
  intros Hwf Hs. rewrite values_select_by_value.
  rewrite (all_true_replicate (p <$> filter _ _)).
  - rewrite length_fmap, (select_length p df s Hwf Hs).
    by apply df_select_all, well_formed_select.
  - apply Forall_fmap, list.Forall_forall. by intros x [Hx _]%list_elem_of_filter.
Qed.

(** Selecting with a test that excludes the first one keeps no row. *)
Lemma select_again_none (p q : float64 → bool) df s :
  (∀ x, p x = true → q x = false) →
  index (df_select (q <$> values (series_select (p <$> values s) s))
                   (df_select (p <$> values s) df)) = [].
Proof.
  intros Hpq. rewrite values_select_by_value. cbn [index df_select].
  apply mask_filter_none, Forall_fmap, list.Forall_forall.
  intros x [Hx _]%list_elem_of_filter. by apply Hpq.
Qed.

Lemma rows_empty df : index df = [] → rows df = [].
Proof. unfold rows. by intros ->. Qed.

(** The run of [split_data] on a table with a [date_id] column: two new
    table objects, the store otherwise as it was. *)
Lemma split_data_result h data df s n :
  h !! data = Some df → df_get "date_id" df = Some s →
  ∃ tr te h',
    split_data data n h = Some ((tr, te), h') ∧
    h' !! tr = Some (df_select ((λ x, flt x n) <$> values s) df) ∧
    h' !! te = Some (df_select ((λ x, fge x n) <$> values s) df) ∧
    tr ≠ te ∧ h !! tr = None ∧ h !! te = None ∧
    (∀ l v, h !! l = Some v → h' !! l = Some v).
Proof.
  intros Hdata Hs. rewrite (split_data_run data n h df Hdata), Hs.
  cbn [mbind option_bind]. cbv zeta.
  set (train := df_select ((λ x, flt x n) <$> values s) df).
  set (test := df_select ((λ x, fge x n) <$> values s) df).
  set (tr := fresh (dom h)). set (h1 := <[tr := train]> h). set (te := fresh (dom h1)).
  assert (h1 !! tr = Some train) as Htr by apply lookup_insert_eq.
  assert (te ≠ tr) as Hne by apply (fresh_ne h1 tr train Htr).
  exists tr, te, (<[te := test]> h1). split; [done|]. split; [|split; [|split; [|split; [|split]]]].
  - by apply lookup_alloc.
  - apply lookup_insert_eq.
  - done.
  - apply fresh_lookup.
  - pose proof (fresh_lookup h1) as Hfresh. fold te in Hfresh. unfold h1 in Hfresh.
    by rewrite lookup_insert_ne in Hfresh.
  - intros l v Hl. by do 2 apply lookup_alloc.
Qed.

(** X16. Both tables returned by [split_data] are new objects, distinct from
    each other and from every table of the caller, which are left unchanged;
    each has the columns of the input, in order, with one cell per row, and
    its row labels are labels of the input in their original order. *)
Theorem split_data_layout h data df s n :
  h !! data = Some df → well_formed df → df_get "date_id" df = Some s →
  ∃ tr te h' train test,
    split_data data n h = Some ((tr, te), h') ∧
    h' !! tr = Some train ∧ h' !! te = Some test ∧
    tr ≠ te ∧ h !! tr = None ∧ h !! te = None ∧
    (∀ l v, h !! l = Some v → h' !! l = Some v) ∧
    column_names train = column_names df ∧ column_names test = column_names df ∧
    well_formed train ∧ well_formed test ∧
    index train `sublist_of` index df ∧ index test `sublist_of` index df.
Proof.
  intros Hdata Hwf Hs.
  destruct (split_data_result h data df s n Hdata Hs)
    as (tr & te & h' & Hrun & Htr & Hte & Hne & Hftr & Hfte & Hkeep).
  eexists tr, te, h', _, _.
  repeat (split; [done|]).
  rewrite !column_names_select.
  repeat (split; [done|]).
  split; [by apply well_formed_select|]. split; [by apply well_formed_select|].
  split; apply mask_filter_sublist.
Qed.

(** X17. Splitting is stable: splitting the train table again at the same
    threshold returns that table as its train part and no row as its test
    part; splitting the test table again returns no row as its train part
    and that table as its test part. *)
Theorem split_data_again h data df s n :
  h !! data = Some df → well_formed df → df_get "date_id" df = Some s →
  ∃ tr te h1 train test,
    split_data data n h = Some ((tr, te), h1) ∧
    h1 !! tr = Some train ∧ h1 !! te = Some test ∧
    (∃ tr2 te2 h2 test2,
       split_data tr n h1 = Some ((tr2, te2), h2) ∧
       h2 !! tr2 = Some train ∧ h2 !! te2 = Some test2 ∧
       index test2 = [] ∧ rows test2 = []) ∧
    (∃ tr3 te3 h3 train3,
       split_data te n h1 = Some ((tr3, te3), h3) ∧
       h3 !! tr3 = Some train3 ∧ h3 !! te3 = Some test ∧
       index train3 = [] ∧ rows train3 = []).
Proof.
  intros Hdata Hwf Hs.
  destruct (split_data_result h data df s n Hdata Hs)
    as (tr & te & h1 & Hrun & Htr & Hte & _).
  eexists tr, te, h1, _, _. split; [done|]. split; [done|]. split; [done|]. split.
  - destruct (split_data_result h1 tr _ (series_select ((λ x, flt x n) <$> values s) s)
                n Htr) as (tr2 & te2 & h2 & Hrun2 & Htr2 & Hte2 & _).
    { by rewrite df_get_select, Hs. }
    eexists tr2, te2, h2, _. split; [done|].
    rewrite (select_again_same (λ x, flt x n) df s Hwf Hs) in Htr2.
    split; [done|]. split; [done|].
    assert (index (df_select
                     ((λ x, fge x n) <$>
                        values (series_select ((λ x, flt x n) <$> values s) s))
                     (df_select ((λ x, flt x n) <$> values s) df)) = []) as Hnil.
    { apply (select_again_none (λ x, flt x n) (λ x, fge x n)).
      intros x. apply flt_fge_exclusive. }
    split; [done|]. by apply rows_empty.
  - destruct (split_data_result h1 te _ (series_select ((λ x, fge x n) <$> values s) s)
                n Hte) as (tr3 & te3 & h3 & Hrun3 & Htr3 & Hte3 & _).
    { by rewrite df_get_select, Hs. }
    eexists tr3, te3, h3, _. split; [done|].
    rewrite (select_again_same (λ x, fge x n) df s Hwf Hs) in Hte3.
    split; [done|]. split; [done|].
    assert (index (df_select
                     ((λ x, flt x n) <$>
                        values (series_select ((λ x, fge x n) <$> values s) s))
                     (df_select ((λ x, fge x n) <$> values s) df)) = []) as Hnil.
    { apply (select_again_none (λ x, fge x n) (λ x, flt x n)). intros x Hge.
      destruct (flt x n) eqn:Hlt; [|done].
      apply flt_fge_exclusive in Hlt. congruence. }
    split; [done|]. by apply rows_empty.
Qed.

Lemma flt_fle_trans x n m : flt x n = true → fle n m = true → flt x m = true.
Proof.
  destruct x as [| |a|], n as [| |b|], m as [| |c|]; try done.
  cbn [flt fle]. rewrite !bool_decide_eq_true. apply Qclt_le_trans.
Qed.

Lemma fle_fge_trans x n m : fle n m = true → fge x m = true → fge x n = true.
Proof.
  unfold fge. destruct x as [| |a|], n as [| |b|], m as [| |c|]; try done.
  cbn [fle]. rewrite !bool_decide_eq_true. apply Qcle_trans.
Qed.

Lemma filter_sublist_mono {A} (P Q : A → Prop) `{∀ x, Decision (P x)}
    `{∀ x, Decision (Q x)} (l : list A) :
  (∀ x, P x → Q x) → filter P l `sublist_of` filter Q l.
Proof.
  intros HPQ. rewrite <-(list_filter_filter_l P Q l HPQ). apply sublist_filter.
Qed.

(** X18. Raising the threshold only moves rows from the test table to the
    train table: for [n <= m], the train rows at [n] are among the train
    rows at [m] and the test rows at [m] are among the test rows at [n], in
    the same order. *)
Theorem split_data_monotone h data df s n m :
  h !! data = Some df → well_formed df → df_get "date_id" df = Some s →
  fle n m = true →
  ∃ tr te h1 train test tr' te' h2 train' test',
    split_data data n h = Some ((tr, te), h1) ∧
    h1 !! tr = Some train ∧ h1 !! te = Some test ∧
    split_data data m h = Some ((tr', te'), h2) ∧
    h2 !! tr' = Some train' ∧ h2 !! te' = Some test' ∧
    rows train `sublist_of` rows train' ∧
    rows test' `sublist_of` rows test.
Proof.
  intros Hdata Hwf Hs Hnm.
  destruct (split_data_result h data df s n Hdata Hs)
    as (tr & te & h1 & Hrun & Htr & Hte & _).
  destruct (split_data_result h data df s m Hdata Hs)
    as (tr' & te' & h2 & Hrun' & Htr' & Hte' & _).
  eexists tr, te, h1, _, _, tr', te', h2, _, _.
  repeat (split; [done|]).
  rewrite !(select_rows (λ x, flt x _) df "date_id" s Hwf Hs).
  rewrite !(select_rows (λ x, fge x _) df "date_id" s Hwf Hs).
  split; apply filter_sublist_mono; intros row.
  - intros Hlt. by apply (flt_fle_trans _ n m).
  - by apply fle_fge_trans.
Qed.

Lemma split_data_layout_witness :
  ∃ tr te h' train test,
    split_data 0 (num 3) {[0 := week_df]} = Some ((tr, te), h') ∧
    h' !! tr = Some train ∧ h' !! te = Some test ∧
    tr ≠ te ∧ ({[0 := week_df]} : gmap loc DataFrame) !! tr = None ∧
    ({[0 := week_df]} : gmap loc DataFrame) !! te = None ∧
    (∀ l v, ({[0 := week_df]} : gmap loc DataFrame) !! l = Some v → h' !! l = Some v) ∧
    column_names train = column_names week_df ∧
    column_names test = column_names week_df ∧
    well_formed train ∧ well_formed test ∧
    index train `sublist_of` index week_df ∧ index test `sublist_of` index week_df.
Proof.
  apply (split_data_layout {[0 := week_df]} 0 week_df (IntS [1; 2; 3; 4; 5]%Z)).
  - reflexivity.
  - unfold well_formed. simpl. repeat constructor.
  - reflexivity.
Defined.

Lemma split_data_again_witness :
  ∃ tr te h1 train test,
    split_data 0 (num 3) {[0 := week_df]} = Some ((tr, te), h1) ∧
    h1 !! tr = Some train ∧ h1 !! te = Some test ∧
    (∃ tr2 te2 h2 test2,
       split_data tr (num 3) h1 = Some ((tr2, te2), h2) ∧
       h2 !! tr2 = Some train ∧ h2 !! te2 = Some test2 ∧
       index test2 = [] ∧ rows test2 = []) ∧
    (∃ tr3 te3 h3 train3,
       split_data te (num 3) h1 = Some ((tr3, te3), h3) ∧
       h3 !! tr3 = Some train3 ∧ h3 !! te3 = Some test ∧
       index train3 = [] ∧ rows train3 = []).
Proof.
  apply (split_data_again {[0 := week_df]} 0 week_df (IntS [1; 2; 3; 4; 5]%Z)).
  - reflexivity.
  - unfold well_formed. simpl. repeat constructor.
  - reflexivity.
Defined.

Lemma split_data_monotone_witness :
  ∃ tr te h1 train test tr' te' h2 train' test',
    split_data 0 (num 2) {[0 := week_df]} = Some ((tr, te), h1) ∧
    h1 !! tr = Some train ∧ h1 !! te = Some test ∧
    split_data 0 (num 4) {[0 := week_df]} = Some ((tr', te'), h2) ∧
    h2 !! tr' = Some train' ∧ h2 !! te' = Some test' ∧
    rows train `sublist_of` rows train' ∧
    rows test' `sublist_of` rows test.
Proof.
  apply (split_data_monotone {[0 := week_df]} 0 week_df (IntS [1; 2; 3; 4; 5]%Z)).
  - reflexivity.
  - unfold well_formed. simpl. repeat constructor.
  - reflexivity.
  - by_evaluation.
Defined.

(** * The data drawn by the plotting helpers *)

(** ** [plot_hist] *)

Lemma zip_with_andb_fmap {A} (p q : A → bool) xs :
  zip_with andb (p <$> xs) (q <$> xs) = (λ x, p x && q x) <$> xs.
Proof. induction xs as [|x xs IH]; [done|]. csimpl. by rewrite IH. Qed.

Lemma df_dropna_subset_one c df s :
  well_formed df → df_get c df = Some s →
  df_dropna_subset [c] df =
    Some (df_select ((λ x, negb (isnan x)) <$> values s) df).
Proof.
  intros Hwf Hs. unfold df_dropna_subset. cbn [mapM]. rewrite Hs.
  cbn [mbind option_bind mret option_ret foldr]. do 2 f_equal.
  rewrite zip_with_replicate_r_eq.
  - unfold series_isnull. rewrite <-!list_fmap_compose.
    apply list_fmap_ext. intros _ x _. simpl. apply andb_true_r.
  - unfold series_isnull. rewrite !length_fmap, <-series_len_values.
    by apply (well_formed_get df c).
Qed.

Lemma dropna_subset_run X subset h df :
  h !! X = Some df →
  dropna_subset X subset h =
    (out ← df_dropna_subset subset df;
     Some (fresh (dom h), <[fresh (dom h) := out]> h)).
Proof.
  intros HX. unfold dropna_subset, bind. rewrite (deref_run X h df HX).
  unfold lift. by destruct (df_dropna_subset subset df).
Qed.

Lemma within_limits_finite lims x :
  isfinite lims.1 = true → isfinite lims.2 = true →
  within_limits lims x = true → isfinite x = true.
Proof. destruct lims as [lo hi]. unfold within_limits. destruct lo, hi, x; try done. Qed.

Lemma within_limits_present lims x : within_limits lims x = true → isnan x = false.
Proof. unfold within_limits. by destruct x. Qed.

Lemma ax_hist_run x h :
  ax_hist x h = if forallb isfinite (values x) then Some (x, h) else None.
Proof. unfold ax_hist. by destruct (forallb isfinite (values x)). Qed.

Lemma forallb_Forall {A} (p : A → bool) xs :
  forallb p xs = true ↔ Forall (λ x, p x = true) xs.
Proof.
  induction xs as [|x xs IH]; simpl; [split; [constructor|done]|]. split.
  - intros [Hx Hxs]%andb_true_iff. constructor; [done|by apply IH].
  - intros Hall. inversion_clear Hall as [|? ? Hx Hxs].
    apply andb_true_iff. split; [done|by apply IH].
Qed.

(** The run of [plot_hist] on a table that holds the column: the values
    within the limits are handed to [ax.hist]. *)
Lemma plot_hist_run h data df variable s save lims output_dir :
  h !! data = Some df → well_formed df → df_get variable df = Some s →
  ∃ drawn,
    values drawn = filter (λ x, within_limits lims x = true) (values s) ∧
    plot_hist data variable save lims output_dir h =
      (if forallb isfinite (values drawn)
       then Some (mkHistogram drawn
                    (if save then Some (output_dir +:+ variable +:+ "_histogram.pdf")
                     else None),
                  <[fresh (dom h) := df_select ((λ x, negb (isnan x)) <$> values s) df]> h)
       else None).
Proof.
  intros Hdata Hwf Hs.
  set (kept := df_select ((λ x, negb (isnan x)) <$> values s) df).
  set (s' := series_select ((λ x, negb (isnan x)) <$> values s) s).
  set (h' := <[fresh (dom h) := kept]> h).
  assert (h' !! fresh (dom h) = Some kept) as Hkept by apply lookup_insert_eq.
  assert (df_get variable kept = Some s') as Hs'.
  { unfold kept. by rewrite df_get_select, Hs. }
  assert (values s' = filter (λ x, negb (isnan x) = true) (values s)) as Hvalues.
  { unfold s'. apply (values_select_by_value (λ x, negb (isnan x))). }
  exists (series_select (within_limits lims <$> values s') s'). split.
  - rewrite (values_select_by_value (within_limits lims) s'), Hvalues.
    apply list_filter_filter_l. intros x Hx.
    apply within_limits_present in Hx. by rewrite Hx.
  - unfold plot_hist, bind.
    rewrite (dropna_subset_run data [variable] h df Hdata).
    rewrite (df_dropna_subset_one variable df s Hwf Hs). cbn [mbind option_bind].
    fold kept. fold h'.
    do 3 (rewrite (getitem_run _ variable h' kept Hkept), Hs'; cbn [mbind option_bind]).
    rewrite zip_with_andb_fmap, ax_hist_run. unfold within_limits.
    by destruct (forallb isfinite _).
Qed.

(** X19. The values handed to [ax.hist] are exactly the values of the
    column that lie in the closed interval [[lims[0], lims[1]]], in their
    original order; a missing value is never among them, so that dropping
    the rows with a missing value first makes no difference.  The call
    returns, with the histogram of these values and leaving the table
    received as it is, when they are all finite, as they are whenever both
    limits are finite; it raises when an infinite value lies within the
    limits. *)
Theorem plot_hist_values h data df variable s save lims output_dir :
  h !! data = Some df → well_formed df → df_get variable df = Some s →
  Forall (λ x, isnan x = false)
    (filter (λ x, within_limits lims x = true) (values s)) ∧
  (isfinite lims.1 = true → isfinite lims.2 = true →
   Forall (λ x, isfinite x = true)
     (filter (λ x, within_limits lims x = true) (values s))) ∧
  (Forall (λ x, isfinite x = true)
     (filter (λ x, within_limits lims x = true) (values s)) →
   ∃ fig h',
     plot_hist data variable save lims output_dir h = Some (fig, h') ∧
     values (hist_values fig) =
       filter (λ x, within_limits lims x = true) (values s) ∧
     (∀ l v, h !! l = Some v → h' !! l = Some v)) ∧
  (¬ Forall (λ x, isfinite x = true)
       (filter (λ x, within_limits lims x = true) (values s)) →
   plot_hist data variable save lims output_dir h = None).
Proof.
  intros Hdata Hwf Hs.
  destruct (plot_hist_run h data df variable s save lims output_dir Hdata Hwf Hs)
    as (drawn & Hdrawn & Hrun).
  split; [|split; [|split]].
  - apply list.Forall_forall. intros x [Hx _]%list_elem_of_filter.
    by apply within_limits_present in Hx.
  - intros Hlo Hhi. apply list.Forall_forall. intros x [Hx _]%list_elem_of_filter.
    by apply (within_limits_finite lims).
  - intros Hfin. rewrite <-Hdrawn in Hfin. apply forallb_Forall in Hfin.
    rewrite Hfin in Hrun. eexists _, _. split; [exact Hrun|]. split; [exact Hdrawn|].
    intros l v Hl. by apply lookup_alloc.
  - intros Hinf. rewrite <-Hdrawn, <-forallb_Forall in Hinf.
    by destruct (forallb isfinite (values drawn)).
Qed.

Lemma plot_hist_values_witness :
  Forall (λ x, isnan x = false)
    (filter (λ x, within_limits (num 10, num 11) x = true)
       (values (FloatS [num 11; num 10; NaN; num 12]))) ∧
  (isfinite (num 10, num 11).1 = true → isfinite (num 10, num 11).2 = true →
   Forall (λ x, isfinite x = true)
     (filter (λ x, within_limits (num 10, num 11) x = true)
        (values (FloatS [num 11; num 10; NaN; num 12])))) ∧
  (Forall (λ x, isfinite x = true)
     (filter (λ x, within_limits (num 10, num 11) x = true)
        (values (FloatS [num 11; num 10; NaN; num 12]))) →
   ∃ fig h',
     plot_hist 0 "ask_price" true (num 10, num 11) "./" {[0 := book_df]} = Some (fig, h') ∧
     values (hist_values fig) =
       filter (λ x, within_limits (num 10, num 11) x = true)
         (values (FloatS [num 11; num 10; NaN; num 12])) ∧
     (∀ l v, ({[0 := book_df]} : gmap loc DataFrame) !! l = Some v → h' !! l = Some v)) ∧
  (¬ Forall (λ x, isfinite x = true)
       (filter (λ x, within_limits (num 10, num 11) x = true)
          (values (FloatS [num 11; num 10; NaN; num 12]))) →
   plot_hist 0 "ask_price" true (num 10, num 11) "./" {[0 := book_df]} = None).
Proof.
  apply (plot_hist_values {[0 := book_df]} 0 book_df "ask_price"
           (FloatS [num 11; num 10; NaN; num 12])).
  - reflexivity.
  - unfold well_formed. simpl. repeat constructor.
  - reflexivity.
Defined.

(** With the limits [(10, 11)] the histogram of [ask_price] in [book_df]
    is drawn from [11] and [10] and saved under the name of the column. *)
Example plot_hist_book :
  ∃ h', plot_hist 0 "ask_price" true (num 10, num 11) "./" {[0 := book_df]} =
          Some (mkHistogram (FloatS [num 11; num 10]) (Some "./ask_price_histogram.pdf"), h').
Proof. eexists. vm_compute. reflexivity. Qed.

(** Within finite limits the infinite entry of [open_df] is left out;
    within unbounded limits it reaches [ax.hist], which raises, and no
    figure is saved. *)
Example plot_hist_open_finite :
  ∃ h', plot_hist 0 "wap" false (num 0, num 2) "./" {[0 := open_df]} =
          Some (mkHistogram (FloatS [num 1]) None, h').
Proof. eexists. vm_compute. reflexivity. Qed.

Example plot_hist_open_unbounded :
  plot_hist 0 "wap" true (NegInf, PosInf) "./" {[0 := open_df]} = None.
Proof. vm_compute. reflexivity. Qed.

(** ** [plot_missing_values] *)

Lemma Qc_of_nat_pos n : 0 < n → (0 < Qc_of_Z (Z.of_nat n))%Qc.
Proof.
  intros Hn. rewrite <-Z2Qc_inj_0.
  apply (proj1 (Z2Qc_inj_lt 0 (Z.of_nat n))). lia.
Qed.

Lemma isnull_count s :
  length (filter (λ b, b = true) (series_isnull s)) = missing_count s.
Proof. unfold series_isnull, missing_count. apply count_fmap_filter. Qed.

Lemma missing_count_pos s : has_missing s = true ↔ 0 < missing_count s.
Proof.
  unfold has_missing, missing_count. induction (values s) as [|x xs IH].
  - simpl. split; [done|intros; exfalso; lia].
  - cbn [existsb]. rewrite filter_cons.
    destruct (decide (isnan x = true)) as [Hx|Hx].
    + rewrite Hx. simpl. split; [lia|done].
    + destruct (isnan x); [done|]. exact IH.
Qed.

Lemma missing_count_le s : missing_count s ≤ series_len s.
Proof.
  unfold missing_count. rewrite series_len_values.
  apply sublist_length, sublist_filter.
Qed.

Lemma Qc_fraction_bounds (a b : Qc) :
  (0 < a)%Qc → (a ≤ b)%Qc →
  (0 < a / b * Qc_of_Z 100)%Qc ∧ (a / b * Qc_of_Z 100 ≤ Qc_of_Z 100)%Qc.
Proof.
  intros Ha Hab.
  assert (0 < b)%Qc as Hb by by eapply Qclt_le_trans.
  assert (b ≠ 0%Qc) as Hb' by (intros ->; by apply Qclt_not_eq in Hb).
  assert (0 < Qc_of_Z 100)%Qc as Hc by by_evaluation.
  split.
  - apply Qcmult_pos_pos; [|done]. apply Qcmult_pos_pos; [done|by apply Qcinv_pos].
  - rewrite <-(Qcmult_1_l (Qc_of_Z 100)) at 2.
    apply Qcmult_le_mono_nonneg_r; [by apply Qclt_le_weak|].
    apply (Qcmult_le_mono_pos_r _ _ b Hb). rewrite test_field by done.
    by rewrite Qcmult_1_l.
Qed.

(** The percentage [k / n * 100] of [k] missing cells among [n], as the
    code computes it: positive exactly when a cell is missing. *)
Lemma percentage_positive k n :
  k ≤ n →
  flt (Fin 0%Qc)
      (fmul (fdiv (of_int (Z.of_nat k)) (of_nat n)) (of_int 100)) = true ↔ 0 < k.
Proof.
  intros Hkn. unfold of_nat, of_int. cbn [fdiv].
  destruct (decide (Qc_of_Z (Z.of_nat n) = 0%Qc)) as [Hn|Hn].
  - rewrite <-Z2Qc_inj_0 in Hn. apply Z2Qc_inj in Hn.
    assert (k = 0) as -> by lia. split; [|lia].
    intros Hflt. exfalso. revert Hflt. by_evaluation.
  - cbn [fmul flt]. rewrite bool_decide_eq_true. split.
    + intros Hpos. destruct k as [|k]; [|lia]. exfalso.
      replace (Qc_of_Z (Z.of_nat 0) / Qc_of_Z (Z.of_nat n) * Qc_of_Z 100)%Qc
        with 0%Qc in Hpos; [by apply Qclt_not_eq in Hpos|].
      change (Z.of_nat 0) with 0%Z. rewrite Z2Qc_inj_0. unfold Qcdiv.
      by rewrite !Qcmult_0_l.
    + intros Hk. apply Qc_fraction_bounds; [by apply Qc_of_nat_pos|].
      apply (proj1 (Z2Qc_inj_le _ _)). lia.
Qed.

(** With a missing cell the division is a division by a positive number
    of rows. *)
Lemma percentage_exact k n :
  0 < k → k ≤ n →
  fmul (fdiv (of_int (Z.of_nat k)) (of_nat n)) (of_int 100) = percent k n.
Proof.
  intros Hk Hkn. unfold percent, of_nat, of_int. cbn [fdiv].
  rewrite decide_False; [done|].
  rewrite <-Z2Qc_inj_0. intros Hn%Z2Qc_inj. lia.
Qed.

Lemma percent_range k n :
  0 < k → k ≤ n →
  ∃ q, percent k n = Fin q ∧ (0 < q)%Qc ∧ (q ≤ Qc_of_Z 100)%Qc.
Proof.
  intros Hk Hkn. eexists. split; [reflexivity|].
  apply Qc_fraction_bounds; [by apply Qc_of_nat_pos|].
  apply (proj1 (Z2Qc_inj_le _ _)). lia.
Qed.

Lemma missing_percentage_bars df :
  well_formed df →
  missing_percentage df =
    (λ cs, (cs.1, percent (missing_count cs.2) (length (index df)))) <$>
      filter (λ cs, has_missing cs.2 = true) (columns df).
Proof.
  unfold well_formed, missing_percentage, isnull_sum. cbv zeta.
  generalize (length (index df)); intros n.
  induction 1 as [|[k s] cols Hlen _ IH]; [done|].
  rewrite !fmap_cons, !filter_cons. cbn [prod_map fst snd id] in *.
  rewrite isnull_count.
  assert (missing_count s ≤ n) as Hle by (rewrite <-Hlen; apply missing_count_le).
  destruct (decide (has_missing s = true)) as [Hm|Hm].
  - pose proof (proj1 (missing_count_pos s) Hm) as Hpos.
    rewrite decide_True by (by apply percentage_positive).
    rewrite fmap_cons. cbn [fst snd]. rewrite percentage_exact by done.
    f_equal. exact IH.
  - rewrite decide_False; [exact IH|].
    rewrite (percentage_positive _ n Hle). by rewrite <-missing_count_pos.
Qed.

(** X20. The bar chart of missing values has one bar per column that holds a
    missing value, in column order and labelled with the column name; a
    column without a missing value gets no bar; the height of a bar is the
    number of missing cells of its column divided by the number of rows,
    times [100], a percentage above [0] and at most [100]; the table is
    only read. *)
Theorem plot_missing_values_bars h data df save output_dir :
  h !! data = Some df → well_formed df →
  ∃ chart,
    plot_missing_values data save output_dir h = Some (chart, h) ∧
    bar_labels chart = df_columns_with_missing df ∧
    bar_heights chart =
      (λ cs, percent (missing_count cs.2) (length (index df))) <$>
        filter (λ cs, has_missing cs.2 = true) (columns df) ∧
    Forall (λ x, ∃ q, x = Fin q ∧ (0 < q)%Qc ∧ (q ≤ Qc_of_Z 100)%Qc)
           (bar_heights chart).
Proof.
  intros Hdata Hwf. eexists. split; [|split; [|split]].
  - unfold plot_missing_values, bind. rewrite (deref_run data h df Hdata).
    cbv zeta. reflexivity.
  - cbn [bar_labels]. rewrite (missing_percentage_bars df Hwf).
    unfold df_columns_with_missing. rewrite <-list_fmap_compose.
    by apply list_fmap_ext.
  - cbn [bar_heights]. rewrite (missing_percentage_bars df Hwf).
    rewrite <-list_fmap_compose. by apply list_fmap_ext.
  - cbn [bar_heights]. rewrite (missing_percentage_bars df Hwf).
    rewrite <-list_fmap_compose. apply Forall_fmap, list.Forall_forall.
    intros [k s] [Hm Hin]%list_elem_of_filter. unfold compose. cbn [fst snd] in *.
    apply percent_range; [by apply missing_count_pos|].
    rewrite <-(proj1 (list.Forall_forall _ _) Hwf (k, s) Hin).
    apply missing_count_le.
Qed.

Lemma plot_missing_values_bars_witness :
  ∃ chart,
    plot_missing_values 0 false "./" {[0 := book_df]} =
      Some (chart, ({[0 := book_df]} : gmap loc DataFrame)) ∧
    bar_labels chart = df_columns_with_missing book_df ∧
    bar_heights chart =
      (λ cs, percent (missing_count cs.2) (length (index book_df))) <$>
        filter (λ cs, has_missing cs.2 = true) (columns book_df) ∧
    Forall (λ x, ∃ q, x = Fin q ∧ (0 < q)%Qc ∧ (q ≤ Qc_of_Z 100)%Qc)
           (bar_heights chart).
Proof.
  apply (plot_missing_values_bars {[0 := book_df]} 0 book_df false "./").
  - reflexivity.
  - unfold well_formed. simpl. repeat constructor.
Defined.

(** Of the four rows of [book_df] one has no [ask_size], one no
    [imbalance_size], one no [ask_price], and two each have no
    [far_price] and no [near_price]. *)
Example plot_missing_values_book :
  ∃ chart,
    plot_missing_values 0 true "./" {[0 := book_df]} =
      Some (chart, ({[0 := book_df]} : gmap loc DataFrame)) ∧
    bar_labels chart =
      ["ask_size"; "imbalance_size"; "ask_price"; "far_price"; "near_price"] ∧
    bar_heights chart = [num 25; num 25; num 25; num 50; num 50] ∧
    bar_file chart = Some "./missing_values.pdf".
Proof.
  eexists. split.
  - unfold plot_missing_values, bind.
    rewrite (deref_run 0 {[0 := book_df]} book_df) by reflexivity. reflexivity.
  - repeat split; by_evaluation.
Qed.
